(** * Pokedex scraper and relational loader: a shallow embedding

    The development follows the two Python programs of the repository:
    - [pokedex_scraper.py]: the [PokedexScraper] class, which turns one
      catalogue page into a pokemon document and a list of ability
      documents;
    - [pokedex_db_converter.py]: the loader, which reads the documents back
      and fills the six tables of the sqlite database.

    Python dictionaries that are only looked up become [gmap string _];
    exceptions become the [Err] branch of [result]; the sqlite cursor is an
    explicit state that survives an exception, as the connection does. *)

From stdpp Require Import base gmap strings list fin_maps.
From Stdlib Require Import ZArith Ascii String.

Open Scope string_scope.
Open Scope list_scope.

(** ** Exceptions and the error monad *)

Inductive exn : Type :=
| KeyError (key : string)        (* d[k] on a dictionary without k *)
| IndexError                     (* l[i] past the end of a sequence *)
| AssertionError                 (* a failed assert *)
| ValueError (message : string)  (* raised by __init__, and by int() *)
| InterfaceError                 (* sqlite3: a parameter of unsupported type *)
| IntegrityError                 (* sqlite3: PRIMARY KEY or NOT NULL violated *)
| OverflowError                  (* sqlite3, bson: an int beyond 8 bytes *)
| RequestException.              (* requests.get failed *)

Inductive result (A : Type) : Type :=
| Ok (a : A)
| Err (e : exn).
Arguments Ok {A} a.
Arguments Err {A} e.

#[global] Instance result_ret : MRet result := λ A a, Ok a.
#[global] Instance result_bind : MBind result := λ A B f r,
  match r with
  | Ok a => f a
  | Err e => Err e
  end.

#[global] Instance result_fmap : FMap result := λ A B f r,
  match r with
  | Ok a => Ok (f a)
  | Err e => Err e
  end.

Definition is_ok {A} (r : result A) : bool :=
  match r with Ok _ => true | Err _ => false end.

(** [d[k]] on a dictionary. *)
Definition getitem {V} (d : gmap string V) (k : string) : result V :=
  match d !! k with
  | Some v => Ok v
  | None => Err (KeyError k)
  end.

(** [l[i]] on a list. *)
Definition index {A} (l : list A) (i : nat) : result A :=
  match l !! i with
  | Some x => Ok x
  | None => Err IndexError
  end.

(** A [for] loop whose body appends to an accumulator local to the
    function: the rows appended by each iteration are concatenated in
    order, and the first exception leaves the loop. *)
Fixpoint for_ {A B} (xs : list A) (body : A → result (list B)) : result (list B) :=
  match xs with
  | [] => Ok []
  | x :: xs' =>
      v ← body x;
      vs ← for_ xs' body;
      mret (v ++ vs)
  end.

(** ** Lineage normalizer ([insert_evolutions_table], lines 116-140) *)

(** [pkmn['evolutions']]: the list of dictionaries built by
    [__scrape_evolutions], each pairing a position with the names in it. *)
Abbreviation lineage := (list (gmap string (list string))).

(** [evos = {}; for dic in evos_list: evos.update(dic)]. *)
Definition combine_evos (evos_list : lineage) : gmap string (list string) :=
  foldl (λ evos dic, dic ∪ evos) ∅ evos_list.

Definition positions : list string := ["first"; "middle"; "last"].

(** The value of [values] when [executemany] is reached. *)
Definition evolution_edges (evos_list : lineage) : result (list (string * string)) :=
  let evos := combine_evos evos_list in
  _ ← for_ (map_to_list evos).*1 (λ key,
        if bool_decide (key ∈ positions) then Ok ([] : list unit)
        else Err AssertionError);
  if bool_decide (is_Some (evos !! "middle")) then
    v1 ← (mids ← getitem evos "middle";
          for_ mids (λ mid_evo,
            firsts ← getitem evos "first";
            for_ firsts (λ first_evo, Ok [(first_evo, mid_evo)])));
    v2 ← (lasts ← getitem evos "last";
          for_ lasts (λ last_evo,
            mids ← getitem evos "middle";
            for_ mids (λ mid_evo, Ok [(mid_evo, last_evo)])));
    mret (v1 ++ v2)
  else if bool_decide (is_Some (evos !! "last")) then
    lasts ← getitem evos "last";
    for_ lasts (λ last_evo,
      firsts ← getitem evos "first";
      for_ firsts (λ first_evo, Ok [(first_evo, last_evo)]))
  else Ok [].


(** ** Python values held by the documents *)

(** A value stored under a key of a form dictionary: a string (form label,
    image, height, weight, category) or a list of strings (descriptions,
    types, gender, abilities). *)
Inductive value : Type :=
| VStr (s : string)
| VList (l : list string).

#[global] Instance value_eq_dec : EqDecision value.
Proof. solve_decision. Defined.

(** A Python string seen as a sequence: its one-character strings. *)
Definition chars (s : string) : list string :=
  (λ c, String c EmptyString) <$> list_ascii_of_string s.

(** The elements that indexing, [len] and iteration see. *)
Definition elems (v : value) : list string :=
  match v with
  | VList l => l
  | VStr s => chars s
  end.

(** [s.startswith(p)]. *)
Fixpoint startswith (p s : string) : bool :=
  match p, s with
  | EmptyString, _ => true
  | String a p', String b s' => bool_decide (a = b) && startswith p' s'
  | String _ _, EmptyString => false
  end.

(** [s.find(sub) != -1]: [sub] occurs somewhere in [s]. *)
Fixpoint occurs (sub s : string) : bool :=
  startswith sub s ||
  match s with
  | EmptyString => false
  | String _ s' => occurs sub s'
  end.

(** [x in v]: membership in a list, substring test on a string. *)
Definition contains (x : string) (v : value) : bool :=
  match v with
  | VList l => bool_decide (x ∈ l)
  | VStr s => occurs x s
  end.

(** The pokemon document stored by the scraper and read back by the loader
    (the keys set by [__scrape_pokemon]). *)
Record pokemon_doc : Type := {
  url : string;
  name : string;
  number : Z;
  evolutions : lineage;
  formes : list (gmap string value)
}.

(** The ability document: [{"ability": ..., "description": ...}]. *)
Record ability_doc : Type := {
  ability : string;
  description : string
}.

(** ** The sqlite database *)

Inductive sqlval : Type :=
| SNull
| SInt (z : Z)
| SText (s : string).

#[global] Instance sqlval_eq_dec : EqDecision sqlval.
Proof. solve_decision. Defined.

Abbreviation row := (list sqlval).

Inductive table_name : Type :=
| Tpokemon
| Tformes
| Tform_descriptions
| Tabilities
| Tform_abilities
| Tevolutions.

#[global] Instance table_name_eq_dec : EqDecision table_name.
Proof. solve_decision. Defined.

(** The six tables made by [create_sqlite_db], each the list of its rows in
    insertion order. *)
Record database : Type := {
  t_pokemon : list row;
  t_formes : list row;
  t_form_descriptions : list row;
  t_abilities : list row;
  t_form_abilities : list row;
  t_evolutions : list row
}.

(** The state [create_sqlite_db] leaves: every table empty. *)
Definition create_sqlite_db : database :=
  {| t_pokemon := []; t_formes := []; t_form_descriptions := [];
     t_abilities := []; t_form_abilities := []; t_evolutions := [] |}.

Definition table (d : database) (t : table_name) : list row :=
  match t with
  | Tpokemon => t_pokemon d
  | Tformes => t_formes d
  | Tform_descriptions => t_form_descriptions d
  | Tabilities => t_abilities d
  | Tform_abilities => t_form_abilities d
  | Tevolutions => t_evolutions d
  end.

Definition append_row (d : database) (t : table_name) (r : row) : database :=
  match t with
  | Tpokemon =>
      {| t_pokemon := t_pokemon d ++ [r]; t_formes := t_formes d;
         t_form_descriptions := t_form_descriptions d;
         t_abilities := t_abilities d;
         t_form_abilities := t_form_abilities d;
         t_evolutions := t_evolutions d |}
  | Tformes =>
      {| t_pokemon := t_pokemon d; t_formes := t_formes d ++ [r];
         t_form_descriptions := t_form_descriptions d;
         t_abilities := t_abilities d;
         t_form_abilities := t_form_abilities d;
         t_evolutions := t_evolutions d |}
  | Tform_descriptions =>
      {| t_pokemon := t_pokemon d; t_formes := t_formes d;
         t_form_descriptions := t_form_descriptions d ++ [r];
         t_abilities := t_abilities d;
         t_form_abilities := t_form_abilities d;
         t_evolutions := t_evolutions d |}
  | Tabilities =>
      {| t_pokemon := t_pokemon d; t_formes := t_formes d;
         t_form_descriptions := t_form_descriptions d;
         t_abilities := t_abilities d ++ [r];
         t_form_abilities := t_form_abilities d;
         t_evolutions := t_evolutions d |}
  | Tform_abilities =>
      {| t_pokemon := t_pokemon d; t_formes := t_formes d;
         t_form_descriptions := t_form_descriptions d;
         t_abilities := t_abilities d;
         t_form_abilities := t_form_abilities d ++ [r];
         t_evolutions := t_evolutions d |}
  | Tevolutions =>
      {| t_pokemon := t_pokemon d; t_formes := t_formes d;
         t_form_descriptions := t_form_descriptions d;
         t_abilities := t_abilities d;
         t_form_abilities := t_form_abilities d;
         t_evolutions := t_evolutions d ++ [r] |}
  end.

(** The columns of each PRIMARY KEY clause, counted from 0. *)
Definition primary_key (t : table_name) : list nat :=
  match t with
  | Tpokemon => [0]
  | Tformes => [0; 1]
  | Tform_descriptions => [0; 1; 2]
  | Tabilities => [0]
  | Tform_abilities => [0; 1; 2]
  | Tevolutions => [0; 1]
  end%nat.

(** The columns declared without NOT NULL: only [formes.type_2]. *)
Definition nullable (t : table_name) : list nat :=
  match t with
  | Tformes => [6%nat]
  | _ => []
  end.

Definition key_of (t : table_name) (r : row) : list (option sqlval) :=
  (λ i, r !! i) <$> primary_key t.

(** Some NOT NULL column of the row holds NULL. *)
Definition null_violation (t : table_name) (r : row) : bool :=
  existsb (λ '(i, v), bool_decide (v = SNull) && negb (bool_decide (i ∈ nullable t)))
          (imap (λ i v, (i, v)) r).

(** Some row of the table already has the primary key of the row. *)
Definition key_violation (t : table_name) (rows : list row) (r : row) : bool :=
  existsb (λ r', bool_decide (key_of t r' = key_of t r)) rows.

(** An object given to sqlite3 as a statement parameter. *)
Inductive param : Type :=
| PNone
| PInt (z : Z)
| PText (s : string)
| PList (l : list string)
| PDoc (a : ability_doc).

Definition to_param (v : value) : param :=
  match v with
  | VStr s => PText s
  | VList l => PList l
  end.

(** The integers of 8 bytes, which sqlite and BSON store. *)
Definition int64 (z : Z) : bool :=
  ((-9223372036854775808 <=? z) && (z <=? 9223372036854775807))%Z.

(** Binding a parameter: sqlite3 accepts None, int and str here; an int
    beyond 8 bytes raises OverflowError; a list or a dictionary has no
    adapter and the call raises (InterfaceError; since Python 3.11 the class
    is ProgrammingError). *)
Definition bind_param (p : param) : result sqlval :=
  match p with
  | PNone => Ok SNull
  | PInt z => if int64 z then Ok (SInt z) else Err OverflowError
  | PText s => Ok (SText s)
  | PList _ => Err InterfaceError
  | PDoc _ => Err InterfaceError
  end.

Fixpoint bind_params (ps : list param) : result row :=
  match ps with
  | [] => Ok []
  | p :: ps' =>
      v ← bind_param p;
      vs ← bind_params ps';
      mret (v :: vs)
  end.

(** A statement that reached the database engine. *)
Inductive stmt : Type :=
| SELECT (t : table_name) (args : row)
| INSERT (t : table_name) (r : row).

(** The cursor with its connection: the database seen through the open
    connection, the statements executed so far, the rows waiting for
    [fetchall], and the database as the file holds it, which is what the
    last commit stored. The rows inserted since then are in [db] only: they
    are lost when the script ends without commit. *)
Record cursor : Type := {
  db : database;
  log : list stmt;
  pending : list row;
  committed : database
}.

(** ** The state-and-exception monad of the effectful code *)

Definition io (S A : Type) : Type := S → result A * S.

#[global] Instance io_ret {S} : MRet (io S) := λ A a s, (Ok a, s).
#[global] Instance io_bind {S} : MBind (io S) := λ A B f m s,
  match m s with
  | (Ok a, s') => f a s'
  | (Err e, s') => (Err e, s')
  end.

(** A computation without effect on the state: it returns or raises. *)
Definition lift {S A} (r : result A) : io S A := λ s, (r, s).

(** A [for] loop over effectful iterations. *)
Fixpoint for_io {S A} (xs : list A) (body : A → io S unit) : io S unit :=
  match xs with
  | [] => mret tt
  | x :: xs' => _ ← body x; for_io xs' body
  end.

(** ** sqlite3 cursor operations *)

(** [col = ?] on two values of one storage class (the loader compares text
    with text); NULL equals nothing. *)
Definition sql_eq (a b : sqlval) : bool :=
  match a, b with
  | SNull, _ | _, SNull => false
  | _, _ => bool_decide (a = b)
  end.

(** [cur.execute("INSERT INTO t VALUES (?, ..., ?);", values)]: the
    parameters are bound, then the row is stored unless it breaks NOT NULL
    or the primary key. Foreign keys are declared but sqlite does not
    enforce them on a connection that never issues PRAGMA foreign_keys. *)
Definition execute_insert (t : table_name) (values : list param) : io cursor unit :=
  λ cur,
    match bind_params values with
    | Err e => (Err e, cur)
    | Ok r =>
        let logged := log cur ++ [INSERT t r] in
        if null_violation t r || key_violation t (table (db cur) t) r
        then (Err IntegrityError,
              {| db := db cur; log := logged; pending := [];
                 committed := committed cur |})
        else (Ok tt,
              {| db := append_row (db cur) t r; log := logged; pending := [];
                 committed := committed cur |})
    end.

(** [cur.execute("SELECT * FROM t WHERE c1=? OR ... OR cn=?;", args)]: the
    rows in which some listed column equals its parameter. *)
Definition execute_select (t : table_name) (columns : list nat) (args : list param)
    : io cursor unit :=
  λ cur,
    match bind_params args with
    | Err e => (Err e, cur)
    | Ok vs =>
        let matches (r : row) :=
          existsb (λ '(c, v), from_option (λ x, sql_eq x v) false (r !! c))
                  (zip columns vs) in
        (Ok tt,
         {| db := db cur; log := log cur ++ [SELECT t vs];
            pending := filter (λ r, Is_true (matches r)) (table (db cur) t);
            committed := committed cur |})
    end.

(** [cur.fetchall()]. *)
Definition fetchall : io cursor (list row) :=
  λ cur, (Ok (pending cur),
          {| db := db cur; log := log cur; pending := [];
             committed := committed cur |}).

(** [con.commit()]: the file takes the database of the connection. *)
Definition commit : io cursor unit :=
  λ cur, (Ok tt,
          {| db := db cur; log := log cur; pending := pending cur;
             committed := db cur |}).

(** [cur.executemany("INSERT INTO t VALUES (...);", values)]. *)
Definition executemany_insert (t : table_name) (values : list (list param))
    : io cursor unit :=
  for_io values (execute_insert t).

(** ** The loader ([pokedex_db_converter.py]) *)

(** The print of the values in [insert_pokemon_table] only writes to the
    console and is left out. *)
Definition insert_pokemon_table (pkmn : pokemon_doc) : io cursor unit :=
  let values := [PText (name pkmn); PInt (number pkmn)] in
  execute_insert Tpokemon values.

(** The body of the loop of [insert_formes_table]. *)
Definition insert_formes_table_body (pkmn : pokemon_doc) (form : gmap string value)
    : io cursor unit :=
  type1 ← lift (types ← getitem form "types"; index (elems types) 0);
  type2 ← lift (types ← getitem form "types";
                if (List.length (elems types) <? 2)%nat then Ok PNone
                else (types ← getitem form "types";
                      PText <$> index (elems types) 1));
  male ← lift (gender ← getitem form "gender";
               mret (if contains "Male" gender then 1 else 0)%Z);
  female ← lift (gender ← getitem form "gender";
                 mret (if contains "Female" gender then 1 else 0)%Z);
  values ← lift (form_ ← getitem form "form";
                 height ← getitem form "height";
                 weight ← getitem form "weight";
                 category ← getitem form "category";
                 mret [PText (name pkmn); to_param form_; to_param height;
                       to_param weight; to_param category; PText type1;
                       type2; PInt male; PInt female]);
  execute_insert Tformes values.

Definition insert_formes_table (pkmn : pokemon_doc) : io cursor unit :=
  for_io (formes pkmn) (insert_formes_table_body pkmn).

(** The body of the loop of [insert_form_descriptions_table]. *)
Definition insert_form_descriptions_table_body (pkmn : pokemon_doc)
    (form : gmap string value) : io cursor unit :=
  desc1 ← lift (descriptions ← getitem form "descriptions";
                index (elems descriptions) 0);
  form_ ← lift (getitem form "form");
  let values := [[PText (name pkmn); to_param form_; PText desc1]] in
  desc2 ← lift (descriptions ← getitem form "descriptions";
                index (elems descriptions) 1);
  values ← (if bool_decide (desc1 ≠ desc2)
            then form_ ← lift (getitem form "form");
                 mret (values ++ [[PText (name pkmn); to_param form_; PText desc2]])
            else mret values);
  executemany_insert Tform_descriptions values.

Definition insert_form_descriptions_table (pkmn : pokemon_doc) : io cursor unit :=
  for_io (formes pkmn) (insert_form_descriptions_table_body pkmn).

(** The SELECT is given the whole ability document as its parameter, as the
    source does. *)
Definition insert_abilities_table (ability_ : ability_doc) : io cursor unit :=
  _ ← execute_select Tabilities [0%nat] [PDoc ability_];
  rows ← fetchall;
  if (List.length rows =? 0)%nat then
    let name_ := ability ability_ in
    let info := description ability_ in
    execute_insert Tabilities [PText name_; PText info]
  else mret tt.

(** The rows one form contributes to [values] in
    [insert_form_abilities_table]. *)
Definition form_ability_values (pkmn : pokemon_doc) (form : gmap string value)
    : result (list (list param)) :=
  if bool_decide (is_Some (form !! "abilities")) then
    abilities ← getitem form "abilities";
    for_ (elems abilities) (λ ability_,
      form_ ← getitem form "form";
      mret [[PText (name pkmn); to_param form_; PText ability_]])
  else Ok [].

Definition insert_form_abilities_table (pkmn : pokemon_doc) : io cursor unit :=
  values ← lift (for_ (formes pkmn) (form_ability_values pkmn));
  executemany_insert Tform_abilities values.

Definition insert_evolutions_table (pkmn : pokemon_doc) : io cursor unit :=
  _ ← execute_select Tevolutions [0; 1]%nat [PText (name pkmn); PText (name pkmn)];
  rows ← fetchall;
  if (List.length rows =? 0)%nat then
    values ← lift (evolution_edges (evolutions pkmn));
    executemany_insert Tevolutions
      ((λ '(a, b), [PText a; PText b]) <$> values)
  else mret tt.

(** All the rows of one pokemon, in the order of the second loop of
    [fill_sqlite_db]. *)
Definition insert_pokemon (pkmn : pokemon_doc) : io cursor unit :=
  _ ← insert_pokemon_table pkmn;
  _ ← insert_formes_table pkmn;
  _ ← insert_form_descriptions_table pkmn;
  _ ← insert_form_abilities_table pkmn;
  insert_evolutions_table pkmn.

(** [fill_sqlite_db], given what the two [find()] cursors yield. The commit
    that follows the loops is reached only without exception; the close
    after it leaves the file as the commit made it. *)
Definition fill_sqlite_db (ability_coll : list ability_doc)
    (pkmn_coll : list pokemon_doc) : io cursor unit :=
  _ ← for_io ability_coll insert_abilities_table;
  _ ← for_io pkmn_coll insert_pokemon;
  commit.

(** The cursor of a fresh connection to the database just created. *)
Definition fresh_cursor : cursor :=
  {| db := create_sqlite_db; log := []; pending := [];
     committed := create_sqlite_db |}.

(** ** The scraper ([pokedex_scraper.py]) *)

(** [s.strip(chars)]: the leading and trailing characters found in
    [chars] are removed. *)
Fixpoint lstrip (chars : list ascii) (s : string) : string :=
  match s with
  | EmptyString => EmptyString
  | String a s' => if bool_decide (a ∈ chars) then lstrip chars s' else s
  end.

Definition strip (chars : string) (s : string) : string :=
  let cs := list_ascii_of_string chars in
  String.rev (lstrip cs (String.rev (lstrip cs s))).

Definition newline : string := String (ascii_of_nat 10) EmptyString.
Definition quote : string := String (ascii_of_nat 34) EmptyString.

(** The characters of [" \n"] and of [" \n#"]. *)
Definition blanks : string := " " +:+ newline.
Definition blanks_hash : string := blanks +:+ "#".

(** One node of class [attribute-value]: its text, and for each descendant
    of class [icon] the list [icon.attrs["class"]]. *)
Record attribute_value : Type := {
  text : string;
  icons : list (list string)
}.

(** One region of class [pokemon-ability-info]: the text of its
    [attribute-title] nodes and its [attribute-value] nodes. *)
Record ability_info : Type := {
  titles : list string;
  values : list attribute_value
}.

(** A parsed page, as the answers to the queries the scraper makes on
    [self._soup]. Queries whose result the source uses without a test are
    taken to find their node. *)
Record page : Type := {
  (* contents[0] and contents[1].string of the pagination title *)
  title_name : string;
  title_number : string;
  (* form.string over find(id="formes").contents[1::2]; None: no such tag *)
  formes_tag : option (list string);
  (* image["src"] over the img tags of class profile-images *)
  images_tag : list string;
  (* description.string over the p tags of each version-descriptions *)
  descriptions_tag : list (list string);
  (* type_.text over the li tags of each dtm-type *)
  types_tag : list (list string);
  info_tag : list ability_info;
  (* attrs["class"][0] and the h3 texts over evolution-profile.contents[1::2] *)
  evolutions_tag : option (list (string * list string));
  (* the h3 text and p text of each pokemon-ability-info-detail *)
  ability_details : list (string * string);
  (* the href of the link of class next *)
  next_href : string
}.

(** The attributes of a [PokedexScraper] object. *)
Record scraper : Type := {
  _url : string;
  _pokemon : pokemon_doc;
  _abilities : list ability_doc;
  _next_pokemon_url : string
}.

Definition url_prefix : string := "https://www.pokemon.com/us/pokedex/".

Definition error_message (pokemon_url : string) : string :=
  "The PokedexScraper can only scrape pages at " +:+ newline +:+
  "                https://www.pokemon.com/us/pokedex/ + the name of a pokemon. "
  +:+ newline +:+
  "                The url " +:+ quote +:+ pokemon_url +:+ quote +:+ " was passed.".

(** Lines 253-263 of [__scrape_misc_info]: the genders of one form, from
    the third [attribute-value] node. *)
Definition scrape_genders (v : attribute_value) : result (list string) :=
  if bool_decide (icons v ≠ []) then
    for_ (icons v) (λ icon,
      class2 ← index icon 1;
      if occurs "female" class2 then Ok ["Female"] else Ok ["Male"])
  else Ok [strip blanks (text v)].

Section Scraper.

(** Python's [int] on a string ([None]: it raises ValueError) and
    [str.lower]. *)
Variable int : string → option Z.
Variable lower : string → string.

(** [requests.get] followed by the parse of the answer ([None]: the
    request raises). *)
Variable requests_get : string → option page.

Definition __scrape_name (soup : page) : string :=
  strip blanks (title_name soup).

Definition __scrape_number (soup : page) : result Z :=
  let literal := strip blanks_hash (title_number soup) in
  match int literal with
  | Some n => Ok n
  | None => Err (ValueError ("invalid literal for int() with base 10: " +:+ literal))
  end.

Definition __scrape_formes (soup : page) : list string :=
  match formes_tag soup with
  | Some forms => strip blanks <$> forms
  | None => [__scrape_name soup]
  end.

(** [for x, form in zip(tags, formes): d[form] = f(x)]. *)
Definition zip_into {A V} (f : A → V) (tags : list A) (formes : list string)
    : gmap string V :=
  foldl (λ d '(x, form), <[form := f x]> d) ∅ (zip tags formes).

Definition __scrape_images (soup : page) (formes : list string)
    : gmap string string :=
  zip_into id (images_tag soup) formes.

Definition __scrape_descriptions (soup : page) (formes : list string)
    : gmap string (list string) :=
  zip_into (fmap (strip blanks)) (descriptions_tag soup) formes.

Definition __scrape_types (soup : page) (formes : list string)
    : gmap string (list string) :=
  zip_into (fmap (strip blanks)) (types_tag soup) formes.

(** The body of the loop of [__scrape_misc_info]: the dictionary of one
    form. *)
Definition scrape_form_info (form_info : ability_info)
    : result (gmap string value) :=
  let info := ∅ in
  v0 ← index (values form_info) 0;
  t0 ← index (titles form_info) 0;
  let info := <[lower t0 := VStr (text v0)]> info in
  v1 ← index (values form_info) 1;
  t1 ← index (titles form_info) 1;
  let info := <[lower t1 := VStr (text v1)]> info in
  v2 ← index (values form_info) 2;
  genders ← scrape_genders v2;
  t2 ← index (titles form_info) 2;
  let info := <[lower t2 := VList genders]> info in
  v3 ← index (values form_info) 3;
  t3 ← index (titles form_info) 3;
  let info := <[lower t3 := VStr (text v3)]> info in
  if (4 <? List.length (titles form_info))%nat
     && (4 <? List.length (values form_info))%nat then
    let abilities := (λ a, strip blanks (text a)) <$> drop 4 (values form_info) in
    t4 ← index (titles form_info) 4;
    mret (<[lower t4 := VList abilities]> info)
  else mret info.

Definition __scrape_misc_info (soup : page) (formes : list string)
    : result (gmap string (gmap string value)) :=
  foldl (λ acc '(form_info, form),
           info ← acc;
           d ← scrape_form_info form_info;
           mret (<[form := d]> info))
        (Ok ∅) (zip (info_tag soup) formes).

Definition __scrape_evolutions (soup : page) : lineage :=
  match evolutions_tag soup with
  | Some spots =>
      (λ spot : string * list string,
         ({[spot.1 := strip blanks <$> spot.2]} : gmap string (list string)))
      <$> spots
  | None => []
  end.

(** The dictionary [abilities] is kept as the list of its items in
    insertion order, which is the order of the list returned. *)
Definition __scrape_abilities (soup : page) : list ability_doc :=
  foldl (λ abilities '(h3, p),
           let ability_name := strip blanks h3 in
           if bool_decide (ability_name ∈ ability <$> abilities) then abilities
           else abilities ++
                [{| ability := ability_name; description := strip blanks p |}])
        [] (ability_details soup).

Definition __scrape_next_pokemon_url (soup : page) : string :=
  "https://www.pokemon.com" +:+ next_href soup.

(** The dictionary of one form, built in the loop of [__scrape_pokemon]. *)
Definition form_dict (images : gmap string string)
    (descriptions types : gmap string (list string))
    (misc_info : gmap string (gmap string value)) (form : string)
    : result (gmap string value) :=
  image ← getitem images form;
  let d := <["image" := VStr image]> {["form" := VStr form]} in
  descs ← getitem descriptions form;
  let d := <["descriptions" := VList descs]> d in
  tys ← getitem types form;
  let d := <["types" := VList tys]> d in
  misc ← getitem misc_info form;
  mret (misc ∪ d).

Definition __scrape_pokemon (url_ : string) (soup : page) : result pokemon_doc :=
  let name_ := __scrape_name soup in
  number_ ← __scrape_number soup;
  let evolutions_ := __scrape_evolutions soup in
  let formes_ := __scrape_formes soup in
  let images := __scrape_images soup formes_ in
  let descriptions := __scrape_descriptions soup formes_ in
  let types := __scrape_types soup formes_ in
  misc_info ← __scrape_misc_info soup formes_;
  forms ← for_ formes_ (λ form,
             d ← form_dict images descriptions types misc_info form;
             mret [d]);
  mret {| url := url_; name := name_; number := number_;
          evolutions := evolutions_; formes := forms |}.

(** [PokedexScraper(pokemon_url)]; the state is the list of the URLs
    requested so far. *)
Definition __init__ (pokemon_url : string) : io (list string) scraper :=
  if negb (startswith url_prefix pokemon_url) then
    lift (Err (ValueError (error_message pokemon_url)))
  else
    soup ← (λ requested,
              (match requests_get pokemon_url with
               | Some soup => Ok soup
               | None => Err RequestException
               end, requested ++ [pokemon_url]));
    pokemon ← lift (__scrape_pokemon pokemon_url soup);
    let abilities := __scrape_abilities soup in
    let next := __scrape_next_pokemon_url soup in
    mret {| _url := pokemon_url; _pokemon := pokemon;
            _abilities := abilities; _next_pokemon_url := next |}.

End Scraper.

(** * Vocabulary of the properties *)

(** ** Lineages and the evolutions table *)

(** Every key of the combined dictionary is one of the three positions. *)
Definition valid_keys (evos : gmap string (list string)) : Prop :=
  ∀ key, is_Some (evos !! key) → key ∈ positions.

(** The pokemon occupies some position of the taxonomy. *)
Definition member (pokemon : string) (evos : gmap string (list string)) : Prop :=
  ∃ key names, evos !! key = Some names ∧ pokemon ∈ names.

(** Some row of the evolutions table names the pokemon as predecessor or as
    successor. *)
Definition references (rows : list row) (pokemon : string) : Prop :=
  ∃ r, r ∈ rows ∧
       (r !! 0%nat = Some (SText pokemon) ∨ r !! 1%nat = Some (SText pokemon)).

(** The row stored for an edge. *)
Definition edge_row (edge : string * string) : row :=
  [SText edge.1; SText edge.2].

(** The cursor after the SELECT and the fetchall of
    [insert_evolutions_table]. *)
Definition after_select (pkmn : pokemon_doc) (cur : cursor) : cursor :=
  {| db := db cur;
     log := log cur ++ [SELECT Tevolutions [SText (name pkmn); SText (name pkmn)]];
     pending := []; committed := committed cur |}.

(** The rows of a pokemon that [fill_sqlite_db] stores before it turns to
    the evolutions table. *)
Definition insert_pokemon_rows (pkmn : pokemon_doc) : io cursor unit :=
  _ ← insert_pokemon_table pkmn;
  _ ← insert_formes_table pkmn;
  _ ← insert_form_descriptions_table pkmn;
  insert_form_abilities_table pkmn.

(** ** Relations between the cursor before and after a run *)

(** Every run of the computation relates the cursor it starts from to the
    cursor it leaves, whether it returns or raises. *)
Definition steps {A} (R : cursor → cursor → Prop) (m : io cursor A) : Prop :=
  ∀ cur, R cur (m cur).2.

(** The tables only grow, at their end. *)
Definition grows (c c' : cursor) : Prop :=
  ∀ t, table (db c) t `prefix_of` table (db c') t.

(** The tables other than [t] are left as they were. *)
Definition touches_only (t : table_name) (c c' : cursor) : Prop :=
  ∀ t', t' ≠ t → table (db c') t' = table (db c) t'.

(** The evolutions table is left as it was. *)
Definition keeps_evolutions (c c' : cursor) : Prop :=
  t_evolutions (db c') = t_evolutions (db c).

(** The formes and form_descriptions tables are left as they were. *)
Definition keeps_forms (c c' : cursor) : Prop :=
  t_formes (db c') = t_formes (db c) ∧
  t_form_descriptions (db c') = t_form_descriptions (db c).

(** Pairwise distinct edge rows stay pairwise distinct. *)
Definition distinct_edges (c c' : cursor) : Prop :=
  NoDup (t_evolutions (db c)) → NoDup (t_evolutions (db c')).

(** The table a statement addresses. *)
Definition stmt_table (s : stmt) : table_name :=
  match s with
  | SELECT t _ => t
  | INSERT t _ => t
  end.

(** The statements added to the log all satisfy [P]. *)
Definition logs (P : stmt → Prop) (c c' : cursor) : Prop :=
  ∃ added, log c' = log c ++ added ∧ Forall P added.

(** ** Forms and their descriptions *)

(** Every description row belongs to a form that has its row in the formes
    table. *)
Definition described_forms_known (d : database) : Prop :=
  ∀ r, r ∈ t_form_descriptions d →
       ∃ r', r' ∈ t_formes d ∧ r' !! 0%nat = r !! 0%nat ∧ r' !! 1%nat = r !! 1%nat.

(** No row of the table is a description of the given form. *)
Definition undescribed (rows : list row) (pokemon label : string) : Prop :=
  ∀ r, r ∈ rows →
       ¬ (r !! 0%nat = Some (SText pokemon) ∧ r !! 1%nat = Some (SText label)).

(** The form has a text label and exactly two descriptions. *)
Definition two_descriptions (form : gmap string value) : Prop :=
  ∃ label desc1 desc2,
    form !! "form" = Some (VStr label) ∧
    form !! "descriptions" = Some (VList [desc1; desc2]).

(** The form has a text label and exactly one description. *)
Definition one_description (form : gmap string value) : Prop :=
  ∃ label desc1,
    form !! "form" = Some (VStr label) ∧
    form !! "descriptions" = Some (VList [desc1]).

(** The form dictionary has an entry under the key form, which sqlite3
    binds to [v]. *)
Definition form_key (form : gmap string value) (v : sqlval) : Prop :=
  ∃ form_, form !! "form" = Some form_ ∧ bind_param (to_param form_) = Ok v.

(** The description rows the collapse rule of the specification prescribes
    for a form with two descriptions: one row when they are equal, two
    otherwise. *)
Definition collapsed_description_rows (pokemon : string) (form : gmap string value)
    : list row :=
  match form !! "form", form !! "descriptions" with
  | Some (VStr label), Some (VList [desc1; desc2]) =>
      if decide (desc1 = desc2)
      then [[SText pokemon; SText label; SText desc1]]
      else [[SText pokemon; SText label; SText desc1];
            [SText pokemon; SText label; SText desc2]]
  | _, _ => []
  end.

(** ** Pages *)

(** The exceptions a computation can raise all satisfy [P]. *)
Definition raises_only {A} (P : exn → Prop) (r : result A) : Prop :=
  ∀ e, r = Err e → P e.

(** The exception is not the ValueError of [__init__]. *)
Definition not_url_error (e : exn) : Prop :=
  ∀ pokemon_url, e ≠ ValueError (error_message pokemon_url).

(** The page without the entries that [zip] never pairs with a form
    label. *)
Definition drop_surplus (soup : page) : page :=
  let n := List.length (__scrape_formes soup) in
  {| title_name := title_name soup;
     title_number := title_number soup;
     formes_tag := formes_tag soup;
     images_tag := take n (images_tag soup);
     descriptions_tag := take n (descriptions_tag soup);
     types_tag := take n (types_tag soup);
     info_tag := take n (info_tag soup);
     evolutions_tag := evolutions_tag soup;
     ability_details := ability_details soup;
     next_href := next_href soup |}.

(** * Samples *)

(** ** Documents *)

Definition bulbasaur_line : lineage :=
  [{["first" := ["Bulbasaur"]]}; {["middle" := ["Ivysaur"]]};
   {["last" := ["Venusaur"]]}].

Definition bulbasaur : pokemon_doc :=
  {| url := "https://www.pokemon.com/us/pokedex/bulbasaur";
     name := "Bulbasaur"; number := 1;
     evolutions := bulbasaur_line;
     formes :=
       [ {[ "form" := VStr "Bulbasaur"; "image" := VStr "001.png";
            "descriptions" := VList ["A strange seed."; "A strange seed."];
            "types" := VList ["Grass"; "Poison"];
            "height" := VStr "2 04"; "weight" := VStr "15.2 lbs";
            "gender" := VList ["Male"; "Female"]; "category" := VStr "Seed";
            "abilities" := VList ["Overgrow"] ]} ] |}.

(** A form without abilities entry. *)
Definition ivysaur : pokemon_doc :=
  {| url := "https://www.pokemon.com/us/pokedex/ivysaur";
     name := "Ivysaur"; number := 2;
     evolutions := bulbasaur_line;
     formes :=
       [ {[ "form" := VStr "Ivysaur"; "image" := VStr "002.png";
            "descriptions" := VList ["Its bud grows."; "It needs sunlight."];
            "types" := VList ["Grass"; "Poison"];
            "height" := VStr "3 03"; "weight" := VStr "28.7 lbs";
            "gender" := VList ["Male"; "Female"]; "category" := VStr "Seed" ]} ] |}.

Definition overgrow : ability_doc :=
  {| ability := "Overgrow"; description := "Powers up Grass-type moves." |}.

(** A taxonomy with an empty middle position and no first position. *)
Definition headless_line : lineage :=
  [{["middle" := []]}; {["last" := ["Venusaur"]]}].

(** ** Pages *)

(** [str.lower] on ASCII text. *)
Definition lower_ascii (s : string) : string :=
  string_of_list_ascii
    ((λ c, let n := nat_of_ascii c in
           if (65 <=? n)%nat && (n <=? 90)%nat then ascii_of_nat (n + 32) else c)
       <$> list_ascii_of_string s).

(** [int] on a string of decimal digits; any other string is refused. *)
Definition decimal (s : string) : option Z :=
  match s with
  | EmptyString => None
  | _ =>
      foldl (λ acc c,
               n ← acc;
               let d := nat_of_ascii c in
               if (48 <=? d)%nat && (d <=? 57)%nat
               then Some (10 * n + Z.of_nat (d - 48))%Z
               else None)
            (Some 0%Z) (list_ascii_of_string s)
  end.

(** A gender value with two icons. *)
Definition both_genders : attribute_value :=
  {| text := "";
     icons := [["icon"; "icon_male_symbol"]; ["icon"; "icon_female_symbol"]] |}.

(** A region without ability section: four titles, four values. *)
Definition eevee_info : ability_info :=
  {| titles := ["Height"; "Weight"; "Gender"; "Category"];
     values := [ {| text := "1 00"; icons := [] |};
                 {| text := "14.3 lbs"; icons := [] |};
                 both_genders;
                 {| text := "Evolution"; icons := [] |} ] |}.

Definition eevee_page : page :=
  {| title_name := " Eevee "; title_number := " #133 ";
     formes_tag := None;
     images_tag := ["133.png"];
     descriptions_tag := [["It can evolve."; "Its genes are unstable."]];
     types_tag := [["Normal"]];
     info_tag := [eevee_info];
     evolutions_tag := Some [("first", ["Eevee"])];
     ability_details := [];
     next_href := "/us/pokedex/vaporeon" |}.

(** The same page with a second image, for which there is no form. *)
Definition surplus_page : page :=
  {| title_name := " Eevee "; title_number := " #133 ";
     formes_tag := None;
     images_tag := ["133.png"; "133_f2.png"];
     descriptions_tag := [["It can evolve."; "Its genes are unstable."]];
     types_tag := [["Normal"]];
     info_tag := [eevee_info];
     evolutions_tag := Some [("first", ["Eevee"])];
     ability_details := [];
     next_href := "/us/pokedex/vaporeon" |}.

(** A page that declares two forms and shows one image. *)
Definition short_page : page :=
  {| title_name := " Venusaur "; title_number := " #003 ";
     formes_tag := Some [" Venusaur "; " Mega Venusaur "];
     images_tag := ["003.png"];
     descriptions_tag :=
       [["Its flower blooms."; "It basks in the sun."];
        ["Its flower grows."; "It stores energy."]];
     types_tag := [["Grass"; "Poison"]; ["Grass"; "Poison"]];
     info_tag := [eevee_info; eevee_info];
     evolutions_tag := None;
     ability_details := [];
     next_href := "/us/pokedex/charmander" |}.

(** * Further definitions *)

(** ** The crawl ([main] of [pokedex_scraper.py]) *)

(** The two collections of the mongodb database [pokedex], each the list of
    its documents in insertion order. *)
Record store : Type := {
  pkmn_collection : list pokemon_doc;
  ability_collection : list ability_doc
}.

(** How a run of [main] ends: it returns, an exception of the scraper or
    of the encoding of a document leaves it, pymongo's DuplicateKeyError
    leaves it, or the fuel given to the loop is used up with [url] as the
    page to visit next. *)
Inductive outcome : Type :=
| Done
| Raised (e : exn)
| DuplicateKeyError
| Running (url : string).

(** [create_index(key, unique=True)] accepts a collection whose keys are
    pairwise distinct. *)
Definition unique_index {K} `{EqDecision K} (keys : list K) : bool :=
  bool_decide (NoDup keys).

(** [pkmn_collection.insert_one(doc)] under the unique index on number. The
    document is encoded before it is sent: a number beyond 8 bytes raises
    OverflowError. The server then refuses a number that is taken
    ([Ok None]: pymongo raises DuplicateKeyError). *)
Definition insert_one (doc : pokemon_doc) (coll : list pokemon_doc)
    : result (option (list pokemon_doc)) :=
  if negb (int64 (number doc)) then Err OverflowError
  else if bool_decide (number doc ∈ number <$> coll) then Ok None
  else Ok (Some (coll ++ [doc])).

(** [ability_collection.update_one({"ability": name}, {"$set": ability},
    upsert=True)]: the first document with the name takes the fields of
    [ability_]; without such a document, [ability_] is inserted. *)
Fixpoint update_one (ability_ : ability_doc) (coll : list ability_doc)
    : list ability_doc :=
  match coll with
  | [] => [ability_]
  | doc :: rest =>
      if bool_decide (ability doc = ability ability_) then ability_ :: rest
      else doc :: update_one ability_ rest
  end.

Definition first_pokemon_url : string :=
  "https://www.pokemon.com/us/pokedex/bulbasaur".

Section Crawl.

Variable int : string → option Z.
Variable lower : string → string.
Variable requests_get : string → option page.

(** The [while] loop of [main], for at most [fuel] pages. The state is the
    store and the list of the URLs requested; the random delay and the
    prints are left out. *)
Fixpoint crawl (fuel : nat) (url_ : string) (st : store) (requested : list string)
    : outcome * store * list string :=
  match fuel with
  | O => (Running url_, st, requested)
  | S fuel' =>
      match __init__ int lower requests_get url_ requested with
      | (Err e, requested') => (Raised e, st, requested')
      | (Ok pkdx, requested') =>
          match insert_one (_pokemon pkdx) (pkmn_collection st) with
          | Err e => (Raised e, st, requested')
          | Ok None => (DuplicateKeyError, st, requested')
          | Ok (Some pkmns) =>
              let abilities :=
                foldl (λ coll ability_, update_one ability_ coll)
                      (ability_collection st) (_abilities pkdx) in
              let st' := {| pkmn_collection := pkmns;
                            ability_collection := abilities |} in
              if bool_decide (_next_pokemon_url pkdx = first_pokemon_url)
              then (Done, st', requested')
              else crawl fuel' (_next_pokemon_url pkdx) st' requested'
          end
      end
  end.

(** [main], on the store as it finds it. *)
Definition main (fuel : nat) (st : store) : outcome * store * list string :=
  if unique_index (number <$> pkmn_collection st) then
    if unique_index (ability <$> ability_collection st) then
      crawl fuel first_pokemon_url st []
    else (DuplicateKeyError, st, [])
  else (DuplicateKeyError, st, []).

(** The pages the loop visits from [url_] until a page links back to the
    first page, with the documents scraped from them: every URL has the
    prefix, every page is served and scraped, and only the last page links
    to the first. *)
Fixpoint tour (url_ : string) (pages : list page) (docs : list pokemon_doc) : Prop :=
  match pages, docs with
  | soup :: pages', doc :: docs' =>
      startswith url_prefix url_ = true ∧
      requests_get url_ = Some soup ∧
      __scrape_pokemon int lower url_ soup = Ok doc ∧
      match pages' with
      | [] => docs' = [] ∧ __scrape_next_pokemon_url soup = first_pokemon_url
      | _ :: _ =>
          __scrape_next_pokemon_url soup ≠ first_pokemon_url ∧
          tour (__scrape_next_pokemon_url soup) pages' docs'
      end
  | _, _ => False
  end.

(** The abilities collection after the pages were visited in order. *)
Definition upsert_pages (coll : list ability_doc) (pages : list page)
    : list ability_doc :=
  foldl (λ coll soup,
           foldl (λ coll ability_, update_one ability_ coll) coll
                 (__scrape_abilities soup))
        coll pages.

End Crawl.

(** ** Further vocabulary *)

(** Some row of the pokemon table has the name in its key column. *)
Definition named (rows : list row) (pokemon : string) : Prop :=
  ∃ r, r ∈ rows ∧ r !! 0%nat = Some (SText pokemon).

(** The abilities table is left as it was. *)
Definition keeps_abilities (c c' : cursor) : Prop :=
  t_abilities (db c') = t_abilities (db c).

(** The database file is left as it was: nothing is committed. *)
Definition keeps_committed (c c' : cursor) : Prop :=
  committed c' = committed c.

(** ** Further samples *)

(** A region with an ability section. *)
Definition eevee_full_info : ability_info :=
  {| titles := titles eevee_info ++ ["Abilities"];
     values := values eevee_info
               ++ [ {| text := " Run Away "; icons := [] |};
                    {| text := " Adaptability "; icons := [] |} ] |}.

(** A form with one type and one gender. *)
Definition female_grass_form : gmap string value :=
  {[ "form" := VStr "Ivysaur"; "types" := VList ["Grass"];
     "height" := VStr "3 03"; "weight" := VStr "28.7 lbs";
     "gender" := VList ["Female"]; "category" := VStr "Seed" ]}.

(** The store before the first run. *)
Definition empty_store : store :=
  {| pkmn_collection := []; ability_collection := [] |}.

(** A site of two pages that link to each other. *)
Definition bulbasaur_page : page :=
  {| title_name := " Bulbasaur "; title_number := " #001 ";
     formes_tag := None;
     images_tag := ["001.png"];
     descriptions_tag := [["A strange seed."; "A strange seed."]];
     types_tag := [["Grass"; "Poison"]];
     info_tag := [eevee_full_info];
     evolutions_tag := Some [("first", ["Bulbasaur"]); ("middle", ["Ivysaur"])];
     ability_details := [("Overgrow", "Powers up Grass-type moves.")];
     next_href := "/us/pokedex/ivysaur" |}.

Definition ivysaur_page : page :=
  {| title_name := " Ivysaur "; title_number := " #002 ";
     formes_tag := None;
     images_tag := ["002.png"];
     descriptions_tag := [["Its bud grows."; "It needs sunlight."]];
     types_tag := [["Grass"; "Poison"]];
     info_tag := [eevee_full_info];
     evolutions_tag := Some [("first", ["Bulbasaur"]); ("middle", ["Ivysaur"])];
     ability_details := [("Overgrow", "Powers up Grass moves in a pinch.")];
     next_href := "/us/pokedex/bulbasaur" |}.

Definition two_page_site (url_ : string) : option page :=
  if bool_decide (url_ = "https://www.pokemon.com/us/pokedex/bulbasaur")
  then Some bulbasaur_page
  else if bool_decide (url_ = "https://www.pokemon.com/us/pokedex/ivysaur")
  then Some ivysaur_page
  else None.

(** A pokemon whose first form has one description and whose second form
    has two equal ones. *)
Definition deoxys : pokemon_doc :=
  {| url := "https://www.pokemon.com/us/pokedex/deoxys";
     name := "Deoxys"; number := 386;
     evolutions := [{["first" := ["Deoxys"]]}];
     formes :=
       [ {[ "form" := VStr "Normal Forme"; "image" := VStr "386.png";
            "descriptions" := VList ["An alien virus mutated."];
            "types" := VList ["Psychic"];
            "height" := VStr "5 07"; "weight" := VStr "134.0 lbs";
            "gender" := VList ["Unknown"]; "category" := VStr "DNA" ]};
         {[ "form" := VStr "Attack Forme"; "image" := VStr "386_f2.png";
            "descriptions" := VList ["It shoots lasers."; "It shoots lasers."];
            "types" := VList ["Psychic"];
            "height" := VStr "5 07"; "weight" := VStr "134.0 lbs";
            "gender" := VList ["Unknown"]; "category" := VStr "DNA" ]} ] |}.
(** * Properties *)

(** ** The error monad *)

(** A loop whose iterations all return concatenates what they return. *)
Lemma for__ok {A B} (xs : list A) (body : A → result (list B)) (f : A → list B) :
  (∀ x, x ∈ xs → body x = Ok (f x)) →
  for_ xs body = Ok (xs ≫= f).
Proof.
  induction xs as [|x xs IH]; intros Hbody; simpl; [reflexivity|].
  rewrite Hbody by left. simpl.
  rewrite IH; [reflexivity|]. intros y Hy. apply Hbody. by right.
Qed.

(** A loop with a raising iteration raises. *)
Lemma for__raises {A B} (xs : list A) (body : A → result (list B)) x :
  x ∈ xs → is_ok (body x) = false → is_ok (for_ xs body) = false.
Proof.
  induction xs as [|y xs IH]; intros Hin Hx; [by apply elem_of_nil in Hin|].
  simpl. apply elem_of_cons in Hin as [->|Hin].
  - destruct (body y); [discriminate|reflexivity].
  - destruct (body y); simpl; [|reflexivity].
    specialize (IH Hin Hx). destruct (for_ xs body); [discriminate|reflexivity].
Qed.

Lemma elem_of_cross_product {A B C} (xs : list A) (ys : list B) (f : B → A → C) c :
  c ∈ (ys ≫= λ y, xs ≫= λ x, [f y x]) ↔ ∃ x y, c = f y x ∧ x ∈ xs ∧ y ∈ ys.
Proof.
  rewrite list_elem_of_bind. split.
  - intros (y & Hc & Hy). apply list_elem_of_bind in Hc as (x & Hc & Hx).
    apply list_elem_of_singleton in Hc. eauto.
  - intros (x & y & -> & Hx & Hy). exists y. split; [|assumption].
    apply list_elem_of_bind. exists x. split; [|assumption].
    by apply list_elem_of_singleton.
Qed.

(** ** Lineage normalizer *)

Lemma assert_positions_ok (evos : gmap string (list string)) :
  valid_keys evos →
  for_ (map_to_list evos).*1 (λ key,
    if bool_decide (key ∈ positions) then Ok ([] : list unit)
    else Err AssertionError) = Ok [].
Proof.
  intros Hvalid.
  rewrite (for__ok _ _ (λ _, [])).
  - f_equal. induction (map_to_list evos).*1; simpl; auto.
  - intros key Hkey. rewrite bool_decide_eq_true_2; [reflexivity|].
    apply Hvalid. apply list_elem_of_fmap in Hkey as ([k v] & -> & Hkv).
    apply elem_of_map_to_list in Hkv. simpl. eauto.
Qed.

Lemma assert_positions_fails (evos : gmap string (list string)) key :
  is_Some (evos !! key) → key ∉ positions →
  for_ (map_to_list evos).*1 (λ key,
    if bool_decide (key ∈ positions) then Ok ([] : list unit)
    else Err AssertionError) = Err AssertionError.
Proof.
  intros [v Hv] Hkey.
  assert (Hin : key ∈ (map_to_list evos).*1).
  { apply list_elem_of_fmap. exists (key, v). split; [reflexivity|].
    by apply elem_of_map_to_list. }
  induction (map_to_list evos).*1 as [|k ks IH]; [by apply elem_of_nil in Hin|].
  simpl. case_bool_decide as Hk; simpl; [|reflexivity].
  apply elem_of_cons in Hin as [->|Hin]; [contradiction|].
  rewrite IH by assumption. reflexivity.
Qed.

(** The assertion either passes on valid keys or raises. *)
Lemma assert_positions_cases (evos : gmap string (list string)) :
  let checked := for_ (map_to_list evos).*1 (λ key,
    if bool_decide (key ∈ positions) then Ok ([] : list unit)
    else Err AssertionError) in
  (valid_keys evos ∧ checked = Ok []) ∨
  (¬ valid_keys evos ∧ checked = Err AssertionError).
Proof.
  simpl. destruct (decide (Forall (λ key, key ∈ positions) (map_to_list evos).*1))
    as [Hall|Hsome].
  - assert (valid_keys evos) as Hvalid.
    { intros key [v Hv]. rewrite Forall_forall in Hall. apply Hall.
      apply list_elem_of_fmap. exists (key, v). split; [reflexivity|].
      by apply elem_of_map_to_list. }
    left. split; [assumption|]. by apply assert_positions_ok.
  - apply not_Forall_Exists in Hsome; [|apply _].
    apply Exists_exists in Hsome as (key & Hin & Hkey).
    apply list_elem_of_fmap in Hin as ([k v] & -> & Hkv).
    apply elem_of_map_to_list in Hkv. simpl in Hkey.
    right. split.
    + intros Hvalid. apply Hkey, Hvalid. eauto.
    + apply (assert_positions_fails evos k); eauto.
Qed.

(** A check of the keys that runs: used to discharge [valid_keys] on a
    given taxonomy. *)
Lemma valid_keys_check (evos : gmap string (list string)) :
  forallb (λ key, bool_decide (key ∈ positions)) (map_to_list evos).*1 = true →
  valid_keys evos.
Proof.
  intros Hall key [v Hv]. rewrite forallb_forall in Hall.
  eapply bool_decide_eq_true_1. apply Hall. apply list_elem_of_In.
  apply list_elem_of_fmap. exists (key, v). split; [reflexivity|].
  by apply elem_of_map_to_list.
Defined.

(** The edges of a taxonomy with a middle position. *)
Lemma evolution_edges_middle evos_list firsts mids lasts :
  valid_keys (combine_evos evos_list) →
  combine_evos evos_list !! "first" = Some firsts →
  combine_evos evos_list !! "middle" = Some mids →
  combine_evos evos_list !! "last" = Some lasts →
  evolution_edges evos_list =
    Ok ((mids ≫= λ m, firsts ≫= λ f, [(f, m)]) ++
        (lasts ≫= λ l, mids ≫= λ m, [(m, l)])).
Proof.
  intros Hvalid Hf Hm Hl. unfold evolution_edges.
  rewrite assert_positions_ok by assumption. simpl.
  rewrite bool_decide_eq_true_2 by (rewrite Hm; eauto).
  unfold getitem. rewrite Hm, Hl. simpl.
  rewrite (for__ok mids _ (λ m, firsts ≫= λ f, [(f, m)])).
  2:{ intros m _. rewrite Hf. simpl. by apply for__ok. }
  simpl.
  rewrite (for__ok lasts _ (λ l, mids ≫= λ m, [(m, l)])).
  2:{ intros l _. simpl. by apply for__ok. }
  reflexivity.
Qed.

(** The edges of a taxonomy with a last position and no middle one. *)
Lemma evolution_edges_no_middle evos_list firsts lasts :
  valid_keys (combine_evos evos_list) →
  combine_evos evos_list !! "first" = Some firsts →
  combine_evos evos_list !! "middle" = None →
  combine_evos evos_list !! "last" = Some lasts →
  evolution_edges evos_list =
    Ok (lasts ≫= λ l, firsts ≫= λ f, [(f, l)]).
Proof.
  intros Hvalid Hf Hm Hl. unfold evolution_edges.
  rewrite assert_positions_ok by assumption. simpl.
  rewrite bool_decide_eq_false_2 by (rewrite Hm; by intros [? ?]).
  rewrite bool_decide_eq_true_2 by (rewrite Hl; eauto).
  unfold getitem. rewrite Hl. simpl.
  apply for__ok. intros l _. rewrite Hf. simpl. by apply for__ok.
Qed.

Lemma evolution_edges_first_only evos_list :
  valid_keys (combine_evos evos_list) →
  combine_evos evos_list !! "middle" = None →
  combine_evos evos_list !! "last" = None →
  evolution_edges evos_list = Ok [].
Proof.
  intros Hvalid Hm Hl. unfold evolution_edges.
  rewrite assert_positions_ok by assumption. simpl.
  rewrite bool_decide_eq_false_2 by (rewrite Hm; by intros [? ?]).
  rewrite bool_decide_eq_false_2 by (rewrite Hl; by intros [? ?]).
  reflexivity.
Qed.

(** The normalizer past its assertion, by the positions present. *)
Lemma evolution_edges_eq evos_list :
  let evos := combine_evos evos_list in
  valid_keys evos →
  evolution_edges evos_list =
    match evos !! "middle" with
    | Some mids =>
        v1 ← for_ mids (λ mid_evo,
               firsts ← getitem evos "first";
               for_ firsts (λ first_evo, Ok [(first_evo, mid_evo)]));
        v2 ← (lasts ← getitem evos "last";
              for_ lasts (λ last_evo,
                for_ mids (λ mid_evo, Ok [(mid_evo, last_evo)])));
        mret (v1 ++ v2)
    | None =>
        match evos !! "last" with
        | Some lasts =>
            for_ lasts (λ last_evo,
              firsts ← getitem evos "first";
              for_ firsts (λ first_evo, Ok [(first_evo, last_evo)]))
        | None => Ok []
        end
    end.
Proof.
  intros evos Hvalid. unfold evolution_edges. fold evos.
  rewrite assert_positions_ok by assumption. simpl.
  destruct (evos !! "middle") as [mids|] eqn:Hmid.
  - assert (getitem evos "middle" = Ok mids) as Hget
      by (unfold getitem; by rewrite Hmid).
    rewrite bool_decide_eq_true_2 by eauto. rewrite !Hget. reflexivity.
  - rewrite bool_decide_eq_false_2 by (by intros [? ?]).
    destruct (evos !! "last") as [lasts|] eqn:Hlast.
    + assert (getitem evos "last" = Ok lasts) as Hget
        by (unfold getitem; by rewrite Hlast).
      rewrite bool_decide_eq_true_2 by eauto. rewrite Hget. reflexivity.
    + rewrite bool_decide_eq_false_2 by (by intros [? ?]). reflexivity.
Qed.

Lemma for__nil_body {A B} (xs : list A) :
  for_ xs (λ _, Ok ([] : list B)) = Ok [].
Proof. induction xs as [|x xs IH]; simpl; [reflexivity|]. by rewrite IH. Qed.

(** The taxonomies on which the normalizer returns at least one edge: the
    first and last positions are present. *)
Lemma evolution_edges_inv evos_list edges :
  evolution_edges evos_list = Ok edges → edges ≠ [] →
  let evos := combine_evos evos_list in
  ∃ firsts lasts,
    evos !! "first" = Some firsts ∧ evos !! "last" = Some lasts ∧
    valid_keys evos ∧
    match evos !! "middle" with
    | Some mids => edges = (mids ≫= λ m, firsts ≫= λ f, [(f, m)]) ++
                           (lasts ≫= λ l, mids ≫= λ m, [(m, l)])
    | None => edges = (lasts ≫= λ l, firsts ≫= λ f, [(f, l)])
    end.
Proof.
  intros Hrun Hne evos.
  destruct (assert_positions_cases evos) as [[Hvalid _]|[_ Hfail]].
  2:{ unfold evolution_edges in Hrun. fold evos in Hrun. rewrite Hfail in Hrun.
      discriminate. }
  destruct (evos !! "first") as [firsts|] eqn:Hfirst,
           (evos !! "middle") as [mids|] eqn:Hmid,
           (evos !! "last") as [lasts|] eqn:Hlast.
  - exists firsts, lasts. repeat (split; [done|]).
    rewrite (evolution_edges_middle evos_list firsts mids lasts) in Hrun by done.
    congruence.
  - exfalso. rewrite evolution_edges_eq in Hrun by done. fold evos in Hrun.
    rewrite Hmid in Hrun. unfold getitem in Hrun. rewrite Hlast in Hrun.
    simpl in Hrun. by destruct (for_ mids _).
  - exists firsts, lasts. repeat (split; [done|]).
    rewrite (evolution_edges_no_middle evos_list firsts lasts) in Hrun by done.
    congruence.
  - exfalso. rewrite evolution_edges_first_only in Hrun by done. congruence.
  - exfalso. rewrite evolution_edges_eq in Hrun by done. fold evos in Hrun.
    rewrite Hmid in Hrun. unfold getitem in Hrun. rewrite Hfirst, Hlast in Hrun.
    destruct mids as [|m mids]; simpl in Hrun; [|discriminate].
    rewrite for__nil_body in Hrun. injection Hrun as <-. done.
  - exfalso. rewrite evolution_edges_eq in Hrun by done. fold evos in Hrun.
    rewrite Hmid in Hrun. unfold getitem in Hrun. rewrite Hlast in Hrun.
    simpl in Hrun. by destruct (for_ mids _).
  - exfalso. rewrite evolution_edges_eq in Hrun by done. fold evos in Hrun.
    rewrite Hmid, Hlast in Hrun. unfold getitem in Hrun. rewrite Hfirst in Hrun.
    destruct lasts as [|l lasts]; simpl in Hrun; [|discriminate].
    injection Hrun as <-. done.
  - exfalso. rewrite evolution_edges_first_only in Hrun by done. congruence.
Qed.

(** C1. On a taxonomy whose first position is present, the normalizer
    returns exactly the chained cross products: with a last position and no
    middle one, the pairs of a first and a last name; with a middle
    position, the pairs of a first and a middle name together with the pairs
    of a middle and a last name, and nothing else (so a first-to-last pair
    only when it is one of these); with the first position alone, no edge.
    The three worked examples of the specification are instances. *)
Theorem evolution_edges_cross_product :
  (∀ (evos_list : lineage) (firsts : list string),
     valid_keys (combine_evos evos_list) →
     combine_evos evos_list !! "first" = Some firsts →
     (∀ lasts,
        combine_evos evos_list !! "middle" = None →
        combine_evos evos_list !! "last" = Some lasts →
        ∃ edges, evolution_edges evos_list = Ok edges ∧
                 ∀ a b, (a, b) ∈ edges ↔ a ∈ firsts ∧ b ∈ lasts) ∧
     (∀ mids lasts,
        combine_evos evos_list !! "middle" = Some mids →
        combine_evos evos_list !! "last" = Some lasts →
        ∃ edges, evolution_edges evos_list = Ok edges ∧
                 ∀ a b, (a, b) ∈ edges ↔
                        (a ∈ firsts ∧ b ∈ mids) ∨ (a ∈ mids ∧ b ∈ lasts)) ∧
     (combine_evos evos_list !! "middle" = None →
      combine_evos evos_list !! "last" = None →
      evolution_edges evos_list = Ok [])) ∧
  (∀ A B : string,
     evolution_edges [{["first" := [A]]}; {["last" := [B]]}] = Ok [(A, B)]) ∧
  (∀ A B C D : string,
     evolution_edges
       [{["first" := [A]]}; {["middle" := [B; C]]}; {["last" := [D]]}]
     = Ok [(A, B); (A, C); (B, D); (C, D)]) ∧
  (∀ A B : string, evolution_edges [{["first" := [A; B]]}] = Ok []).
Proof.
  split; [|repeat split; intros; vm_compute; reflexivity].
  intros evos_list firsts Hvalid Hfirst. repeat split.
  - intros lasts Hmid Hlast. eexists. split.
    + by apply evolution_edges_no_middle.
    + intros a b. rewrite elem_of_cross_product. split.
      * intros (x & y & [= -> ->] & Hx & Hy). auto.
      * intros [Ha Hb]. eauto.
  - intros mids lasts Hmid Hlast. eexists. split.
    + by apply evolution_edges_middle.
    + intros a b. rewrite elem_of_app, !elem_of_cross_product. split.
      * intros [(x & y & [= -> ->] & Hx & Hy)|(x & y & [= -> ->] & Hx & Hy)]; auto.
      * intros [[Ha Hb]|[Ha Hb]]; [left|right]; eauto.
  - intros Hmid Hlast. by apply evolution_edges_first_only.
Qed.

(** The line of Poliwag, with a middle position and two last names. *)
Lemma evolution_edges_cross_product_witness :
  ∃ edges,
    evolution_edges
      [{["first" := ["Poliwag"]]}; {["middle" := ["Poliwhirl"]]};
       {["last" := ["Poliwrath"; "Politoed"]]}] = Ok edges ∧
    ∀ a b, (a, b) ∈ edges ↔
           (a ∈ ["Poliwag"] ∧ b ∈ ["Poliwhirl"]) ∨
           (a ∈ ["Poliwhirl"] ∧ b ∈ ["Poliwrath"; "Politoed"]).
Proof.
  refine (proj1 (proj2 (proj1 evolution_edges_cross_product
    [{["first" := ["Poliwag"]]}; {["middle" := ["Poliwhirl"]]};
     {["last" := ["Poliwrath"; "Politoed"]]}] ["Poliwag"] _ _)) _ _ _ _).
  - apply valid_keys_check. vm_compute. reflexivity.
  - vm_compute. reflexivity.
  - vm_compute. reflexivity.
  - vm_compute. reflexivity.
Defined.

(** ** The cursor *)

Lemma table_append_row d t r t' :
  table (append_row d t r) t' =
    if decide (t = t') then table d t' ++ [r] else table d t'.
Proof. destruct t, t'; reflexivity. Qed.

Lemma table_append_row_eq d t r : table (append_row d t r) t = table d t ++ [r].
Proof. rewrite table_append_row. by rewrite decide_True. Qed.

Lemma table_append_row_ne d t r t' :
  t ≠ t' → table (append_row d t r) t' = table d t'.
Proof. intros. rewrite table_append_row. by rewrite decide_False. Qed.

(** The three outcomes of an INSERT. *)
Lemma execute_insert_cases t values cur :
  (∃ e, bind_params values = Err e ∧ execute_insert t values cur = (Err e, cur)) ∨
  (∃ r, bind_params values = Ok r ∧
        (null_violation t r || key_violation t (table (db cur) t) r) = true ∧
        execute_insert t values cur =
          (Err IntegrityError,
           {| db := db cur; log := log cur ++ [INSERT t r]; pending := [];
              committed := committed cur |})) ∨
  (∃ r, bind_params values = Ok r ∧
        null_violation t r = false ∧
        key_violation t (table (db cur) t) r = false ∧
        execute_insert t values cur =
          (Ok tt,
           {| db := append_row (db cur) t r; log := log cur ++ [INSERT t r];
              pending := []; committed := committed cur |})).
Proof.
  unfold execute_insert. destruct (bind_params values) as [r|e]; [|left; eauto].
  right. destruct (null_violation t r) eqn:Hnull; simpl.
  - left. exists r. by rewrite Hnull.
  - destruct (key_violation t (table (db cur) t) r) eqn:Hkey.
    + left. exists r. rewrite Hnull. auto.
    + right. exists r. auto.
Qed.

(** A pair determined by its run. *)
Lemma io_run_eq {S A} (m : io S A) (s : S) : m s = ((m s).1, (m s).2).
Proof. by destruct (m s). Qed.

Section Steps.
Context (R : cursor → cursor → Prop).
Context `{!Reflexive R, !Transitive R}.

Lemma steps_ret {A} (a : A) : steps R (mret a).
Proof. intros cur. simpl. reflexivity. Qed.

Lemma steps_lift {A} (r : result A) : steps R (lift r).
Proof. intros cur. simpl. reflexivity. Qed.

Lemma steps_bind {A B} (m : io cursor A) (f : A → io cursor B) :
  steps R m → (∀ a, steps R (f a)) → steps R (m ≫= f).
Proof.
  intros Hm Hf cur. unfold mbind, io_bind. specialize (Hm cur).
  destruct (m cur) as [[a|e] cur']; simpl in *; [|assumption].
  etransitivity; [eassumption|]. apply Hf.
Qed.

Lemma steps_for_io {A} (xs : list A) (body : A → io cursor unit) :
  (∀ x, steps R (body x)) → steps R (for_io xs body).
Proof.
  intros Hbody. induction xs as [|x xs IH]; simpl.
  - apply steps_ret.
  - apply steps_bind; [apply Hbody|]. intros _. apply IH.
Qed.

Lemma steps_if {A} (b : bool) (m1 m2 : io cursor A) :
  steps R m1 → steps R m2 → steps R (if b then m1 else m2).
Proof. by destruct b. Qed.

End Steps.

#[global] Instance grows_refl : Reflexive grows.
Proof. intros c t. reflexivity. Qed.
#[global] Instance grows_trans : Transitive grows.
Proof. intros c1 c2 c3 H12 H23 t. etransitivity; [apply H12|apply H23]. Qed.

#[global] Instance touches_only_refl t : Reflexive (touches_only t).
Proof. intros c t' _. reflexivity. Qed.
#[global] Instance touches_only_trans t : Transitive (touches_only t).
Proof.
  intros c1 c2 c3 H12 H23 t' Ht'. rewrite H23, H12 by assumption. reflexivity.
Qed.

#[global] Instance logs_refl P : Reflexive (logs P).
Proof. intros c. exists []. by rewrite app_nil_r. Qed.
#[global] Instance logs_trans P : Transitive (logs P).
Proof.
  intros c1 c2 c3 (a1 & H1 & HP1) (a2 & H2 & HP2). exists (a1 ++ a2).
  rewrite H2, H1, (assoc_L (++)). split; [reflexivity|]. by apply Forall_app.
Qed.

#[global] Instance distinct_edges_refl : Reflexive distinct_edges.
Proof. intros c H. exact H. Qed.
#[global] Instance distinct_edges_trans : Transitive distinct_edges.
Proof. intros c1 c2 c3 H12 H23 H. auto. Qed.

(** A row accepted by the primary key of a table differs from its rows. *)
Lemma key_violation_false_not_elem t rows r :
  key_violation t rows r = false → r ∉ rows.
Proof.
  unfold key_violation. intros Hkey Hin.
  assert (existsb (λ r', bool_decide (key_of t r' = key_of t r)) rows = true) as Htrue.
  { apply existsb_exists. exists r. split; [by apply list_elem_of_In|].
    by apply bool_decide_eq_true_2. }
  congruence.
Qed.

(** *** SELECT and fetchall *)

Lemma execute_select_cases t columns args cur :
  (∃ e, bind_params args = Err e ∧ execute_select t columns args cur = (Err e, cur)) ∨
  (∃ vs rows, bind_params args = Ok vs ∧
     execute_select t columns args cur =
       (Ok tt, {| db := db cur; log := log cur ++ [SELECT t vs]; pending := rows;
                  committed := committed cur |})).
Proof.
  unfold execute_select. destruct (bind_params args) as [vs|e]; [right|left]; eauto.
Qed.

Lemma steps_select_db (R : cursor → cursor → Prop) t columns args :
  (∀ c c', db c' = db c → R c c') → steps R (execute_select t columns args).
Proof.
  intros HR cur.
  destruct (execute_select_cases t columns args cur)
    as [(e & _ & ->)|(vs & rows & _ & ->)]; simpl; by apply HR.
Qed.

Lemma steps_fetchall_db (R : cursor → cursor → Prop) :
  (∀ c c', db c' = db c → R c c') → steps R fetchall.
Proof. intros HR cur. by apply HR. Qed.

Lemma steps_commit_db (R : cursor → cursor → Prop) :
  (∀ c c', db c' = db c → R c c') → steps R commit.
Proof. intros HR cur. by apply HR. Qed.

Lemma grows_same_db c c' : db c' = db c → grows c c'.
Proof. intros H t. by rewrite H. Qed.

Lemma touches_only_same_db t c c' : db c' = db c → touches_only t c c'.
Proof. intros H t' _. by rewrite H. Qed.

Lemma distinct_edges_same_db c c' : db c' = db c → distinct_edges c c'.
Proof. intros H. unfold distinct_edges. by rewrite H. Qed.

Lemma logs_select (P : stmt → Prop) t columns args :
  (∀ vs, P (SELECT t vs)) → steps (logs P) (execute_select t columns args).
Proof.
  intros HP cur.
  destruct (execute_select_cases t columns args cur)
    as [(e & _ & ->)|(vs & rows & _ & ->)]; simpl; [reflexivity|].
  exists [SELECT t vs]. split; [reflexivity|]. by apply Forall_singleton.
Qed.

Lemma logs_fetchall (P : stmt → Prop) : steps (logs P) fetchall.
Proof. intros cur. exists []. simpl. by rewrite app_nil_r. Qed.

Lemma logs_commit (P : stmt → Prop) : steps (logs P) commit.
Proof. intros cur. exists []. simpl. by rewrite app_nil_r. Qed.

(** *** INSERT *)

Lemma grows_insert t values : steps grows (execute_insert t values).
Proof.
  intros cur.
  destruct (execute_insert_cases t values cur)
    as [(e & _ & ->)|[(r & _ & _ & ->)|(r & _ & _ & _ & ->)]]; simpl;
    try by apply grows_same_db.
  intros t'. simpl. rewrite table_append_row. case_decide; [|reflexivity].
  by apply prefix_app_r.
Qed.

Lemma touches_only_insert t values : steps (touches_only t) (execute_insert t values).
Proof.
  intros cur.
  destruct (execute_insert_cases t values cur)
    as [(e & _ & ->)|[(r & _ & _ & ->)|(r & _ & _ & _ & ->)]]; simpl;
    try by apply touches_only_same_db.
  intros t' Ht'. simpl. by rewrite table_append_row_ne.
Qed.

Lemma distinct_edges_insert t values : steps distinct_edges (execute_insert t values).
Proof.
  intros cur.
  destruct (execute_insert_cases t values cur)
    as [(e & _ & ->)|[(r & _ & _ & ->)|(r & _ & _ & Hkey & ->)]]; simpl;
    try by apply distinct_edges_same_db.
  unfold distinct_edges. simpl. change (t_evolutions ?d) with (table d Tevolutions).
  rewrite table_append_row. case_decide as Ht; [subst t|done].
  intros Hnodup. apply NoDup_app. split; [assumption|]. split.
  - intros x Hx Hx'. apply list_elem_of_singleton in Hx' as ->.
    by apply key_violation_false_not_elem in Hkey.
  - apply NoDup_singleton.
Qed.

Lemma logs_insert (P : stmt → Prop) t values :
  (∀ r, P (INSERT t r)) → steps (logs P) (execute_insert t values).
Proof.
  intros HP cur.
  destruct (execute_insert_cases t values cur)
    as [(e & _ & ->)|[(r & _ & _ & ->)|(r & _ & _ & _ & ->)]]; simpl;
    [reflexivity| |];
    (exists [INSERT t r]; split; [reflexivity|]; by apply Forall_singleton).
Qed.

(** ** The loader, step by step *)

Ltac steps_with prim :=
  cbv zeta;
  repeat first
    [ progress intros
    | apply steps_lift; try exact _
    | apply steps_ret; try exact _
    | apply steps_bind; try exact _
    | apply steps_for_io; try exact _
    | apply steps_if
    | prim ].

Ltac unfold_loader :=
  unfold fill_sqlite_db, insert_pokemon, insert_pokemon_table,
    insert_formes_table, insert_form_descriptions_table,
    insert_formes_table_body, insert_form_descriptions_table_body,
    insert_abilities_table, insert_form_abilities_table,
    insert_evolutions_table, executemany_insert.

Ltac grows_prim :=
  first [ apply grows_insert
        | apply steps_select_db, grows_same_db
        | apply steps_fetchall_db, grows_same_db
        | apply steps_commit_db, grows_same_db ].

Ltac distinct_prim :=
  first [ apply distinct_edges_insert
        | apply steps_select_db, distinct_edges_same_db
        | apply steps_fetchall_db, distinct_edges_same_db
        | apply steps_commit_db, distinct_edges_same_db ].

Lemma grows_insert_pokemon pkmn : steps grows (insert_pokemon pkmn).
Proof. unfold_loader. steps_with grows_prim. Qed.

Lemma grows_fill_sqlite_db ability_coll pkmn_coll :
  steps grows (fill_sqlite_db ability_coll pkmn_coll).
Proof. unfold_loader. steps_with grows_prim. Qed.

Lemma distinct_edges_insert_pokemon pkmn : steps distinct_edges (insert_pokemon pkmn).
Proof. unfold_loader. steps_with distinct_prim. Qed.

Lemma distinct_edges_fill_sqlite_db ability_coll pkmn_coll :
  steps distinct_edges (fill_sqlite_db ability_coll pkmn_coll).
Proof. unfold_loader. steps_with distinct_prim. Qed.

(** The statements of the ability pass address the abilities table, those
    of the pokemon pass the other tables. *)
Ltac logs_prim :=
  first [ apply logs_insert; intros; simpl; congruence
        | apply logs_select; intros; simpl; congruence
        | apply logs_fetchall
        | apply logs_commit ].

Lemma logs_insert_abilities_table ability_ :
  steps (logs (λ s, stmt_table s = Tabilities)) (insert_abilities_table ability_).
Proof. unfold_loader. steps_with logs_prim. Qed.


(** ** The ability pass *)

(** The SELECT of [insert_abilities_table] never reaches the database: its
    parameter is a dictionary, which sqlite3 cannot bind. *)
Lemma insert_abilities_table_raises ability_ cur :
  insert_abilities_table ability_ cur = (Err InterfaceError, cur).
Proof. reflexivity. Qed.

(** C3. With at least one ability document in the store, the loader raises
    on the first of them, before any statement is executed: no ability row
    is stored, and no later record is processed. The specification
    expects the first occurrence of each name to be stored and the later
    ones to be skipped without error. *)
Theorem fill_sqlite_db_raises_on_first_ability
    (ability_ : ability_doc) (others : list ability_doc)
    (pkmn_coll : list pokemon_doc) (cur : cursor) :
  fill_sqlite_db (ability_ :: others) pkmn_coll cur = (Err InterfaceError, cur).
Proof. reflexivity. Qed.

(** One ability document in the store, on the database just created. *)
Example overgrow_not_loaded :
  fill_sqlite_db [overgrow] [bulbasaur; ivysaur] fresh_cursor
    = (Err InterfaceError, fresh_cursor).
Proof. reflexivity. Qed.

(** ** The evolutions table *)

Lemma sql_eq_text x s : sql_eq x (SText s) = true ↔ x = SText s.
Proof.
  destruct x as [|z|s']; simpl; try (split; [discriminate|congruence]).
  rewrite bool_decide_eq_true. reflexivity.
Qed.

(** The WHERE clause of [insert_evolutions_table] selects the rows that
    reference the pokemon. *)
Lemma where_pokemon_or_evolves_to (r : row) (pokemon : string) :
  existsb (λ '(c, v), from_option (λ x, sql_eq x v) false (r !! c))
          (zip [0; 1]%nat [SText pokemon; SText pokemon]) = true ↔
  r !! 0%nat = Some (SText pokemon) ∨ r !! 1%nat = Some (SText pokemon).
Proof.
  assert (∀ o : option sqlval,
            from_option (λ x, sql_eq x (SText pokemon)) false o = true ↔
            o = Some (SText pokemon)) as Hcol.
  { intros [x|]; simpl; [rewrite sql_eq_text; split; congruence|split; discriminate]. }
  simpl. rewrite orb_false_r, orb_true_iff, !Hcol. reflexivity.
Qed.

Lemma selected_nil_iff (rows : list row) (pokemon : string) :
  filter (λ r, Is_true
            (existsb (λ '(c, v), from_option (λ x, sql_eq x v) false (r !! c))
                     (zip [0; 1]%nat [SText pokemon; SText pokemon]))) rows = [] ↔
  ¬ references rows pokemon.
Proof.
  split.
  - intros Hnil (r & Hin & Href).
    eapply filter_nil_not_elem_of; [exact Hnil| |exact Hin].
    apply Is_true_true. by apply where_pokemon_or_evolves_to.
  - intros Hnone. apply elem_of_nil_inv. intros r Hr.
    apply list_elem_of_filter in Hr as [Hr Hin]. apply Hnone. exists r.
    split; [assumption|]. apply where_pokemon_or_evolves_to. by apply Is_true_true.
Qed.

Lemma insert_evolutions_table_referenced pkmn cur :
  references (t_evolutions (db cur)) (name pkmn) →
  insert_evolutions_table pkmn cur = (Ok tt, after_select pkmn cur).
Proof.
  intros Href. unfold insert_evolutions_table, mbind, io_bind. simpl.
  destruct (filter _ (t_evolutions (db cur))) as [|r rows] eqn:Hsel; [|reflexivity].
  apply selected_nil_iff in Hsel. contradiction.
Qed.

Lemma insert_evolutions_table_unreferenced pkmn cur :
  ¬ references (t_evolutions (db cur)) (name pkmn) →
  insert_evolutions_table pkmn cur =
    match evolution_edges (evolutions pkmn) with
    | Ok values =>
        executemany_insert Tevolutions ((λ '(a, b), [PText a; PText b]) <$> values)
          (after_select pkmn cur)
    | Err e => (Err e, after_select pkmn cur)
    end.
Proof.
  intros Href. apply selected_nil_iff in Href.
  unfold insert_evolutions_table, mbind at 1 2, io_bind.
  cbn [execute_select bind_params bind_param mbind mret result_bind result_ret fetchall
       pending db log table].
  rewrite Href. cbn [List.length Nat.eqb].
  unfold mbind, io_bind, lift.
  destruct (evolution_edges (evolutions pkmn)); reflexivity.
Qed.

(** Rows that [executemany] stores one after the other. *)
Lemma executemany_insert_ok t (values : list (list param)) (rows : list row) cur cur' :
  Forall2 (λ vs r, bind_params vs = Ok r) values rows →
  executemany_insert t values cur = (Ok tt, cur') →
  table (db cur') t = table (db cur) t ++ rows ∧
  (∀ t', t' ≠ t → table (db cur') t' = table (db cur) t') ∧
  NoDup rows ∧ (∀ r, r ∈ rows → r ∉ table (db cur) t).
Proof.
  unfold executemany_insert. intros Hbind. revert cur.
  induction Hbind as [|vs r values rows Hvs Hbind IH]; intros cur Hrun.
  - injection Hrun as <-. rewrite app_nil_r. repeat split; auto using NoDup_nil_2.
    intros r Hr. by apply elem_of_nil in Hr.
  - simpl in Hrun. unfold mbind, io_bind in Hrun.
    destruct (execute_insert_cases t vs cur)
      as [(e & _ & Heq)|[(r' & _ & _ & Heq)|(r' & Hr' & _ & Hkey & Heq)]];
      rewrite Heq in Hrun; try discriminate.
    assert (r' = r) as -> by congruence.
    apply IH in Hrun as (Htable & Hother & Hnodup & Hfresh). simpl in *.
    rewrite table_append_row_eq in Htable, Hfresh.
    split; [by rewrite Htable, <- (assoc_L (++))|]. split.
    { intros t' Ht'. rewrite Hother by assumption. by apply table_append_row_ne. }
    split.
    { apply NoDup_cons. split; [|assumption]. intros Hin.
      apply (Hfresh r Hin). apply elem_of_app. right. by left. }
    intros x Hx. apply elem_of_cons in Hx as [->|Hx].
    + by apply key_violation_false_not_elem in Hkey.
    + intros Hin. apply (Hfresh x Hx). apply elem_of_app. by left.
Qed.

Lemma bind_edges (edges : list (string * string)) :
  Forall2 (λ vs r, bind_params vs = Ok r)
          ((λ '(a, b), [PText a; PText b]) <$> edges) (edge_row <$> edges).
Proof.
  induction edges as [|[a b] edges IH]; [constructor|].
  rewrite !fmap_cons. constructor; [reflexivity|assumption].
Qed.

Lemma references_edge_row (edges : list (string * string)) a b pokemon :
  (a, b) ∈ edges → a = pokemon ∨ b = pokemon →
  references (edge_row <$> edges) pokemon.
Proof.
  intros Hin Hab. exists (edge_row (a, b)). split.
  - by apply list_elem_of_fmap_2.
  - destruct Hab as [<-|<-]; [left|right]; reflexivity.
Qed.

(** Once the edges of a taxonomy are stored, every pokemon of the taxonomy
    is referenced by one of them. *)
Lemma member_referenced evos_list edges pokemon :
  evolution_edges evos_list = Ok edges → edges ≠ [] →
  member pokemon (combine_evos evos_list) →
  references (edge_row <$> edges) pokemon.
Proof.
  intros Hrun Hne (key & names & Hkey & Hin).
  destruct (evolution_edges_inv _ _ Hrun Hne)
    as (firsts & lasts & Hfirst & Hlast & Hvalid & Hedges).
  assert (∃ a b, (a, b) ∈ edges) as (a & b & Hab).
  { destruct edges as [|[a b] ?]; [done|]. exists a, b. by left. }
  assert (key ∈ positions) as Hpos by (apply Hvalid; eauto).
  unfold positions in Hpos. rewrite !elem_of_cons, elem_of_nil in Hpos.
  destruct (combine_evos evos_list !! "middle") as [mids|] eqn:Hmid.
  - assert (∀ x y, (x, y) ∈ edges ↔
              (x ∈ firsts ∧ y ∈ mids) ∨ (x ∈ mids ∧ y ∈ lasts)) as Hiff.
    { intros x y. subst edges. rewrite elem_of_app, !elem_of_cross_product.
      split.
      - intros [(? & ? & [= -> ->] & ? & ?)|(? & ? & [= -> ->] & ? & ?)]; auto.
      - intros [[? ?]|[? ?]]; [left|right]; eauto. }
    apply Hiff in Hab.
    destruct Hpos as [->|[->|[->|[]]]].
    + assert (names = firsts) as -> by congruence.
      destruct Hab as [[_ Hb]|[Ha _]].
      * apply (references_edge_row _ pokemon b); [apply Hiff|]; auto.
      * apply (references_edge_row _ pokemon a); [apply Hiff|]; auto.
    + assert (names = mids) as -> by congruence.
      destruct Hab as [[Ha _]|[_ Hb]].
      * apply (references_edge_row _ a pokemon); [apply Hiff|]; auto.
      * apply (references_edge_row _ pokemon b); [apply Hiff|]; auto.
    + assert (names = lasts) as -> by congruence.
      destruct Hab as [[_ Hb]|[Ha _]].
      * apply (references_edge_row _ b pokemon); [apply Hiff|]; auto.
      * apply (references_edge_row _ a pokemon); [apply Hiff|]; auto.
  - assert (∀ x y, (x, y) ∈ edges ↔ x ∈ firsts ∧ y ∈ lasts) as Hiff.
    { intros x y. subst edges. rewrite elem_of_cross_product. split.
      - intros (? & ? & [= -> ->] & ? & ?); auto.
      - intros [? ?]; eauto. }
    apply Hiff in Hab as [Ha Hb].
    destruct Hpos as [->|[->|[->|[]]]].
    + assert (names = firsts) as -> by congruence.
      apply (references_edge_row _ pokemon b); [apply Hiff|]; auto.
    + congruence.
    + assert (names = lasts) as -> by congruence.
      apply (references_edge_row _ a pokemon); [apply Hiff|]; auto.
Qed.

Lemma references_cases rows pokemon :
  references rows pokemon ∨ ¬ references rows pokemon.
Proof.
  destruct (filter (λ r, Is_true
              (existsb (λ '(c, v), from_option (λ x, sql_eq x v) false (r !! c))
                       (zip [0; 1]%nat [SText pokemon; SText pokemon]))) rows)
    as [|r sel] eqn:Hsel.
  - right. by apply selected_nil_iff.
  - left. assert (r ∈ r :: sel) as Hr by left. rewrite <- Hsel in Hr.
    apply list_elem_of_filter in Hr as [Hr Hin]. exists r. split; [assumption|].
    apply where_pokemon_or_evolves_to. by apply Is_true_true.
Qed.

Lemma references_mono rows rows' pokemon :
  rows ⊆ rows' → references rows pokemon → references rows' pokemon.
Proof. intros Hsub (r & Hin & Href). exists r. split; [by apply Hsub|assumption]. Qed.

(** The second insertion of a lineage, from any later state. *)
Lemma second_insertion_no_op pkmn1 pkmn2 cur later :
  evolutions pkmn2 = evolutions pkmn1 →
  member (name pkmn2) (combine_evos (evolutions pkmn2)) →
  ¬ references (t_evolutions (db cur)) (name pkmn1) →
  (insert_evolutions_table pkmn1 cur).1 = Ok tt →
  grows (insert_evolutions_table pkmn1 cur).2 later →
  ∃ edges,
    evolution_edges (evolutions pkmn1) = Ok edges ∧
    t_evolutions (db (insert_evolutions_table pkmn1 cur).2) =
      t_evolutions (db cur) ++ (edge_row <$> edges) ∧
    NoDup (edge_row <$> edges) ∧
    (insert_evolutions_table pkmn2 later).1 = Ok tt ∧
    db (insert_evolutions_table pkmn2 later).2 = db later.
Proof.
  intros Hsame Hmember Hfresh Hok Hlater.
  rewrite insert_evolutions_table_unreferenced in Hok, Hlater |- * by assumption.
  destruct (evolution_edges (evolutions pkmn1)) as [edges|e] eqn:Hedges;
    [|discriminate].
  exists edges. split; [reflexivity|].
  pose proof (io_run_eq
    (executemany_insert Tevolutions ((λ '(a, b), [PText a; PText b]) <$> edges))
    (after_select pkmn1 cur)) as Hrun.
  rewrite Hok in Hrun.
  apply (executemany_insert_ok _ _ _ _ _ (bind_edges edges)) in Hrun
    as (Htable & _ & Hnodup & _).
  simpl in Htable. split; [exact Htable|]. split; [exact Hnodup|].
  destruct (references_cases (t_evolutions (db later)) (name pkmn2))
    as [Href|Hnot].
  - rewrite insert_evolutions_table_referenced by assumption. done.
  - rewrite insert_evolutions_table_unreferenced by assumption.
    rewrite Hsame, Hedges.
    destruct edges as [|edge edges]; [done|].
    exfalso. apply Hnot.
    apply (references_mono (edge_row <$> edge :: edges)).
    + intros r Hr. destruct (Hlater Tevolutions) as [more Hmore].
      cbn [table] in Hmore. rewrite Hmore, Htable.
      rewrite !elem_of_app. auto.
    + apply (member_referenced (evolutions pkmn1)); [assumption|done|].
      by rewrite <- Hsame.
Qed.

#[global] Instance keeps_evolutions_refl : Reflexive keeps_evolutions.
Proof. intros c. reflexivity. Qed.
#[global] Instance keeps_evolutions_trans : Transitive keeps_evolutions.
Proof. intros c1 c2 c3 H12 H23. unfold keeps_evolutions in *. congruence. Qed.

Lemma keeps_evolutions_insert t values :
  t ≠ Tevolutions → steps keeps_evolutions (execute_insert t values).
Proof.
  intros Ht cur. apply (touches_only_insert t values cur Tevolutions). congruence.
Qed.

Lemma keeps_evolutions_insert_pokemon_rows pkmn :
  steps keeps_evolutions (insert_pokemon_rows pkmn).
Proof.
  unfold insert_pokemon_rows. unfold_loader.
  steps_with ltac:(apply keeps_evolutions_insert; discriminate).
Qed.

Lemma grows_insert_pokemon_rows pkmn : steps grows (insert_pokemon_rows pkmn).
Proof. unfold insert_pokemon_rows. unfold_loader. steps_with grows_prim. Qed.

Lemma insert_pokemon_split pkmn cur :
  insert_pokemon pkmn cur =
    match insert_pokemon_rows pkmn cur with
    | (Ok _, cur') => insert_evolutions_table pkmn cur'
    | (Err e, cur') => (Err e, cur')
    end.
Proof.
  unfold insert_pokemon, insert_pokemon_rows, mbind, io_bind.
  destruct (insert_pokemon_table pkmn cur) as [[[]|?] c1]; [|reflexivity].
  destruct (insert_formes_table pkmn c1) as [[[]|?] c2]; [|reflexivity].
  destruct (insert_form_descriptions_table pkmn c2) as [[[]|?] c3]; [|reflexivity].
  destruct (insert_form_abilities_table pkmn c3) as [[[]|?] c4]; reflexivity.
Qed.

(** The same lineage loaded from two pokemon of a run: the second load
    leaves the evolutions table as it finds it. *)
Lemma lineage_loaded_twice pkmn1 between pkmn2 cur cur1 :
  evolutions pkmn2 = evolutions pkmn1 →
  member (name pkmn2) (combine_evos (evolutions pkmn2)) →
  ¬ references (t_evolutions (db cur)) (name pkmn1) →
  insert_pokemon pkmn1 cur = (Ok tt, cur1) →
  ∃ edges,
    evolution_edges (evolutions pkmn1) = Ok edges ∧
    t_evolutions (db cur1) = t_evolutions (db cur) ++ (edge_row <$> edges) ∧
    NoDup (edge_row <$> edges) ∧
    t_evolutions (db (insert_pokemon pkmn2
                        (for_io between insert_pokemon cur1).2).2) =
      t_evolutions (db (for_io between insert_pokemon cur1).2).
Proof.
  intros Hsame Hmember Hfresh Hload. rewrite insert_pokemon_split in Hload.
  pose proof (keeps_evolutions_insert_pokemon_rows pkmn1 cur) as Hkeep1.
  destruct (insert_pokemon_rows pkmn1 cur) as [[[]|e] c1]; [|discriminate].
  unfold keeps_evolutions in Hkeep1. simpl in Hkeep1.
  rewrite <- Hkeep1 in Hfresh |- *.
  set (cur2 := (for_io between insert_pokemon cur1).2).
  assert (grows cur1 cur2) as Hgrows.
  { apply steps_for_io; [exact _..|]. apply grows_insert_pokemon. }
  assert (∀ later, grows cur1 later →
            ∃ edges,
              evolution_edges (evolutions pkmn1) = Ok edges ∧
              t_evolutions (db cur1) = t_evolutions (db c1) ++ (edge_row <$> edges) ∧
              NoDup (edge_row <$> edges) ∧
              db (insert_evolutions_table pkmn2 later).2 = db later) as Hsecond.
  { intros later Hlater.
    destruct (second_insertion_no_op pkmn1 pkmn2 c1 later)
      as (edges & Hedges & Htable & Hnodup & _ & Hdb); try done.
    - by rewrite Hload.
    - by rewrite Hload.
    - rewrite Hload in Htable. eauto. }
  rewrite insert_pokemon_split.
  pose proof (keeps_evolutions_insert_pokemon_rows pkmn2 cur2) as Hkeep2.
  pose proof (grows_insert_pokemon_rows pkmn2 cur2) as Hgrows2.
  destruct (insert_pokemon_rows pkmn2 cur2) as [[[]|e] c2];
    unfold keeps_evolutions in Hkeep2; simpl in Hkeep2, Hgrows2.
  - destruct (Hsecond c2) as (edges & Hedges & Htable & Hnodup & Hdb).
    { by etransitivity. }
    exists edges. repeat (split; [done|]). by rewrite Hdb.
  - destruct (Hsecond cur1) as (edges & Hedges & Htable & Hnodup & _); [done|].
    exists edges. repeat (split; [done|]). done.
Qed.

(** C2. (1) When some edge row references the pokemon, the insertion of its
    lineage executes its SELECT and nothing else: it returns and the
    database is unchanged. (2) Let the lineage be inserted from a first
    pokemon not yet referenced; from every later state of the loader, the
    insertion of the same lineage from any pokemon that occupies one of its
    positions returns and leaves the database unchanged, so the rows added
    for the lineage are those of the first insertion, each once. (3) In a
    run, after the load of such a first pokemon and of any pokemon in
    between, the load of a second pokemon of the lineage leaves the
    evolutions table as it finds it. (4) Under any sequence of pokemon
    loaded, the tables only grow, and the edge rows stay pairwise
    distinct. *)
Theorem lineage_inserted_once :
  (∀ pkmn cur,
     references (t_evolutions (db cur)) (name pkmn) →
     insert_evolutions_table pkmn cur = (Ok tt, after_select pkmn cur)) ∧
  (∀ pkmn1 pkmn2 cur later,
     evolutions pkmn2 = evolutions pkmn1 →
     member (name pkmn2) (combine_evos (evolutions pkmn2)) →
     ¬ references (t_evolutions (db cur)) (name pkmn1) →
     (insert_evolutions_table pkmn1 cur).1 = Ok tt →
     grows (insert_evolutions_table pkmn1 cur).2 later →
     ∃ edges,
       evolution_edges (evolutions pkmn1) = Ok edges ∧
       t_evolutions (db (insert_evolutions_table pkmn1 cur).2) =
         t_evolutions (db cur) ++ (edge_row <$> edges) ∧
       NoDup (edge_row <$> edges) ∧
       (insert_evolutions_table pkmn2 later).1 = Ok tt ∧
       db (insert_evolutions_table pkmn2 later).2 = db later) ∧
  (∀ pkmn1 between pkmn2 cur cur1,
     evolutions pkmn2 = evolutions pkmn1 →
     member (name pkmn2) (combine_evos (evolutions pkmn2)) →
     ¬ references (t_evolutions (db cur)) (name pkmn1) →
     insert_pokemon pkmn1 cur = (Ok tt, cur1) →
     ∃ edges,
       evolution_edges (evolutions pkmn1) = Ok edges ∧
       t_evolutions (db cur1) = t_evolutions (db cur) ++ (edge_row <$> edges) ∧
       NoDup (edge_row <$> edges) ∧
       t_evolutions (db (insert_pokemon pkmn2
                           (for_io between insert_pokemon cur1).2).2) =
         t_evolutions (db (for_io between insert_pokemon cur1).2)) ∧
  (∀ pkmn_coll cur,
     grows cur (for_io pkmn_coll insert_pokemon cur).2 ∧
     distinct_edges cur (for_io pkmn_coll insert_pokemon cur).2).
Proof.
  split; [exact insert_evolutions_table_referenced|].
  split; [exact second_insertion_no_op|].
  split; [exact lineage_loaded_twice|].
  intros pkmn_coll cur. split.
  - apply steps_for_io; [exact _..|]. apply grows_insert_pokemon.
  - apply steps_for_io; [exact _..|]. apply distinct_edges_insert_pokemon.
Qed.

(** Bulbasaur loaded into the database just created, then Ivysaur. *)
Lemma lineage_inserted_once_witness :
  ∃ edges,
    evolution_edges (evolutions bulbasaur) = Ok edges ∧
    t_evolutions (db (insert_pokemon bulbasaur fresh_cursor).2) =
      t_evolutions (db fresh_cursor) ++ (edge_row <$> edges) ∧
    NoDup (edge_row <$> edges) ∧
    t_evolutions (db (insert_pokemon ivysaur
                        (for_io [] insert_pokemon
                           (insert_pokemon bulbasaur fresh_cursor).2).2).2) =
      t_evolutions (db (for_io [] insert_pokemon
                          (insert_pokemon bulbasaur fresh_cursor).2).2).
Proof.
  apply (proj1 (proj2 (proj2 lineage_inserted_once)) bulbasaur [] ivysaur fresh_cursor).
  - reflexivity.
  - exists "middle", ["Ivysaur"]. split; [vm_compute; reflexivity|]. by left.
  - intros (r & Hin & _). simpl in Hin. by apply elem_of_nil in Hin.
  - vm_compute. reflexivity.
Defined.

(** ** Malformed taxonomies *)

(** A taxonomy with a middle position, without first position, on which the
    normalizer raises nothing: the middle position is empty, and the loop
    that would read the first position does not run. *)
Lemma headless_line_no_error :
  is_Some (combine_evos headless_line !! "middle") ∧
  combine_evos headless_line !! "first" = None ∧
  evolution_edges headless_line = Ok [] ∧
  ¬ (∃ e, evolution_edges headless_line = Err e).
Proof.
  split; [vm_compute; eauto|]. split; [vm_compute; reflexivity|].
  split; [vm_compute; reflexivity|].
  intros [e He]. vm_compute in He. discriminate.
Qed.

(** The insertion of a lineage on which the normalizer raises stores
    nothing. *)
Lemma insert_evolutions_table_raises pkmn cur e :
  evolution_edges (evolutions pkmn) = Err e →
  db (insert_evolutions_table pkmn cur).2 = db cur ∧
  (¬ references (t_evolutions (db cur)) (name pkmn) →
   (insert_evolutions_table pkmn cur).1 = Err e).
Proof.
  intros Hraise.
  destruct (references_cases (t_evolutions (db cur)) (name pkmn)) as [Href|Hnot].
  - rewrite insert_evolutions_table_referenced by assumption. done.
  - rewrite insert_evolutions_table_unreferenced, Hraise by assumption. done.
Qed.

Lemma first_layer_cases (evos : gmap string (list string)) (mids : list string) :
  let layer := for_ mids (λ mid_evo,
                 firsts ← getitem evos "first";
                 for_ firsts (λ first_evo, Ok [(first_evo, mid_evo)])) in
  (∃ v1, layer = Ok v1) ∨ layer = Err (KeyError "first").
Proof.
  simpl. unfold getitem. destruct (evos !! "first") as [firsts|] eqn:Hfirst.
  - left. eexists. apply (for__ok _ _ (λ m, firsts ≫= λ f, [(f, m)])).
    intros m _. simpl. by apply for__ok.
  - destruct mids as [|m mids]; [left; by eexists|right; reflexivity].
Qed.

(** C6 (amended). The normalizer raises AssertionError when a key other
    than first, middle and last appears. With valid keys and a middle
    position, it raises KeyError when the last position is absent, and when
    the first position is absent and the middle position names at least one
    pokemon. With an empty middle position, a last position and no first
    position it raises nothing and returns no edge. Whenever it raises, the
    insertion stores no row: the database is left as it was. *)
Theorem malformed_lineage_raises (evos_list : lineage) :
  let evos := combine_evos evos_list in
  (∀ key, is_Some (evos !! key) → key ∉ positions →
     evolution_edges evos_list = Err AssertionError) ∧
  (valid_keys evos → is_Some (evos !! "middle") → evos !! "last" = None →
     ∃ key, evolution_edges evos_list = Err (KeyError key)) ∧
  (valid_keys evos → ∀ mid_evo mids,
     evos !! "middle" = Some (mid_evo :: mids) → evos !! "first" = None →
     evolution_edges evos_list = Err (KeyError "first")) ∧
  (valid_keys evos → evos !! "middle" = Some [] → evos !! "first" = None →
     is_Some (evos !! "last") → evolution_edges evos_list = Ok []) ∧
  (∀ pkmn cur e,
     evolutions pkmn = evos_list → evolution_edges evos_list = Err e →
     db (insert_evolutions_table pkmn cur).2 = db cur ∧
     (¬ references (t_evolutions (db cur)) (name pkmn) →
      (insert_evolutions_table pkmn cur).1 = Err e)).
Proof.
  intros evos. split.
  { intros key Hkey Hpos. unfold evolution_edges. fold evos.
    by rewrite (assert_positions_fails evos key). }
  split.
  { intros Hvalid [mids Hmid] Hlast. rewrite evolution_edges_eq by assumption.
    fold evos. rewrite Hmid.
    assert (getitem evos "last" = Err (KeyError "last")) as ->
      by (unfold getitem; by rewrite Hlast).
    destruct (first_layer_cases evos mids) as [[v1 ->]| ->]; simpl; eauto. }
  split.
  { intros Hvalid m mids Hmid Hfirst. rewrite evolution_edges_eq by assumption.
    fold evos. rewrite Hmid.
    assert (getitem evos "first" = Err (KeyError "first")) as ->
      by (unfold getitem; by rewrite Hfirst).
    reflexivity. }
  split.
  { intros Hvalid Hmid Hfirst [lasts Hlast]. rewrite evolution_edges_eq by assumption.
    fold evos. rewrite Hmid.
    assert (getitem evos "last" = Ok lasts) as ->
      by (unfold getitem; by rewrite Hlast).
    simpl. by rewrite for__nil_body. }
  intros pkmn cur e <- Hraise. by apply insert_evolutions_table_raises.
Qed.

(** A taxonomy with the key mega, and the taxonomy with an empty middle
    position. *)
Lemma malformed_lineage_raises_witness :
  evolution_edges [{["first" := ["Eevee"]]}; {["mega" := ["Eevee"]]}]
    = Err AssertionError ∧
  evolution_edges headless_line = Ok [].
Proof.
  split.
  - apply (proj1 (malformed_lineage_raises _) "mega").
    + vm_compute. eauto.
    + intros Hin. unfold positions in Hin.
      rewrite !elem_of_cons, elem_of_nil in Hin.
      destruct Hin as [?|[?|[?|[]]]]; discriminate.
  - apply (proj1 (proj2 (proj2 (proj2 (malformed_lineage_raises headless_line))))).
    + apply valid_keys_check. vm_compute. reflexivity.
    + vm_compute. reflexivity.
    + vm_compute. reflexivity.
    + vm_compute. eauto.
Defined.

(** ** The form_descriptions table *)

Lemma io_bind_ok {S A B} (m : io S A) (f : A → io S B) s b s' :
  (m ≫= f) s = (Ok b, s') →
  ∃ a s1, m s = (Ok a, s1) ∧ f a s1 = (Ok b, s').
Proof.
  unfold mbind, io_bind. destruct (m s) as [[a|e] s1]; [eauto|discriminate].
Qed.

Lemma lift_ok {S A} (r : result A) (s s' : S) a :
  lift r s = (Ok a, s') → r = Ok a ∧ s' = s.
Proof. unfold lift. intros [= -> ->]. done. Qed.

Lemma result_bind_ok {A B} (r : result A) (f : A → result B) b :
  r ≫= f = Ok b → ∃ a, r = Ok a ∧ f a = Ok b.
Proof. destruct r as [a|e]; simpl; [eauto|discriminate]. Qed.

Lemma getitem_ok {V} (d : gmap string V) k v : getitem d k = Ok v → d !! k = Some v.
Proof. unfold getitem. destruct (d !! k); congruence. Qed.

Lemma getitem_some {V} (d : gmap string V) k v : d !! k = Some v → getitem d k = Ok v.
Proof. unfold getitem. by intros ->. Qed.

Lemma key_violation_false t rows r :
  key_violation t rows r = false ↔ ∀ r', r' ∈ rows → key_of t r' ≠ key_of t r.
Proof.
  unfold key_violation. split.
  - intros Hnone r' Hin Heq.
    assert (existsb (λ r', bool_decide (key_of t r' = key_of t r)) rows = true) as Hex.
    { apply existsb_exists. exists r'. split; [by apply list_elem_of_In|].
      by apply bool_decide_eq_true_2. }
    congruence.
  - intros Hall. apply not_true_is_false. intros Hex.
    apply existsb_exists in Hex as (r' & Hin & Heq).
    apply list_elem_of_In in Hin. apply bool_decide_eq_true_1 in Heq.
    by apply (Hall r').
Qed.


Ltac invert_io H :=
  repeat match type of H with
  | (_ ≫= _) _ = (Ok _, _) =>
      let a := fresh "a" in let c := fresh "c" in let Ha := fresh "Ha" in
      apply io_bind_ok in H as (a & c & Ha & H);
      try (apply lift_ok in Ha as [Ha ->])
  end.

Lemma bind_params_cons_ok p ps r :
  bind_params (p :: ps) = Ok r →
  ∃ v vs, r = v :: vs ∧ bind_param p = Ok v ∧ bind_params ps = Ok vs.
Proof.
  simpl. destruct (bind_param p) as [v|e]; simpl; [|discriminate].
  destruct (bind_params ps) as [vs|e]; simpl; [|discriminate].
  intros [= <-]. eauto.
Qed.

(** The row stored by the body of the loop of [insert_formes_table] has the
    pokemon and the label of the form in its key columns, and no earlier row
    has this key. *)
Lemma insert_formes_table_body_ok pkmn form cur cur' :
  insert_formes_table_body pkmn form cur = (Ok tt, cur') →
  ∃ form_ v r,
    form !! "form" = Some form_ ∧ bind_param (to_param form_) = Ok v ∧
    r !! 0%nat = Some (SText (name pkmn)) ∧ r !! 1%nat = Some v ∧
    key_violation Tformes (t_formes (db cur)) r = false ∧
    db cur' = append_row (db cur) Tformes r.
Proof.
  unfold insert_formes_table_body. intros Hrun. invert_io Hrun.
  apply result_bind_ok in Ha3 as (form_ & Hform & Ha3).
  apply result_bind_ok in Ha3 as (height & _ & Ha3).
  apply result_bind_ok in Ha3 as (weight & _ & Ha3).
  apply result_bind_ok in Ha3 as (category & _ & Ha3).
  injection Ha3 as <-. apply getitem_ok in Hform.
  destruct (execute_insert_cases Tformes
    [PText (name pkmn); to_param form_; to_param height; to_param weight;
     to_param category; PText a; a0; PInt a1; PInt a2] cur)
    as [(e & _ & Heq)|[(r & _ & _ & Heq)|(r & Hr & _ & Hkey & Heq)]];
    rewrite Heq in Hrun; try discriminate.
  injection Hrun as <-.
  apply bind_params_cons_ok in Hr as (v0 & vs0 & -> & Hv0 & Hr).
  apply bind_params_cons_ok in Hr as (v1 & vs1 & -> & Hv1 & Hr).
  injection Hv0 as <-.
  exists form_, v1, (SText (name pkmn) :: v1 :: vs1). repeat (split; [done|]). done.
Qed.

Lemma execute_insert_ok t values r cur :
  bind_params values = Ok r →
  null_violation t r = false →
  key_violation t (table (db cur) t) r = false →
  execute_insert t values cur =
    (Ok tt, {| db := append_row (db cur) t r; log := log cur ++ [INSERT t r];
               pending := []; committed := committed cur |}).
Proof. intros Hr Hnull Hkey. unfold execute_insert. by rewrite Hr, Hnull, Hkey. Qed.

Lemma for_io_app {S A} (xs ys : list A) (body : A → io S unit) (s : S) :
  for_io (xs ++ ys) body s =
    match for_io xs body s with
    | (Ok _, s') => for_io ys body s'
    | (Err e, s') => (Err e, s')
    end.
Proof.
  revert s. induction xs as [|x xs IH]; intros s; simpl; [reflexivity|].
  unfold mbind, io_bind. destruct (body x s) as [[[]|e] s1]; [apply IH|reflexivity].
Qed.

Lemma description_key_fresh rows pokemon label desc :
  undescribed rows pokemon label →
  key_violation Tform_descriptions rows [SText pokemon; SText label; SText desc] = false.
Proof.
  intros Hfresh. apply key_violation_false. intros r' Hin Heq.
  apply (Hfresh r' Hin). unfold key_of in Heq. simpl in Heq.
  injection Heq as H0 H1 _. auto.
Qed.

(** The body of the loop of [insert_form_descriptions_table] on a form with
    two descriptions that has no description row yet. *)
Lemma insert_form_descriptions_table_body_two pkmn form label desc1 desc2 cur :
  form !! "form" = Some (VStr label) →
  form !! "descriptions" = Some (VList [desc1; desc2]) →
  undescribed (t_form_descriptions (db cur)) (name pkmn) label →
  ∃ cur',
    insert_form_descriptions_table_body pkmn form cur = (Ok tt, cur') ∧
    t_form_descriptions (db cur') =
      t_form_descriptions (db cur) ++ collapsed_description_rows (name pkmn) form.
Proof.
  intros Hform Hdescs Hfresh.
  unfold insert_form_descriptions_table_body, collapsed_description_rows.
  rewrite Hform, Hdescs.
  rewrite (getitem_some _ _ _ Hform), (getitem_some _ _ _ Hdescs).
  cbn [elems index lookup list_lookup mbind result_bind to_param].
  unfold mbind at 1 2 3, io_bind, lift.
  set (r1 := [SText (name pkmn); SText label; SText desc1]).
  set (r2 := [SText (name pkmn); SText label; SText desc2]).
  assert (execute_insert Tform_descriptions
            [PText (name pkmn); PText label; PText desc1] cur =
          (Ok tt, {| db := append_row (db cur) Tform_descriptions r1;
                     log := log cur ++ [INSERT Tform_descriptions r1];
                     pending := []; committed := committed cur |})) as Hfirst.
  { apply execute_insert_ok; [reflexivity|reflexivity|].
    by apply description_key_fresh. }
  destruct (decide (desc1 = desc2)) as [->|Hne].
  - rewrite bool_decide_eq_false_2 by auto.
    unfold mbind, io_bind, mret, io_ret, executemany_insert. simpl for_io.
    unfold mbind, io_bind. rewrite Hfirst. eexists. split; [reflexivity|].
    reflexivity.
  - rewrite bool_decide_eq_true_2 by assumption.
    unfold mbind, io_bind, mret, io_ret, lift, executemany_insert. simpl for_io.
    unfold mbind, io_bind. rewrite Hfirst.
    erewrite (execute_insert_ok _ _ r2); [| reflexivity | reflexivity |].
    + eexists. split; [reflexivity|]. simpl. by rewrite <- (assoc_L (++)).
    + apply key_violation_false. intros r' Hin Heq.
      simpl in Hin. apply elem_of_app in Hin as [Hin|Hin].
      * apply (Hfresh r' Hin). unfold key_of in Heq. simpl in Heq.
        injection Heq as H0 H1 _. auto.
      * apply list_elem_of_singleton in Hin as ->. unfold key_of in Heq.
        simpl in Heq. congruence.
Qed.

(** On a form with a single description the body raises when it reads the
    second one, before any statement. *)
Lemma insert_form_descriptions_table_body_one pkmn form label desc1 cur :
  form !! "form" = Some (VStr label) →
  form !! "descriptions" = Some (VList [desc1]) →
  insert_form_descriptions_table_body pkmn form cur = (Err IndexError, cur).
Proof.
  intros Hform Hdescs. unfold insert_form_descriptions_table_body.
  rewrite (getitem_some _ _ _ Hform), (getitem_some _ _ _ Hdescs). reflexivity.
Qed.

Lemma collapsed_description_rows_key pokemon form label r :
  form !! "form" = Some (VStr label) →
  r ∈ collapsed_description_rows pokemon form →
  r !! 0%nat = Some (SText pokemon) ∧ r !! 1%nat = Some (SText label).
Proof.
  intros Hform. unfold collapsed_description_rows. rewrite Hform.
  destruct (form !! "descriptions") as [[?|[|d1 [|d2 [|? ?]]]]|];
    try (intros Hin; by apply elem_of_nil in Hin).
  case_decide; rewrite ?elem_of_cons, elem_of_nil; intros [->|[->|[]]] || intros [->|[]];
    done.
Qed.

(** The loop of [insert_form_descriptions_table] over forms with two
    descriptions, distinct labels and no description row yet. *)
Lemma insert_form_descriptions_loop pkmn forms labels cur :
  Forall2 (λ form label, form !! "form" = Some (VStr label)) forms labels →
  NoDup labels →
  Forall two_descriptions forms →
  (∀ label, label ∈ labels →
     undescribed (t_form_descriptions (db cur)) (name pkmn) label) →
  ∃ cur',
    for_io forms (insert_form_descriptions_table_body pkmn) cur = (Ok tt, cur') ∧
    t_form_descriptions (db cur') =
      t_form_descriptions (db cur) ++
      (forms ≫= collapsed_description_rows (name pkmn)).
Proof.
  intros Hlabels. revert cur.
  induction Hlabels as [|form label forms labels Hform Hlabels IH];
    intros cur Hnodup Htwo Hfresh.
  - exists cur. simpl. by rewrite app_nil_r.
  - apply NoDup_cons in Hnodup as [Hnotin Hnodup].
    apply Forall_cons in Htwo as [(label' & desc1 & desc2 & Hform' & Hdescs) Htwo].
    assert (label' = label) as -> by congruence.
    destruct (insert_form_descriptions_table_body_two pkmn form label desc1 desc2 cur)
      as (cur1 & Hbody & Htable1); [done..| |].
    { apply Hfresh. by left. }
    destruct (IH cur1) as (cur' & Hrest & Htable'); [done..| |].
    { intros label' Hin r Hr [H0 H1]. rewrite Htable1 in Hr.
      apply elem_of_app in Hr as [Hr|Hr].
      - apply (Hfresh label' (list_elem_of_further _ _ _ Hin) r Hr). auto.
      - apply (collapsed_description_rows_key _ _ label) in Hr as [_ Hr]; [|done].
        assert (label' = label) as -> by congruence. contradiction. }
    exists cur'. split.
    + simpl. unfold mbind, io_bind. by rewrite Hbody.
    + rewrite Htable', Htable1, bind_cons. by rewrite (assoc_L (++)).
Qed.

(** The forms stored by [insert_formes_table] have pairwise different key
    values, none of which was a form of the pokemon before; the other
    tables are left as they were. *)
Lemma insert_formes_table_keys pkmn forms cur cur' :
  for_io forms (insert_formes_table_body pkmn) cur = (Ok tt, cur') →
  ∃ vs,
    Forall2 form_key forms vs ∧ NoDup vs ∧
    (∀ v r, v ∈ vs → r ∈ t_formes (db cur) →
       ¬ (r !! 0%nat = Some (SText (name pkmn)) ∧ r !! 1%nat = Some v)) ∧
    (∀ v, v ∈ vs → ∃ r, r ∈ t_formes (db cur') ∧
       r !! 0%nat = Some (SText (name pkmn)) ∧ r !! 1%nat = Some v) ∧
    t_formes (db cur) `prefix_of` t_formes (db cur') ∧
    (∀ t, t ≠ Tformes → table (db cur') t = table (db cur) t).
Proof.
  revert cur. induction forms as [|form forms IH]; intros cur Hrun.
  - injection Hrun as <-. exists []. split; [constructor|].
    split; [apply NoDup_nil_2|].
    split; [intros v r Hv; by apply elem_of_nil in Hv|].
    split; [intros v Hv; by apply elem_of_nil in Hv|]. done.
  - simpl in Hrun. apply io_bind_ok in Hrun as ([] & cur1 & Hbody & Hrun).
    apply insert_formes_table_body_ok in Hbody
      as (form_ & v & r & Hform & Hv & Hr0 & Hr1 & Hkey & Hdb).
    apply IH in Hrun as (vs & Hkeys & Hnodup & Hfresh & Hstored & Hprefix & Hother).
    assert (t_formes (db cur1) = t_formes (db cur) ++ [r]) as Htable1.
    { rewrite Hdb. apply (table_append_row_eq _ Tformes). }
    exists (v :: vs). split; [constructor; [by exists form_|assumption]|].
    split; [|split; [|split; [|split]]].
    + apply NoDup_cons. split; [|assumption]. intros Hin.
      apply (Hfresh v r Hin); [|done]. rewrite Htable1. apply elem_of_app.
      right. by left.
    + intros v' r' Hv' Hr' [H0 H1]. apply elem_of_cons in Hv' as [->|Hv'].
      * rewrite key_violation_false in Hkey. apply (Hkey r' Hr').
        unfold key_of. simpl. congruence.
      * apply (Hfresh v' r' Hv'); [|done]. rewrite Htable1. apply elem_of_app. by left.
    + intros v' Hv'. apply elem_of_cons in Hv' as [->|Hv']; [|by apply Hstored].
      exists r. split; [|done]. destruct Hprefix as [more ->]. rewrite Htable1.
      rewrite !elem_of_app. left. right. by left.
    + etransitivity; [|exact Hprefix]. rewrite Htable1. by apply prefix_app_r.
    + intros t Ht. rewrite Hother by assumption. rewrite Hdb.
      by apply table_append_row_ne.
Qed.

(** After the pokemon row and the form rows of a pokemon are stored, none
    of its forms has a description row. *)
Lemma forms_undescribed pkmn cur0 cur1 :
  described_forms_known (db cur0) →
  (_ ← insert_pokemon_table pkmn; insert_formes_table pkmn) cur0 = (Ok tt, cur1) →
  ∃ vs,
    Forall2 form_key (formes pkmn) vs ∧ NoDup vs ∧
    (∀ v r, v ∈ vs → r ∈ t_form_descriptions (db cur1) →
       ¬ (r !! 0%nat = Some (SText (name pkmn)) ∧ r !! 1%nat = Some v)) ∧
    (∀ v, v ∈ vs → ∃ r, r ∈ t_formes (db cur1) ∧
       r !! 0%nat = Some (SText (name pkmn)) ∧ r !! 1%nat = Some v) ∧
    t_formes (db cur0) `prefix_of` t_formes (db cur1) ∧
    t_form_descriptions (db cur1) = t_form_descriptions (db cur0).
Proof.
  intros Hknown Hrun. apply io_bind_ok in Hrun as ([] & cur & Hpokemon & Hformes).
  pose proof (touches_only_insert Tpokemon
    [PText (name pkmn); PInt (number pkmn)] cur0) as Htouch.
  unfold insert_pokemon_table in Hpokemon. rewrite Hpokemon in Htouch.
  simpl in Htouch.
  apply insert_formes_table_keys in Hformes
    as (vs & Hkeys & Hnodup & Hfresh & Hstored & Hprefix & Hother).
  pose proof (Htouch Tformes ltac:(done)) as Hsame_formes.
  pose proof (Htouch Tform_descriptions ltac:(done)) as Hsame_descs.
  pose proof (Hother Tform_descriptions ltac:(done)) as Hsame_descs'.
  simpl in *. rewrite Hsame_formes in *. rewrite Hsame_descs in *.
  exists vs. repeat (split; [done|]). split; [|split; [|split]]; try done.
  intros v r Hv Hr [H0 H1]. rewrite Hsame_descs' in Hr.
  destruct (Hknown r Hr) as (r' & Hr' & H0' & H1').
  apply (Hfresh v r' Hv Hr'). split; congruence.
Qed.

Lemma form_key_label form v label :
  form_key form v → form !! "form" = Some (VStr label) → v = SText label.
Proof. intros (form_ & Hform & Hbind) Hlabel. rewrite Hform in Hlabel.
  injection Hlabel as ->. simpl in Hbind. congruence. Qed.

Lemma labels_of_keys forms vs :
  Forall2 form_key forms vs → Forall two_descriptions forms →
  ∃ labels, vs = SText <$> labels ∧
            Forall2 (λ form label, form !! "form" = Some (VStr label)) forms labels.
Proof.
  induction 1 as [|form v forms vs Hkey Hkeys IH]; intros Htwo.
  - exists []. split; [reflexivity|constructor].
  - apply Forall_cons in Htwo as [(label & d1 & d2 & Hform & _) Htwo].
    destruct (IH Htwo) as (labels & -> & Hlabels).
    exists (label :: labels). split; [|by constructor].
    rewrite fmap_cons. f_equal. by apply (form_key_label form).
Qed.

(** C4 (amended). Let the pokemon row and the form rows of a pokemon be
    stored, from a database in which every description row belongs to a
    stored form. (1) If every form has two descriptions, the description
    rows are stored without any violation of the primary key: one row for a
    form whose two descriptions are equal, two rows for a form whose
    descriptions differ. (2) If the forms before some form have two
    descriptions and that form has one, the rows of the forms before it are
    stored and the loader raises IndexError on that form: no key is
    violated, and neither that form nor the forms behind it get a row.
    (3) The rows prescribed for a form are one row on equal descriptions and
    two rows on different ones. *)
Theorem form_descriptions_collapse :
  (∀ pkmn cur0 cur1,
     described_forms_known (db cur0) →
     (_ ← insert_pokemon_table pkmn; insert_formes_table pkmn) cur0 = (Ok tt, cur1) →
     (Forall two_descriptions (formes pkmn) →
      ∃ cur2,
        insert_form_descriptions_table pkmn cur1 = (Ok tt, cur2) ∧
        t_form_descriptions (db cur2) =
          t_form_descriptions (db cur1) ++
          (formes pkmn ≫= collapsed_description_rows (name pkmn))) ∧
     (∀ complete form rest,
        formes pkmn = complete ++ form :: rest →
        Forall two_descriptions complete → one_description form →
        ∃ cur2,
          insert_form_descriptions_table pkmn cur1 = (Err IndexError, cur2) ∧
          t_form_descriptions (db cur2) =
            t_form_descriptions (db cur1) ++
            (complete ≫= collapsed_description_rows (name pkmn)))) ∧
  (∀ pokemon form label desc1 desc2,
     form !! "form" = Some (VStr label) →
     form !! "descriptions" = Some (VList [desc1; desc2]) →
     (desc1 = desc2 →
      collapsed_description_rows pokemon form =
        [[SText pokemon; SText label; SText desc1]]) ∧
     (desc1 ≠ desc2 →
      collapsed_description_rows pokemon form =
        [[SText pokemon; SText label; SText desc1];
         [SText pokemon; SText label; SText desc2]])).
Proof.
  split.
  - intros pkmn cur0 cur1 Hknown Hrun.
    destruct (forms_undescribed pkmn cur0 cur1 Hknown Hrun)
      as (vs & Hkeys & Hnodup & Hfresh & _ & _ & _).
    unfold insert_form_descriptions_table. split.
    + intros Htwo. destruct (labels_of_keys _ _ Hkeys Htwo) as (labels & -> & Hlabels).
      apply (insert_form_descriptions_loop pkmn _ labels); try done.
      * by apply NoDup_fmap_1 in Hnodup.
      * intros label Hin r Hr. apply (Hfresh (SText label)); [|done].
        by apply list_elem_of_fmap_2.
    + intros complete form rest Hformes Htwo (label & desc1 & Hform & Hdescs).
      rewrite Hformes in Hkeys |- *.
      apply Forall2_app_inv_l in Hkeys as (vs1 & vs2 & Hkeys1 & _ & ->).
      destruct (labels_of_keys _ _ Hkeys1 Htwo) as (labels & -> & Hlabels).
      destruct (insert_form_descriptions_loop pkmn complete labels cur1)
        as (cur2 & Hloop & Htable); try done.
      * apply NoDup_app in Hnodup as [Hnodup _]. by apply NoDup_fmap_1 in Hnodup.
      * intros l Hin r Hr. apply (Hfresh (SText l)); [|done].
        apply elem_of_app. left. by apply list_elem_of_fmap_2.
      * exists cur2. split; [|done]. rewrite for_io_app, Hloop. simpl.
        unfold mbind, io_bind.
        by rewrite (insert_form_descriptions_table_body_one pkmn form label desc1).
  - intros pokemon form label desc1 desc2 Hform Hdescs.
    unfold collapsed_description_rows. rewrite Hform, Hdescs.
    split; intros H; [by rewrite decide_True|by rewrite decide_False].
Qed.

(** Bulbasaur, whose two descriptions are equal, on the database just
    created. *)
Lemma form_descriptions_collapse_witness :
  ∃ cur2,
    insert_form_descriptions_table bulbasaur
      ((_ ← insert_pokemon_table bulbasaur; insert_formes_table bulbasaur)
         fresh_cursor).2 = (Ok tt, cur2) ∧
    t_form_descriptions (db cur2) =
      t_form_descriptions
        (db ((_ ← insert_pokemon_table bulbasaur; insert_formes_table bulbasaur)
               fresh_cursor).2) ++
      (formes bulbasaur ≫= collapsed_description_rows (name bulbasaur)).
Proof.
  assert (described_forms_known (db fresh_cursor)) as Hknown.
  { intros r Hr. simpl in Hr. by apply elem_of_nil in Hr. }
  assert ((_ ← insert_pokemon_table bulbasaur; insert_formes_table bulbasaur)
            fresh_cursor =
          (Ok tt, ((_ ← insert_pokemon_table bulbasaur; insert_formes_table bulbasaur)
                     fresh_cursor).2)) as Hrun.
  { vm_compute. reflexivity. }
  apply (proj1 (proj1 form_descriptions_collapse bulbasaur fresh_cursor _ Hknown Hrun)).
  repeat constructor. exists "Bulbasaur", "A strange seed.", "A strange seed.".
  split; vm_compute; reflexivity.
Defined.

(** A form with one description stops the load: the form behind it has two
    equal descriptions and gets no row, where the claim has it get one. *)
Lemma one_description_stops_load :
  ∃ form1 form2 desc1 desc,
    formes deoxys = [form1; form2] ∧
    form1 !! "descriptions" = Some (VList [desc1]) ∧
    form2 !! "descriptions" = Some (VList [desc; desc]) ∧
    (fill_sqlite_db [] [deoxys] fresh_cursor).1 = Err IndexError ∧
    List.length (t_formes (db (fill_sqlite_db [] [deoxys] fresh_cursor).2)) = 2%nat ∧
    t_form_descriptions (db (fill_sqlite_db [] [deoxys] fresh_cursor).2) = [].
Proof.
  eexists _, _, _, _. split; [reflexivity|].
  split; [vm_compute; reflexivity|]. split; [vm_compute; reflexivity|].
  split; [vm_compute; reflexivity|]. split; vm_compute; reflexivity.
Qed.


(** *** The invariant along a run *)

#[global] Instance keeps_forms_refl : Reflexive keeps_forms.
Proof. intros c. by split. Qed.
#[global] Instance keeps_forms_trans : Transitive keeps_forms.
Proof. intros c1 c2 c3 [H1 H2] [H3 H4]. split; congruence. Qed.

Lemma keeps_forms_same_db c c' : db c' = db c → keeps_forms c c'.
Proof. intros H. unfold keeps_forms. by rewrite H. Qed.

Lemma keeps_forms_insert t values :
  t ≠ Tformes → t ≠ Tform_descriptions → steps keeps_forms (execute_insert t values).
Proof.
  intros H1 H2 cur. pose proof (touches_only_insert t values cur) as Htouch.
  split; [apply (Htouch Tformes)|apply (Htouch Tform_descriptions)]; congruence.
Qed.

Ltac keeps_prim :=
  first [ apply keeps_forms_insert; discriminate
        | apply steps_select_db, keeps_forms_same_db
        | apply steps_fetchall_db, keeps_forms_same_db ].

Lemma keeps_forms_insert_form_abilities_table pkmn :
  steps keeps_forms (insert_form_abilities_table pkmn).
Proof. unfold_loader. steps_with keeps_prim. Qed.

Lemma keeps_forms_insert_evolutions_table pkmn :
  steps keeps_forms (insert_evolutions_table pkmn).
Proof. unfold_loader. steps_with keeps_prim. Qed.

(** The rows added by the body of the loop of
    [insert_form_descriptions_table] carry the pokemon and the key value of
    the form. *)
Lemma insert_form_descriptions_table_body_ok pkmn form cur cur' :
  insert_form_descriptions_table_body pkmn form cur = (Ok tt, cur') →
  ∃ v, form_key form v ∧
       t_formes (db cur') = t_formes (db cur) ∧
       ∀ r, r ∈ t_form_descriptions (db cur') →
            r ∈ t_form_descriptions (db cur) ∨
            (r !! 0%nat = Some (SText (name pkmn)) ∧ r !! 1%nat = Some v).
Proof.
  unfold insert_form_descriptions_table_body. intros Hrun. invert_io Hrun.
  apply getitem_ok in Ha0.
  assert (∀ desc st st',
    execute_insert Tform_descriptions [PText (name pkmn); to_param a0; PText desc] st
      = (Ok tt, st') →
    ∃ v, form_key form v ∧ t_formes (db st') = t_formes (db st) ∧
         t_form_descriptions (db st') =
           t_form_descriptions (db st) ++ [[SText (name pkmn); v; SText desc]])
    as Hinsert.
  { intros desc st st' Hins.
    destruct (execute_insert_cases Tform_descriptions
      [PText (name pkmn); to_param a0; PText desc] st)
      as [(e & _ & Heq)|[(r & _ & _ & Heq)|(r & Hr & _ & _ & Heq)]];
      rewrite Heq in Hins; try discriminate.
    injection Hins as <-.
    apply bind_params_cons_ok in Hr as (v0 & vs0 & -> & Hv0 & Hr).
    apply bind_params_cons_ok in Hr as (v1 & vs1 & -> & Hv1 & Hr).
    apply bind_params_cons_ok in Hr as (v2 & vs2 & -> & Hv2 & Hr).
    injection Hv0 as <-. injection Hv2 as <-. injection Hr as <-.
    exists v1. split; [by exists a0|]. done. }
  case_bool_decide as Hne.
  - invert_io Ha2. apply getitem_ok in Ha3. injection Ha2 as <- <-.
    assert (a3 = a0) as -> by congruence.
    unfold executemany_insert in Hrun. simpl in Hrun.
    invert_io Hrun. injection Hrun as <-.
    repeat match goal with u : unit |- _ => destruct u end.
    apply Hinsert in Ha2 as (v & Hkey & Hf1 & Hd1).
    apply Hinsert in Ha4 as (v' & Hkey' & Hf2 & Hd2).
    assert (v' = v) as ->.
    { destruct Hkey as (? & ? & ?), Hkey' as (? & ? & ?). congruence. }
    exists v. split; [done|]. split; [congruence|].
    intros r. rewrite Hd2, Hd1, !elem_of_app, !list_elem_of_singleton.
    intros [[?| ->]| ->]; auto.
  - injection Ha2 as <- <-.
    unfold executemany_insert in Hrun. simpl in Hrun.
    invert_io Hrun. injection Hrun as <-.
    repeat match goal with u : unit |- _ => destruct u end.
    apply Hinsert in Ha2 as (v & Hkey & Hf1 & Hd1).
    exists v. split; [done|]. split; [congruence|].
    intros r. rewrite Hd1, !elem_of_app, !list_elem_of_singleton.
    intros [?| ->]; auto.
Qed.

Lemma form_key_functional form v v' : form_key form v → form_key form v' → v = v'.
Proof. intros (? & ? & ?) (? & ? & ?). congruence. Qed.

Lemma insert_form_descriptions_table_known pkmn forms vs cur cur' :
  for_io forms (insert_form_descriptions_table_body pkmn) cur = (Ok tt, cur') →
  Forall2 form_key forms vs →
  t_formes (db cur') = t_formes (db cur) ∧
  ∀ r, r ∈ t_form_descriptions (db cur') →
       r ∈ t_form_descriptions (db cur) ∨
       ∃ v, v ∈ vs ∧ r !! 0%nat = Some (SText (name pkmn)) ∧ r !! 1%nat = Some v.
Proof.
  intros Hrun Hkeys. revert cur Hrun.
  induction Hkeys as [|form v forms vs Hkey Hkeys IH]; intros cur Hrun.
  - injection Hrun as <-. auto.
  - simpl in Hrun. apply io_bind_ok in Hrun as ([] & cur1 & Hbody & Hrun).
    apply insert_form_descriptions_table_body_ok in Hbody as (v' & Hkey' & Hf & Hrows).
    assert (v' = v) as -> by (by apply (form_key_functional form)).
    apply IH in Hrun as [Hf' Hrows']. split; [congruence|].
    intros r Hr. apply Hrows' in Hr as [Hr|(w & Hw & H0 & H1)].
    + apply Hrows in Hr as [Hr|[H0 H1]]; [by left|].
      right. exists v. split; [by left|done].
    + right. exists w. split; [by right|done].
Qed.

(** The invariant assumed by C4 is kept by the load of a pokemon. *)
Lemma described_forms_known_insert_pokemon pkmn cur cur' :
  described_forms_known (db cur) →
  insert_pokemon pkmn cur = (Ok tt, cur') →
  described_forms_known (db cur').
Proof.
  intros Hknown Hrun. unfold insert_pokemon in Hrun.
  apply io_bind_ok in Hrun as ([] & c1 & Hpokemon & Hrun).
  apply io_bind_ok in Hrun as ([] & c2 & Hformes & Hrun).
  apply io_bind_ok in Hrun as ([] & c3 & Hdescs & Hrun).
  apply io_bind_ok in Hrun as ([] & c4 & Habilities & Hrun).
  assert ((_ ← insert_pokemon_table pkmn; insert_formes_table pkmn) cur = (Ok tt, c2))
    as Hstart by (unfold mbind, io_bind; by rewrite Hpokemon).
  destruct (forms_undescribed pkmn cur c2 Hknown Hstart)
    as (vs & Hkeys & _ & _ & Hstored & Hprefix & _).
  destruct (insert_form_descriptions_table_known pkmn _ vs c2 c3 Hdescs Hkeys)
    as [Hf3 Hrows].
  pose proof (keeps_forms_insert_form_abilities_table pkmn c3) as [Hf4 Hd4].
  pose proof (keeps_forms_insert_evolutions_table pkmn c4) as [Hf5 Hd5].
  rewrite Habilities in Hf4, Hd4. rewrite Hrun in Hf5, Hd5. simpl in *.
  intros r Hr. rewrite Hd5, Hd4 in Hr. rewrite Hf5, Hf4, Hf3.
  apply Hrows in Hr as [Hr|(v & Hv & H0 & H1)].
  - pose proof (forms_undescribed pkmn cur c2 Hknown Hstart)
      as (_ & _ & _ & _ & _ & _ & Hsame).
    rewrite Hsame in Hr. destruct (Hknown r Hr) as (r' & Hr' & Hcols).
    exists r'. split; [|done]. destruct Hprefix as [more ->].
    apply elem_of_app. by left.
  - destruct (Hstored v Hv) as (r' & Hr' & H0' & H1'). exists r'.
    split; [done|]. split; congruence.
Qed.

(** It holds wherever the load of a pokemon starts in a run of the loader
    on the database just created. *)
Lemma described_forms_known_reachable ability_coll loaded cur :
  fill_sqlite_db ability_coll loaded fresh_cursor = (Ok tt, cur) →
  described_forms_known (db cur).
Proof.
  unfold fill_sqlite_db. intros Hrun.
  apply io_bind_ok in Hrun as ([] & cur1 & Hpass1 & Hrun).
  assert (described_forms_known (db cur1)) as Hknown.
  { assert (steps keeps_forms (for_io ability_coll insert_abilities_table)) as Hkeeps.
    { unfold_loader. steps_with keeps_prim. }
    destruct (Hkeeps fresh_cursor) as [_ Hdescs]. rewrite Hpass1 in Hdescs.
    intros r Hr. simpl in Hdescs. rewrite Hdescs in Hr. by apply elem_of_nil in Hr. }
  apply io_bind_ok in Hrun as ([] & cur2 & Hpass2 & Hcommit).
  injection Hcommit as <-. simpl.
  clear Hpass1. revert cur1 Hknown Hpass2.
  induction loaded as [|pkmn loaded IH]; intros cur1 Hknown Hrun.
  - by injection Hrun as <-.
  - simpl in Hrun. apply io_bind_ok in Hrun as ([] & cur3 & Hload & Hrun).
    apply (IH cur3); [|done]. by apply (described_forms_known_insert_pokemon pkmn cur1).
Qed.

(** ** The scraper *)

(** *** Prefixes and substrings *)

Lemma startswith_spec (p s : string) :
  startswith p s = true ↔ ∃ rest, s = p +:+ rest.
Proof.
  revert s. induction p as [|a p IH]; intros s; simpl.
  - split; [intros _; by exists s|done].
  - destruct s as [|b s].
    + split; [discriminate|]. intros [rest Hrest]. discriminate.
    + rewrite andb_true_iff, bool_decide_eq_true, IH. split.
      * intros [-> [rest ->]]. by exists rest.
      * intros [rest [= -> ->]]. split; [done|]. by exists rest.
Qed.

Lemma occurs_spec (sub s : string) :
  occurs sub s = true ↔ ∃ before after, s = before +:+ sub +:+ after.
Proof.
  induction s as [|a s IH].
  - cbn [occurs]. rewrite orb_false_r, startswith_spec. split.
    + intros [rest ->]. by exists "", rest.
    + intros (before & after & Heq). destruct before as [|? ?]; [|discriminate].
      by exists after.
  - cbn [occurs]. rewrite orb_true_iff, startswith_spec, IH. split.
    + intros [[rest ->]|(before & after & ->)].
      * by exists "", rest.
      * by exists (String a before), after.
    + intros (before & after & Heq). destruct before as [|b before].
      * left. by exists after.
      * right. injection Heq as -> ->. by exists before, after.
Qed.

(** *** Genders *)

(** The loop over the icons raises at an icon without second class. *)
Lemma genders_loop_raises (l : list (list string)) icon :
  icon ∈ l → icon !! 1%nat = None →
  for_ l (λ icon,
    class2 ← index icon 1;
    if occurs "female" class2 then Ok ["Female"] else Ok ["Male"])
  = Err IndexError.
Proof.
  intros Hin Hnone. induction l as [|x l IH]; [by apply elem_of_nil in Hin|].
  cbn [for_]. destruct (x !! 1%nat) as [class2|] eqn:Hx.
  - assert (index x 1 = Ok class2) as -> by (unfold index; by rewrite Hx).
    apply elem_of_cons in Hin as [->|Hin]; [congruence|].
    rewrite (IH Hin). cbn [mbind result_bind].
    by destruct (occurs "female" class2).
  - assert (index x 1 = Err IndexError) as -> by (unfold index; by rewrite Hx).
    reflexivity.
Qed.

(** C10 (amended). When the gender value has icons, each with a second
    style class, the extractor returns one entry per icon, in order: Female
    for an icon whose second class contains the substring female, Male for
    every other icon; the text of the value is not used. An icon without
    second style class gets no default: the extractor raises IndexError.
    When the value has no icon, the extractor returns the text label alone,
    stripped of the blanks and newlines around it. *)
Theorem genders_from_icons_or_text (v : attribute_value) :
  (icons v ≠ [] →
   (∀ icon, icon ∈ icons v → is_Some (icon !! 1%nat)) →
   ∃ genders,
     scrape_genders v = Ok genders ∧
     List.length genders = List.length (icons v) ∧
     ∀ i icon class2,
       icons v !! i = Some icon → icon !! 1%nat = Some class2 →
       ((∃ before after, class2 = before +:+ "female" +:+ after) →
        genders !! i = Some "Female") ∧
       (¬ (∃ before after, class2 = before +:+ "female" +:+ after) →
        genders !! i = Some "Male")) ∧
  (∀ icon, icon ∈ icons v → icon !! 1%nat = None →
   scrape_genders v = Err IndexError) ∧
  (icons v = [] → scrape_genders v = Ok [strip blanks (text v)]).
Proof.
  unfold scrape_genders. split; [|split].
  - intros Hicons Hclasses. rewrite bool_decide_eq_true_2 by assumption.
    set (classify := λ icon : list string,
           if occurs "female" (default "" (icon !! 1%nat)) then "Female" else "Male").
    exists (classify <$> icons v). split; [|split].
    + assert (∀ l : list (list string), l ≫= (λ icon, [classify icon]) = classify <$> l)
        as Hmap.
      { induction l as [|icon l IH]; [reflexivity|].
        rewrite bind_cons, fmap_cons, IH. reflexivity. }
      rewrite <- Hmap. apply for__ok.
      intros icon Hin. destruct (Hclasses icon Hin) as [class2 Hclass2].
      unfold index, classify. rewrite Hclass2. simpl.
      by destruct (occurs "female" class2).
    + by rewrite length_fmap.
    + intros i icon class2 Hi Hclass2. rewrite list_lookup_fmap, Hi. simpl.
      unfold classify. rewrite Hclass2. simpl.
      destruct (occurs "female" class2) eqn:Hocc.
      * split; [done|]. intros Hnot. exfalso. apply Hnot. by apply occurs_spec.
      * split; [|done]. intros Hsub. apply occurs_spec in Hsub. congruence.
  - intros icon Hin Hnone. rewrite bool_decide_eq_true_2.
    + by apply (genders_loop_raises _ icon).
    + intros Hnil. rewrite Hnil in Hin. by apply elem_of_nil in Hin.
  - intros ->. reflexivity.
Qed.

(** An icon with one style class is not classified Male: the extractor
    raises. Without icons the label comes stripped, not as the page has
    it. *)
Lemma icon_without_second_class_raises :
  scrape_genders {| text := "Unknown"; icons := [["icon"]] |} = Err IndexError ∧
  scrape_genders {| text := " Unknown "; icons := [] |} = Ok ["Unknown"].
Proof. split; vm_compute; reflexivity. Qed.

(** An icon without second style class makes the extractor raise. *)
Lemma scrape_genders_single_class (v : attribute_value) class1 others :
  icons v = [class1] :: others → scrape_genders v = Err IndexError.
Proof. intros Hicons. unfold scrape_genders. rewrite Hicons. reflexivity. Qed.

(** A value with a male and a female icon. *)
Lemma genders_from_icons_or_text_witness :
  ∃ genders,
    scrape_genders both_genders = Ok genders ∧
    List.length genders = List.length (icons both_genders) ∧
    ∀ i icon class2,
      icons both_genders !! i = Some icon → icon !! 1%nat = Some class2 →
      ((∃ before after, class2 = before +:+ "female" +:+ after) →
       genders !! i = Some "Female") ∧
      (¬ (∃ before after, class2 = before +:+ "female" +:+ after) →
       genders !! i = Some "Male").
Proof.
  apply (proj1 (genders_from_icons_or_text both_genders)).
  - discriminate.
  - intros icon Hin. simpl in Hin.
    rewrite !elem_of_cons, elem_of_nil in Hin.
    destruct Hin as [->|[->|[]]]; eauto.
Defined.

(** *** The exceptions of the extractors *)

Lemma raises_only_ok {A} P (a : A) : raises_only P (Ok a).
Proof. intros e. discriminate. Qed.

Lemma raises_only_bind {A B} P (r : result A) (f : A → result B) :
  raises_only P r → (∀ a, raises_only P (f a)) → raises_only P (r ≫= f).
Proof.
  intros Hr Hf e. destruct r as [a|e']; simpl.
  - apply Hf.
  - intros [= ->]. by apply Hr.
Qed.

Lemma raises_only_for_ {A B} P (xs : list A) (body : A → result (list B)) :
  (∀ x, raises_only P (body x)) → raises_only P (for_ xs body).
Proof.
  intros Hbody. induction xs as [|x xs IH]; simpl; [apply raises_only_ok|].
  apply raises_only_bind; [apply Hbody|]. intros v.
  apply raises_only_bind; [apply IH|]. intros vs. apply raises_only_ok.
Qed.

Lemma raises_only_getitem {V} (P : exn → Prop) (d : gmap string V) k :
  P (KeyError k) → raises_only P (getitem d k).
Proof. intros HP e. unfold getitem. destruct (d !! k); intros [= <-]. done. Qed.

Lemma raises_only_index {A} (P : exn → Prop) (l : list A) i :
  P IndexError → raises_only P (index l i).
Proof. intros HP e. unfold index. destruct (l !! i); intros [= <-]. done. Qed.

Lemma raises_only_if {A} P (b : bool) (r1 r2 : result A) :
  raises_only P r1 → raises_only P r2 → raises_only P (if b then r1 else r2).
Proof. by destruct b. Qed.

Ltac raises_tac :=
  cbv zeta;
  repeat first
    [ progress intros
    | apply raises_only_ok
    | apply raises_only_bind
    | apply raises_only_for_
    | apply raises_only_if
    | apply raises_only_getitem; intros ?; discriminate
    | apply raises_only_index; intros ?; discriminate ].

Lemma scrape_genders_raises v : raises_only not_url_error (scrape_genders v).
Proof. unfold scrape_genders. raises_tac. Qed.

Lemma scrape_form_info_raises lower form_info :
  raises_only not_url_error (scrape_form_info lower form_info).
Proof.
  unfold scrape_form_info. raises_tac; try apply scrape_genders_raises.
Qed.

Lemma scrape_misc_info_raises lower soup formes :
  raises_only not_url_error (__scrape_misc_info lower soup formes).
Proof.
  unfold __scrape_misc_info.
  assert (∀ (l : list (ability_info * string))
            (acc : result (gmap string (gmap string value))),
            raises_only not_url_error acc →
            raises_only not_url_error
              (foldl (λ acc '(form_info, form),
                        info ← acc;
                        d ← scrape_form_info lower form_info;
                        mret (<[form := d]> info)) acc l)) as Hfold.
  { induction l as [|[form_info form] l IH]; intros acc Hacc; [done|].
    simpl. apply IH. raises_tac; first [assumption|apply scrape_form_info_raises]. }
  apply Hfold. apply raises_only_ok.
Qed.

Lemma scrape_pokemon_raises int lower url_ soup :
  raises_only not_url_error (__scrape_pokemon int lower url_ soup).
Proof.
  unfold __scrape_pokemon, __scrape_number, form_dict. raises_tac.
  - destruct (int _); [apply raises_only_ok|].
    intros e [= <-] u Hu. unfold error_message in Hu. discriminate.
  - apply scrape_misc_info_raises.
Qed.

(** *** The check of the URL *)

(** C9. A URL that does not start with the prefix makes the constructor
    raise its ValueError with no request made; for a URL that starts with
    the prefix the request is made, and whatever the constructor raises
    afterwards is not this ValueError. *)
Theorem url_checked_before_request
    (int : string → option Z) (lower : string → string)
    (requests_get : string → option page)
    (pokemon_url : string) (requested : list string) :
  let run := __init__ int lower requests_get pokemon_url requested in
  (¬ (∃ rest, pokemon_url = url_prefix +:+ rest) →
   run = (Err (ValueError (error_message pokemon_url)), requested)) ∧
  ((∃ rest, pokemon_url = url_prefix +:+ rest) →
   run.2 = requested ++ [pokemon_url] ∧
   ∀ u, run.1 ≠ Err (ValueError (error_message u))).
Proof.
  simpl. unfold __init__. split.
  - intros Hprefix. rewrite <- startswith_spec in Hprefix.
    apply not_true_is_false in Hprefix. by rewrite Hprefix.
  - intros Hprefix. rewrite <- startswith_spec in Hprefix. rewrite Hprefix.
    cbn [negb]. unfold mbind, io_bind, lift.
    destruct (requests_get pokemon_url) as [soup|];
      [|split; [done|intros u Hu; simpl in Hu; discriminate]].
    pose proof (scrape_pokemon_raises int lower pokemon_url soup) as Hraises.
    destruct (__scrape_pokemon int lower pokemon_url soup) as [pokemon|e].
    + split; [done|]. intros u Hu. simpl in Hu. discriminate.
    + split; [done|]. intros u Hu. simpl in Hu. injection Hu as ->.
      by apply (Hraises _ eq_refl u).
Qed.

(** A URL of another site, and the URL of the page of Eevee. *)
Lemma url_checked_before_request_witness :
  __init__ decimal lower_ascii (λ _, None) "http://example.org/bulbasaur" []
    = (Err (ValueError (error_message "http://example.org/bulbasaur")), []) ∧
  (__init__ decimal lower_ascii (λ _, Some eevee_page)
     "https://www.pokemon.com/us/pokedex/eevee" []).2
    = [] ++ ["https://www.pokemon.com/us/pokedex/eevee"].
Proof.
  split.
  - apply (proj1 (url_checked_before_request decimal lower_ascii (λ _, None)
                    "http://example.org/bulbasaur" [])).
    intros Hprefix. apply startswith_spec in Hprefix. vm_compute in Hprefix.
    discriminate.
  - apply (proj2 (url_checked_before_request decimal lower_ascii
                    (λ _, Some eevee_page)
                    "https://www.pokemon.com/us/pokedex/eevee" [])).
    exists "eevee". reflexivity.
Defined.

(** *** The pairing of the extractors with the form labels *)

Lemma zip_snd_take {A B} (l : list A) (k : list B) :
  (zip l k).*2 = take (List.length l) k.
Proof.
  revert k. induction l as [|x l IH]; intros [|y k]; simpl; try reflexivity.
  by rewrite IH.
Qed.

Lemma zip_take_length {A B} (l : list A) (k : list B) :
  zip (take (List.length k) l) k = zip l k.
Proof.
  revert l. induction k as [|y k IH]; intros [|x l]; simpl; try reflexivity.
  by rewrite IH.
Qed.

Lemma not_elem_of_take {A} (l : list A) (n i : nat) (x : A) :
  NoDup l → l !! i = Some x → (n ≤ i)%nat → x ∉ take n l.
Proof.
  intros Hnodup Hi Hn Hin. apply list_elem_of_lookup in Hin as [j Hj].
  assert (j < n)%nat as Hjn.
  { apply lookup_lt_Some in Hj. rewrite length_take in Hj. lia. }
  rewrite lookup_take_lt in Hj by assumption.
  pose proof (NoDup_lookup _ _ _ _ Hnodup Hi Hj). lia.
Qed.

Lemma zip_into_lookup_None {A V} (f : A → V) (tags : list A) (formes : list string) form :
  form ∉ take (List.length tags) formes → zip_into f tags formes !! form = None.
Proof.
  rewrite <- zip_snd_take. unfold zip_into.
  assert (∀ (l : list (A * string)) (d : gmap string V),
            d !! form = None → form ∉ l.*2 →
            foldl (λ d '(x, form), <[form := f x]> d) d l !! form = None) as Hfold.
  { induction l as [|[x k] l IH]; intros d Hd Hnotin; [done|].
    simpl. apply IH.
    - rewrite lookup_insert_ne; [done|]. intros ->. apply Hnotin. by left.
    - intros Hin. apply Hnotin. by right. }
  intros Hnotin. by apply Hfold.
Qed.

Lemma scrape_misc_info_lookup_None lower soup formes form info :
  __scrape_misc_info lower soup formes = Ok info →
  form ∉ take (List.length (info_tag soup)) formes → info !! form = None.
Proof.
  rewrite <- zip_snd_take. unfold __scrape_misc_info.
  assert (∀ (l : list (ability_info * string))
            (acc : result (gmap string (gmap string value))) info,
            foldl (λ acc '(form_info, form),
                     info ← acc;
                     d ← scrape_form_info lower form_info;
                     mret (<[form := d]> info)) acc l = Ok info →
            form ∉ l.*2 →
            ∃ info0, acc = Ok info0 ∧ (info0 !! form = None → info !! form = None))
    as Hfold.
  { induction l as [|[form_info k] l IH]; intros acc info' Hrun Hnotin.
    - exists info'. by split.
    - simpl in Hrun. apply IH in Hrun as (info1 & Hstep & Hnone).
      2:{ intros Hin. apply Hnotin. by right. }
      apply result_bind_ok in Hstep as (info0 & -> & Hstep).
      apply result_bind_ok in Hstep as (d & _ & [= <-]).
      exists info0. split; [done|]. intros H0. apply Hnone.
      rewrite lookup_insert_ne; [done|]. intros ->. apply Hnotin. by left. }
  intros Hrun Hnotin. destruct (Hfold _ _ _ Hrun Hnotin) as (info0 & [= <-] & Hnone).
  by apply Hnone.
Qed.

Lemma form_dict_missing images descriptions types misc_info form :
  images !! form = None ∨ descriptions !! form = None ∨
  types !! form = None ∨ misc_info !! form = None →
  is_ok (form_dict images descriptions types misc_info form) = false.
Proof.
  unfold form_dict, getitem. intros Hmissing.
  destruct (images !! form); simpl; [|done].
  destruct (descriptions !! form); simpl; [|done].
  destruct (types !! form); simpl; [|done].
  destruct (misc_info !! form); simpl; [|done].
  destruct Hmissing as [?|[?|[?|?]]]; discriminate.
Qed.

(** A page with two images and a single form: the assembly returns, and the
    second image is dropped. *)
Lemma surplus_image_accepted :
  List.length (images_tag surplus_page) = 2%nat ∧
  List.length (__scrape_formes surplus_page) = 1%nat ∧
  is_ok (__scrape_pokemon decimal lower_ascii
           "https://www.pokemon.com/us/pokedex/eevee" surplus_page) = true ∧
  __scrape_pokemon decimal lower_ascii
    "https://www.pokemon.com/us/pokedex/eevee" surplus_page =
  __scrape_pokemon decimal lower_ascii
    "https://www.pokemon.com/us/pokedex/eevee" eevee_page.
Proof. repeat split; vm_compute; reflexivity. Qed.

(** C5 (amended). With pairwise distinct form labels, an extractor that
    yields fewer entries than there are labels makes the assembly raise.
    An extractor that yields more entries raises nothing: the entries
    beyond the number of labels are dropped, and the assembly gives what
    it gives on the page without them. *)
Theorem short_extractor_raises_surplus_dropped
    (int : string → option Z) (lower : string → string)
    (url_ : string) (soup : page) :
  let formes_ := __scrape_formes soup in
  (NoDup formes_ →
   (List.length (images_tag soup) < List.length formes_ ∨
    List.length (descriptions_tag soup) < List.length formes_ ∨
    List.length (types_tag soup) < List.length formes_ ∨
    List.length (info_tag soup) < List.length formes_)%nat →
   is_ok (__scrape_pokemon int lower url_ soup) = false) ∧
  __scrape_pokemon int lower url_ (drop_surplus soup) =
  __scrape_pokemon int lower url_ soup.
Proof.
  intros formes_. split.
  - intros Hnodup Hshort. unfold __scrape_pokemon. fold formes_.
    destruct (__scrape_number int soup) as [number_|e]; [simpl|reflexivity].
    destruct (__scrape_misc_info lower soup formes_) as [misc_info|e] eqn:Hmisc;
      [simpl|reflexivity].
    assert (∃ form,
      form ∈ formes_ ∧
      is_ok (form_dict (__scrape_images soup formes_)
               (__scrape_descriptions soup formes_) (__scrape_types soup formes_)
               misc_info form) = false) as (form & Hin & Hform).
    { assert (∀ n, (n < List.length formes_)%nat →
                ∃ form, form ∈ formes_ ∧ form ∉ take n formes_) as Hbeyond.
      { intros n Hn. destruct (lookup_lt_is_Some_2 formes_ n Hn) as [form Hform].
        exists form. split; [by apply list_elem_of_lookup_2 in Hform|].
        by apply (not_elem_of_take formes_ n n). }
      destruct Hshort as [Hlt|[Hlt|[Hlt|Hlt]]];
        destruct (Hbeyond _ Hlt) as (form & Hin & Hnotin);
        exists form; (split; [done|]); apply form_dict_missing.
      - left. by apply zip_into_lookup_None.
      - right. left. by apply zip_into_lookup_None.
      - right. right. left. by apply zip_into_lookup_None.
      - right. right. right. by apply (scrape_misc_info_lookup_None lower soup formes_). }
    match goal with
    | |- is_ok (?loop ≫= _) = false =>
        assert (is_ok loop = false) as Hloop; [|by destruct loop]
    end.
    apply (for__raises _ _ form Hin).
    by destruct (form_dict _ _ _ _ form).
  - unfold __scrape_pokemon, __scrape_images, __scrape_descriptions,
      __scrape_types, __scrape_misc_info, zip_into.
    assert (__scrape_formes (drop_surplus soup) = formes_) as -> by reflexivity.
    assert (__scrape_number int (drop_surplus soup) = __scrape_number int soup)
      as -> by reflexivity.
    assert (__scrape_name (drop_surplus soup) = __scrape_name soup) as -> by reflexivity.
    assert (__scrape_evolutions (drop_surplus soup) = __scrape_evolutions soup)
      as -> by reflexivity.
    unfold drop_surplus. fold formes_. cbn [images_tag descriptions_tag types_tag info_tag].
    by rewrite !zip_take_length.
Qed.

(** The page with two forms and one image. *)
Lemma short_extractor_raises_surplus_dropped_witness :
  is_ok (__scrape_pokemon decimal lower_ascii
           "https://www.pokemon.com/us/pokedex/venusaur" short_page) = false.
Proof.
  apply (proj1 (short_extractor_raises_surplus_dropped decimal lower_ascii
                  "https://www.pokemon.com/us/pokedex/venusaur" short_page)).
  - apply (bool_decide_unpack _). vm_compute. exact I.
  - left. vm_compute. lia.
Defined.

(** *** Forms without ability section *)

(** On a region without ability section the scraper returns a dictionary
    in which no key holds an empty list; the key of the abilities is
    absent. *)
Lemma no_ability_section_no_list :
  ∃ pokemon form,
    __scrape_pokemon decimal lower_ascii
      "https://www.pokemon.com/us/pokedex/eevee" eevee_page = Ok pokemon ∧
    formes pokemon = [form] ∧
    form !! "abilities" = None ∧
    ∀ key, form !! key ≠ Some (VList []).
Proof.
  eexists _, _. split; [vm_compute; reflexivity|]. split; [reflexivity|].
  split; [vm_compute; reflexivity|].
  match goal with
  | |- ∀ key, ?form !! key ≠ _ =>
      assert (map_Forall (λ _ v, v ≠ VList []) form) as Hall
  end.
  { apply map_Forall_to_list. apply (bool_decide_unpack _). vm_compute. exact I. }
  intros key Hkey. by apply (Hall key _ Hkey).
Qed.

Lemma scrape_genders_raises_index v :
  raises_only (λ e, e = IndexError) (scrape_genders v).
Proof.
  unfold scrape_genders. cbv zeta.
  repeat first
    [ progress intros | apply raises_only_ok | apply raises_only_bind
    | apply raises_only_for_ | apply raises_only_if
    | apply raises_only_index; reflexivity ].
Qed.

Lemma scrape_form_info_raises_index lower form_info :
  raises_only (λ e, e = IndexError) (scrape_form_info lower form_info).
Proof.
  unfold scrape_form_info. cbv zeta.
  repeat first
    [ progress intros | apply raises_only_ok | apply raises_only_bind
    | apply raises_only_for_ | apply raises_only_if
    | apply raises_only_index; reflexivity
    | apply scrape_genders_raises_index ].
Qed.

(** A region with fewer than four titles or four values. *)
Lemma scrape_form_info_short lower form_info :
  (List.length (titles form_info) < 4 ∨ List.length (values form_info) < 4)%nat →
  scrape_form_info lower form_info = Err IndexError.
Proof.
  intros Hshort.
  destruct (scrape_form_info lower form_info) as [d|e] eqn:Hrun.
  - exfalso. unfold scrape_form_info in Hrun.
    destruct form_info as [ts vs]. simpl in *.
    repeat match type of Hrun with
    | _ ≫= _ = Ok _ =>
        let x := fresh "x" in let Hx := fresh "Hx" in
        apply result_bind_ok in Hrun as (x & Hx & Hrun)
    end.
    unfold index in *.
    repeat match goal with
    | H : match ?l !! ?i with _ => _ end = Ok _ |- _ =>
        let Hl := fresh "Hl" in
        destruct (l !! i) eqn:Hl; [|discriminate];
        apply lookup_lt_Some in Hl; clear H
    end.
    lia.
  - by rewrite (scrape_form_info_raises_index lower form_info e Hrun).
Qed.

(** The genders scraped are never an empty list. *)
Lemma scrape_genders_nonempty v genders :
  scrape_genders v = Ok genders → genders ≠ [].
Proof.
  unfold scrape_genders. case_bool_decide as Hicons; [|by intros [= <-]].
  destruct (icons v) as [|icon l]; [done|]. cbn [for_]. intros Hrun.
  apply result_bind_ok in Hrun as (first & Hfirst & Hrun).
  apply result_bind_ok in Hrun as (rest & _ & [= <-]).
  apply result_bind_ok in Hfirst as (class2 & _ & Hfirst).
  destruct (occurs "female" class2); by injection Hfirst as <-.
Qed.

(** C7 (amended). A region without ability section has no fifth title or no
    fifth value. (1) With fewer than four titles or four values the
    extractor raises IndexError. (2) With four of each at least, it raises
    what the scrape of the genders raises, and otherwise returns the
    dictionary of the four attributes named by the first four titles: its
    keys are among these four, no key holds an empty list, and the key
    abilities is absent unless one of the four titles is itself abilities in
    lower case. (3) A form assembled from a region without abilities entry
    has no abilities entry. (4) For a form without abilities entry the
    loader contributes no form_abilities row, and a pokemon whose forms all
    lack the entry leaves the cursor untouched. *)
Theorem no_ability_section_no_rows :
  (∀ (lower : string → string) form_info,
     (List.length (titles form_info) < 4 ∨ List.length (values form_info) < 4)%nat →
     scrape_form_info lower form_info = Err IndexError) ∧
  (∀ (lower : string → string) form_info t0 t1 t2 t3 v0 v1 v2 v3
     more_titles more_values,
     titles form_info = [t0; t1; t2; t3] ++ more_titles →
     values form_info = [v0; v1; v2; v3] ++ more_values →
     more_titles = [] ∨ more_values = [] →
     (∀ e, scrape_genders v2 = Err e → scrape_form_info lower form_info = Err e) ∧
     (∀ genders, scrape_genders v2 = Ok genders →
        let d := <[lower t3 := VStr (text v3)]>
                   (<[lower t2 := VList genders]>
                      (<[lower t1 := VStr (text v1)]>
                         (<[lower t0 := VStr (text v0)]> ∅))) in
        scrape_form_info lower form_info = Ok d ∧
        (∀ key, is_Some (d !! key) → key ∈ [lower t0; lower t1; lower t2; lower t3]) ∧
        (∀ key, d !! key ≠ Some (VList [])) ∧
        ("abilities" ∉ [lower t0; lower t1; lower t2; lower t3] →
         d !! "abilities" = None))) ∧
  (∀ images descriptions types misc_info form info d,
     form_dict images descriptions types misc_info form = Ok d →
     misc_info !! form = Some info →
     info !! "abilities" = None → d !! "abilities" = None) ∧
  (∀ pkmn form,
     form !! "abilities" = None → form_ability_values pkmn form = Ok []) ∧
  (∀ pkmn cur,
     (∀ form, form ∈ formes pkmn → form !! "abilities" = None) →
     insert_form_abilities_table pkmn cur = (Ok tt, cur)).
Proof.
  split; [exact scrape_form_info_short|]. split; [|split; [|split]].
  - intros lower form_info t0 t1 t2 t3 v0 v1 v2 v3 more_titles more_values
      Htitles Hvalues Hmore.
    assert (((4 <? List.length (t0 :: t1 :: t2 :: t3 :: more_titles))%nat &&
             (4 <? List.length (v0 :: v1 :: v2 :: v3 :: more_values))%nat) = false)
      as Hsection.
    { destruct Hmore as [-> | ->]; simpl; [reflexivity|]. by rewrite andb_false_r. }
    split.
    + intros e Hgenders. unfold scrape_form_info. rewrite Htitles, Hvalues.
      cbn [index lookup list_lookup app mbind result_bind]. by rewrite Hgenders.
    + intros genders Hgenders. cbv zeta.
      assert (∀ key,
        is_Some ((<[lower t3 := VStr (text v3)]>
                    (<[lower t2 := VList genders]>
                       (<[lower t1 := VStr (text v1)]>
                          (<[lower t0 := VStr (text v0)]> ∅)))
                  : gmap string value) !! key) →
        key ∈ [lower t0; lower t1; lower t2; lower t3]) as Hkeys.
      { intros key Hsome.
        destruct (decide (key = lower t3)) as [->|H3]; [rewrite !elem_of_cons; auto|].
        destruct (decide (key = lower t2)) as [->|H2]; [rewrite !elem_of_cons; auto|].
        destruct (decide (key = lower t1)) as [->|H1]; [rewrite !elem_of_cons; auto|].
        destruct (decide (key = lower t0)) as [->|H0]; [rewrite !elem_of_cons; auto|].
        rewrite !lookup_insert_ne, lookup_empty in Hsome by done.
        by destruct Hsome. }
      split; [|split; [exact Hkeys|split]].
      * unfold scrape_form_info. rewrite Htitles, Hvalues.
        cbn [index lookup list_lookup app mbind result_bind]. rewrite Hgenders.
        cbn [mbind result_bind]. cbn [app] in Hsection. by rewrite Hsection.
      * intros key Hkey. apply scrape_genders_nonempty in Hgenders.
        repeat (apply lookup_insert_Some in Hkey as [[_ Hkey]|[_ Hkey]];
                [congruence|]).
        by rewrite lookup_empty in Hkey.
      * intros Hnot.
        destruct (_ !! "abilities") as [x|] eqn:Hlook; [|done].
        destruct Hnot. apply Hkeys. by rewrite Hlook.
  - intros images descriptions types misc_info form info d Hdict Hinfo Hnone.
    unfold form_dict in Hdict.
    apply result_bind_ok in Hdict as (image & _ & Hdict).
    apply result_bind_ok in Hdict as (descs & _ & Hdict).
    apply result_bind_ok in Hdict as (tys & _ & Hdict).
    apply result_bind_ok in Hdict as (misc & Hmisc & [= <-]).
    apply getitem_ok in Hmisc. assert (misc = info) as -> by congruence.
    rewrite lookup_union, Hnone.
    rewrite !lookup_insert_ne, lookup_singleton_ne by discriminate. reflexivity.
  - intros pkmn form Hnone. unfold form_ability_values.
    rewrite bool_decide_eq_false_2; [reflexivity|]. rewrite Hnone. by intros [? ?].
  - intros pkmn cur Hforms. unfold insert_form_abilities_table.
    rewrite (for__ok _ _ (λ _, [])).
    + assert (∀ l : list (gmap string value),
                l ≫= (λ _, [] : list (list param)) = []) as ->
        by (induction l; [done|by rewrite bind_cons]).
      reflexivity.
    + intros form Hin. unfold form_ability_values.
      rewrite bool_decide_eq_false_2; [reflexivity|].
      rewrite (Hforms form Hin). by intros [? ?].
Qed.

(** The region of Eevee, and the document of Ivysaur. *)
Lemma no_ability_section_no_rows_witness :
  scrape_form_info lower_ascii eevee_info =
    Ok (<[lower_ascii "Category" := VStr "Evolution"]>
          (<[lower_ascii "Gender" := VList ["Male"; "Female"]]>
             (<[lower_ascii "Weight" := VStr "14.3 lbs"]>
                (<[lower_ascii "Height" := VStr "1 00"]> ∅)))) ∧
  scrape_form_info lower_ascii {| titles := ["Height"; "Weight"; "Gender"];
                                  values := values eevee_info |} = Err IndexError ∧
  insert_form_abilities_table ivysaur fresh_cursor = (Ok tt, fresh_cursor).
Proof.
  split; [|split].
  - apply (proj2 (proj1 (proj2 no_ability_section_no_rows) lower_ascii eevee_info
             "Height" "Weight" "Gender" "Category"
             {| text := "1 00"; icons := [] |} {| text := "14.3 lbs"; icons := [] |}
             both_genders {| text := "Evolution"; icons := [] |} [] []
             eq_refl eq_refl (or_introl eq_refl)) ["Male"; "Female"]).
    reflexivity.
  - apply (proj1 no_ability_section_no_rows). left. simpl. lia.
  - apply (proj2 (proj2 (proj2 (proj2 no_ability_section_no_rows))) ivysaur fresh_cursor).
    intros form Hin. simpl in Hin. apply list_elem_of_singleton in Hin as ->.
    vm_compute. reflexivity.
Defined.

(** *** From the page to the tables *)

(** The page of a pokemon with one form and no evolution, scraped and
    loaded into the database just created: one pokemon row, no edge row. *)
Example eevee_scraped_and_loaded :
  ∃ pkmn,
    __scrape_pokemon decimal lower_ascii
      "https://www.pokemon.com/us/pokedex/eevee" eevee_page = Ok pkmn ∧
    (fill_sqlite_db [] [pkmn] fresh_cursor).1 = Ok tt ∧
    t_pokemon (db (fill_sqlite_db [] [pkmn] fresh_cursor).2) =
      [[SText "Eevee"; SInt 133]] ∧
    List.length (t_formes (db (fill_sqlite_db [] [pkmn] fresh_cursor).2)) = 1%nat ∧
    t_evolutions (db (fill_sqlite_db [] [pkmn] fresh_cursor).2) = [].
Proof. eexists. split; [vm_compute; reflexivity|]. repeat split. Qed.


(** * Further properties of the scraper *)

(** ** The abilities of a page *)

(** X1. The ability documents of a page have pairwise distinct names, which
    are the stripped names the page shows; each document carries the
    description of the first detail that shows its name. *)
Theorem scrape_abilities_first_wins (soup : page) :
  let docs := __scrape_abilities soup in
  NoDup (ability <$> docs) ∧
  (∀ ability_name,
     ability_name ∈ ability <$> docs ↔
     ability_name ∈ (λ detail, strip blanks detail.1) <$> ability_details soup) ∧
  (∀ doc, doc ∈ docs →
     ∃ i h3 p,
       ability_details soup !! i = Some (h3, p) ∧
       ability doc = strip blanks h3 ∧ description doc = strip blanks p ∧
       ∀ j h3' p', (j < i)%nat → ability_details soup !! j = Some (h3', p') →
                   strip blanks h3' ≠ ability doc).
Proof.
  unfold __scrape_abilities. generalize (ability_details soup) as details.
  induction details as [|[h3 p] details IH] using rev_ind.
  - simpl. split; [apply NoDup_nil_2|]. split.
    + intros n. reflexivity.
    + intros doc Hdoc. by apply elem_of_nil in Hdoc.
  - rewrite foldl_app. cbn [foldl].
    destruct IH as (Hnodup & Hnames & Hfirst).
    set (docs := foldl _ [] details) in *.
    assert (∀ doc, doc ∈ docs →
      ∃ i h3' p',
        (details ++ [(h3, p)]) !! i = Some (h3', p') ∧
        ability doc = strip blanks h3' ∧ description doc = strip blanks p' ∧
        ∀ j h3'' p'', (j < i)%nat →
          (details ++ [(h3, p)]) !! j = Some (h3'', p'') →
          strip blanks h3'' ≠ ability doc) as Hfirst'.
    { intros doc Hdoc. destruct (Hfirst doc Hdoc) as (i & h3' & p' & Hi & Hn & Hd & Hmin).
      exists i, h3', p'. pose proof (lookup_lt_Some _ _ _ Hi) as Hlt.
      split; [by rewrite lookup_app_l|]. repeat (split; [done|]).
      intros j h3'' p'' Hj. rewrite lookup_app_l by lia. by apply Hmin. }
    case_bool_decide as Hseen.
    + split; [done|]. split; [|done].
      intros n. rewrite Hnames, fmap_app, elem_of_app. split; [auto|].
      intros [Hn|Hn]; [done|]. simpl in Hn. apply list_elem_of_singleton in Hn as ->.
      by apply Hnames.
    + split; [|split].
      * rewrite fmap_app. apply NoDup_app. split; [done|]. split.
        -- intros n Hn Hn'. simpl in Hn'. apply list_elem_of_singleton in Hn' as ->.
           done.
        -- apply NoDup_singleton.
      * intros n. rewrite !fmap_app, !elem_of_app, Hnames. reflexivity.
      * intros doc Hdoc. apply elem_of_app in Hdoc as [Hdoc|Hdoc]; [by apply Hfirst'|].
        apply list_elem_of_singleton in Hdoc as ->. simpl.
        exists (List.length details), h3, p.
        split; [by rewrite lookup_app_r, Nat.sub_diag by lia|].
        repeat (split; [done|]).
        intros j h3' p' Hj Hlook Heq. rewrite lookup_app_l in Hlook by lia.
        apply Hseen. apply Hnames. apply list_elem_of_fmap.
        exists (h3', p'). split; [done|]. by apply list_elem_of_lookup_2 in Hlook.
Qed.

(** ** The pairing by position *)

(** A key that the remaining pairs do not hold keeps its entry. *)
Lemma foldl_insert_untouched {A V} (f : A → V) (l : list (A * string))
    (d : gmap string V) form :
  form ∉ l.*2 →
  foldl (λ d '(x, form), <[form := f x]> d) d l !! form = d !! form.
Proof.
  revert d. induction l as [|[x k] l IH]; intros d Hnotin; [done|].
  simpl. rewrite IH.
  - rewrite lookup_insert_ne; [done|]. intros ->. apply Hnotin. by left.
  - intros Hin. apply Hnotin. by right.
Qed.

Lemma foldl_insert_lookup {A V} (f : A → V) (tags : list A) (formes : list string)
    (d : gmap string V) i form :
  NoDup formes → formes !! i = Some form →
  foldl (λ d '(x, form), <[form := f x]> d) d (zip tags formes) !! form =
    match tags !! i with Some x => Some (f x) | None => d !! form end.
Proof.
  revert d formes i.
  induction tags as [|x tags IH]; intros d [|k formes] i Hnodup Hi; try done.
  apply NoDup_cons in Hnodup as [Hk Hnodup]. destruct i as [|i]; simpl in *.
  - injection Hi as ->. rewrite foldl_insert_untouched.
    + by rewrite lookup_insert_eq.
    + rewrite zip_snd_take. intros Hin. apply Hk.
      apply elem_of_take in Hin as (j & Hj & _). by apply list_elem_of_lookup_2 in Hj.
  - rewrite (IH _ formes i) by done.
    destruct (tags !! i); [done|]. rewrite lookup_insert_ne; [done|].
    intros ->. apply Hk. by apply list_elem_of_lookup_2 in Hi.
Qed.

Lemma zip_into_lookup {A V} (f : A → V) (tags : list A) (formes : list string) i form :
  NoDup formes → formes !! i = Some form →
  zip_into f tags formes !! form = f <$> tags !! i.
Proof.
  intros Hnodup Hi. unfold zip_into.
  rewrite (foldl_insert_lookup f tags formes ∅ i) by done.
  destruct (tags !! i); [done|]. apply lookup_empty.
Qed.

(** X2. With pairwise distinct form labels, the image, the descriptions and
    the types paired with the label at a position are those the page shows
    at the same position, stripped; a label beyond the entries of an
    extractor gets no entry. *)
Theorem extractors_pair_by_position (soup : page) (formes : list string) i form :
  NoDup formes → formes !! i = Some form →
  __scrape_images soup formes !! form = images_tag soup !! i ∧
  __scrape_descriptions soup formes !! form =
    fmap (strip blanks) <$> descriptions_tag soup !! i ∧
  __scrape_types soup formes !! form =
    fmap (strip blanks) <$> types_tag soup !! i.
Proof.
  intros Hnodup Hi.
  unfold __scrape_images, __scrape_descriptions, __scrape_types.
  rewrite !(zip_into_lookup _ _ formes i) by done.
  split; [|done]. by destruct (images_tag soup !! i).
Qed.

(** The second form of the page that declares two forms. *)
Lemma extractors_pair_by_position_witness :
  __scrape_images short_page (__scrape_formes short_page) !! "Mega Venusaur"
    = images_tag short_page !! 1%nat ∧
  __scrape_descriptions short_page (__scrape_formes short_page) !! "Mega Venusaur"
    = fmap (strip blanks) <$> descriptions_tag short_page !! 1%nat ∧
  __scrape_types short_page (__scrape_formes short_page) !! "Mega Venusaur"
    = fmap (strip blanks) <$> types_tag short_page !! 1%nat.
Proof.
  apply (extractors_pair_by_position short_page (__scrape_formes short_page) 1).
  - apply (bool_decide_unpack _). vm_compute. exact I.
  - vm_compute. reflexivity.
Defined.

(** ** The assembled document *)

Lemma scrape_misc_fold_untouched lower (l : list (ability_info * string))
    (acc : result (gmap string (gmap string value))) info form :
  foldl (λ acc '(form_info, form),
           info ← acc;
           d ← scrape_form_info lower form_info;
           mret (<[form := d]> info)) acc l = Ok info →
  form ∉ l.*2 →
  ∃ info0, acc = Ok info0 ∧ info !! form = info0 !! form.
Proof.
  revert acc. induction l as [|[form_info k] l IH]; intros acc Hrun Hnotin.
  - exists info. by split.
  - simpl in Hrun. apply IH in Hrun as (info1 & Hstep & Heq).
    2:{ intros Hin. apply Hnotin. by right. }
    apply result_bind_ok in Hstep as (info0 & -> & Hstep).
    apply result_bind_ok in Hstep as (d & _ & [= <-]).
    exists info0. split; [done|]. rewrite Heq.
    rewrite lookup_insert_ne; [done|]. intros ->. apply Hnotin. by left.
Qed.

Lemma scrape_misc_fold_lookup lower (tags : list ability_info) (formes : list string)
    (acc : result (gmap string (gmap string value))) info i form :
  NoDup formes → formes !! i = Some form →
  foldl (λ acc '(form_info, form),
           info ← acc;
           d ← scrape_form_info lower form_info;
           mret (<[form := d]> info)) acc (zip tags formes) = Ok info →
  ∃ info0, acc = Ok info0 ∧
    match tags !! i with
    | Some form_info =>
        ∃ d, scrape_form_info lower form_info = Ok d ∧ info !! form = Some d
    | None => info !! form = info0 !! form
    end.
Proof.
  revert acc formes i.
  induction tags as [|x tags IH]; intros acc [|k formes] i Hnodup Hi Hrun; try done.
  { simpl in Hrun. exists info. by split. }
  apply NoDup_cons in Hnodup as [Hk Hnodup]. destruct i as [|i]; simpl in *.
  - assert (k = form) as -> by congruence.
    apply (scrape_misc_fold_untouched lower _ _ info form) in Hrun
      as (info1 & Hstep & Heq).
    2:{ rewrite zip_snd_take. intros Hin. apply Hk.
        apply elem_of_take in Hin as (j & Hj & _). by apply list_elem_of_lookup_2 in Hj. }
    apply result_bind_ok in Hstep as (info0 & -> & Hstep).
    apply result_bind_ok in Hstep as (d & Hd & [= <-]).
    exists info0. split; [done|]. exists d. split; [done|].
    by rewrite Heq, lookup_insert_eq.
  - apply (IH _ formes i) in Hrun as (info1 & Hstep & Hlook); [|done..].
    apply result_bind_ok in Hstep as (info0 & -> & Hstep).
    apply result_bind_ok in Hstep as (d & Hd & [= <-]).
    exists info0. split; [done|].
    destruct (tags !! i); [done|]. rewrite Hlook.
    rewrite lookup_insert_ne; [done|].
    intros ->. apply Hk. by apply list_elem_of_lookup_2 in Hi.
Qed.

Lemma scrape_misc_info_lookup lower soup formes info i form :
  NoDup formes → formes !! i = Some form →
  __scrape_misc_info lower soup formes = Ok info →
  match info_tag soup !! i with
  | Some form_info =>
      ∃ d, scrape_form_info lower form_info = Ok d ∧ info !! form = Some d
  | None => info !! form = None
  end.
Proof.
  intros Hnodup Hi Hrun. unfold __scrape_misc_info in Hrun.
  apply (scrape_misc_fold_lookup lower _ formes _ info i form) in Hrun
    as (info0 & [= <-] & Hlook); [|done..].
  destruct (info_tag soup !! i); [done|]. by rewrite Hlook, lookup_empty.
Qed.

(** A loop that appends one element per iteration. *)
Lemma for__singletons {A B} (xs : list A) (g : A → result B) (ys : list B) :
  for_ xs (λ x, y ← g x; mret [y]) = Ok ys →
  Forall2 (λ x y, g x = Ok y) xs ys.
Proof.
  revert ys. induction xs as [|x xs IH]; intros ys Hrun.
  - injection Hrun as <-. constructor.
  - simpl in Hrun. apply result_bind_ok in Hrun as (v & Hv & Hrun).
    apply result_bind_ok in Hv as (y & Hy & [= <-]).
    apply result_bind_ok in Hrun as (vs & Hvs & [= <-]).
    constructor; [done|]. by apply IH.
Qed.

(** The fields of a document that [__scrape_pokemon] returns. *)
Lemma scrape_pokemon_header int lower url_ soup pkmn :
  __scrape_pokemon int lower url_ soup = Ok pkmn →
  url pkmn = url_ ∧
  name pkmn = strip blanks (title_name soup) ∧
  int (strip blanks_hash (title_number soup)) = Some (number pkmn) ∧
  evolutions pkmn = __scrape_evolutions soup ∧
  List.length (formes pkmn) = List.length (__scrape_formes soup).
Proof.
  unfold __scrape_pokemon, __scrape_number. intros Hrun.
  destruct (int (strip blanks_hash (title_number soup))) as [n|] eqn:Hint;
    [|discriminate].
  cbn [mbind result_bind] in Hrun.
  apply result_bind_ok in Hrun as (misc_info & Hmisc & Hrun).
  apply result_bind_ok in Hrun as (forms & Hforms & [= <-]).
  apply for__singletons in Hforms. cbn [url name number evolutions formes].
  repeat (split; [done|]). symmetry. by eapply Forall2_length.
Qed.

(** The form at a position of a document that [__scrape_pokemon]
    returns. *)
Lemma scrape_pokemon_forms int lower url_ soup pkmn i label :
  __scrape_pokemon int lower url_ soup = Ok pkmn →
  NoDup (__scrape_formes soup) →
  __scrape_formes soup !! i = Some label →
  ∃ image descs tys form_info misc,
    images_tag soup !! i = Some image ∧
    descriptions_tag soup !! i = Some descs ∧
    types_tag soup !! i = Some tys ∧
    info_tag soup !! i = Some form_info ∧
    scrape_form_info lower form_info = Ok misc ∧
    formes pkmn !! i =
      Some (misc ∪
            <["types" := VList (strip blanks <$> tys)]>
              (<["descriptions" := VList (strip blanks <$> descs)]>
                 (<["image" := VStr image]> {["form" := VStr label]}))).
Proof.
  unfold __scrape_pokemon, __scrape_number. intros Hrun Hnodup Hi.
  destruct (int (strip blanks_hash (title_number soup))) as [n|] eqn:Hint;
    [|discriminate].
  cbn [mbind result_bind] in Hrun.
  apply result_bind_ok in Hrun as (misc_info & Hmisc & Hrun).
  apply result_bind_ok in Hrun as (forms & Hforms & [= <-]).
  apply for__singletons in Hforms. cbn [formes].
  destruct (Forall2_lookup_l _ _ _ _ _ Hforms Hi) as (d & Hd & Hdict).
  unfold form_dict in Hdict.
  assert (__scrape_images soup (__scrape_formes soup) !! label = images_tag soup !! i ∧
          __scrape_descriptions soup (__scrape_formes soup) !! label =
            fmap (strip blanks) <$> descriptions_tag soup !! i ∧
          __scrape_types soup (__scrape_formes soup) !! label =
            fmap (strip blanks) <$> types_tag soup !! i)
    as (Himages & Hdescs & Htypes).
  { unfold __scrape_images, __scrape_descriptions, __scrape_types.
    rewrite !(zip_into_lookup _ _ _ i) by done.
    split; [|done]. by destruct (images_tag soup !! i). }
  pose proof (scrape_misc_info_lookup lower soup _ misc_info i label Hnodup Hi Hmisc)
    as Hinfo.
  apply result_bind_ok in Hdict as (image & Himage & Hdict).
  apply result_bind_ok in Hdict as (descs' & Hdescs' & Hdict).
  apply result_bind_ok in Hdict as (tys' & Htys' & Hdict).
  apply result_bind_ok in Hdict as (misc & Hmisc' & [= <-]).
  apply getitem_ok in Himage, Hdescs', Htys', Hmisc'.
  rewrite Himages in Himage. rewrite Hdescs in Hdescs'. rewrite Htypes in Htys'.
  destruct (descriptions_tag soup !! i) as [descs|]; [|discriminate].
  destruct (types_tag soup !! i) as [tys|]; [|discriminate].
  destruct (info_tag soup !! i) as [form_info|]; [|congruence].
  destruct Hinfo as (misc0 & Hscrape & Hlook).
  assert (misc0 = misc) as -> by congruence.
  injection Hdescs' as <-. injection Htys' as <-.
  exists image, descs, tys, form_info, misc. by rewrite Hd.
Qed.

(** X3. A document that [__scrape_pokemon] returns carries the URL given,
    the stripped name, the number that [int] reads and the evolutions of
    the page, and one form per label, in the order of the labels. With
    pairwise distinct labels, the form at a position is assembled from the
    image, the descriptions, the types and the region that the page shows
    at that position, the entries of the region taking precedence. *)
Theorem scrape_pokemon_assembles_by_position
    (int : string → option Z) (lower : string → string)
    (url_ : string) (soup : page) (pkmn : pokemon_doc) :
  __scrape_pokemon int lower url_ soup = Ok pkmn →
  url pkmn = url_ ∧
  name pkmn = strip blanks (title_name soup) ∧
  int (strip blanks_hash (title_number soup)) = Some (number pkmn) ∧
  evolutions pkmn = __scrape_evolutions soup ∧
  List.length (formes pkmn) = List.length (__scrape_formes soup) ∧
  (NoDup (__scrape_formes soup) →
   ∀ i label, __scrape_formes soup !! i = Some label →
     ∃ image descs tys form_info misc,
       images_tag soup !! i = Some image ∧
       descriptions_tag soup !! i = Some descs ∧
       types_tag soup !! i = Some tys ∧
       info_tag soup !! i = Some form_info ∧
       scrape_form_info lower form_info = Ok misc ∧
       formes pkmn !! i =
         Some (misc ∪
               <["types" := VList (strip blanks <$> tys)]>
                 (<["descriptions" := VList (strip blanks <$> descs)]>
                    (<["image" := VStr image]> {["form" := VStr label]})))).
Proof.
  intros Hrun.
  destruct (scrape_pokemon_header int lower url_ soup pkmn Hrun)
    as (Hurl & Hname & Hnumber & Hevos & Hlen).
  repeat (split; [done|]). intros Hnodup i label Hi.
  by apply (scrape_pokemon_forms int lower url_ soup pkmn i label).
Qed.

(** The page of Eevee, scraped. *)
Lemma scrape_pokemon_assembles_by_position_witness :
  ∃ pkmn,
    __scrape_pokemon decimal lower_ascii
      "https://www.pokemon.com/us/pokedex/eevee" eevee_page = Ok pkmn ∧
    name pkmn = strip blanks (title_name eevee_page) ∧
    List.length (formes pkmn) = List.length (__scrape_formes eevee_page).
Proof.
  eexists. split; [vm_compute; reflexivity|].
  match goal with
  | |- name ?p = _ ∧ _ =>
      destruct (scrape_pokemon_assembles_by_position decimal lower_ascii
                  "https://www.pokemon.com/us/pokedex/eevee" eevee_page p)
        as (_ & Hname & _ & _ & Hlen & _); [vm_compute; reflexivity|]
  end.
  split; [exact Hname|exact Hlen].
Defined.

(** X4. On a page without formes tag, a document that [__scrape_pokemon]
    returns has exactly one form, assembled from the first image, the first
    descriptions, the first types and the first region of the page, and
    labeled with the name of the pokemon unless the region has an entry
    under the key form itself. *)
Theorem single_form_named_after_pokemon
    (int : string → option Z) (lower : string → string)
    (url_ : string) (soup : page) (pkmn : pokemon_doc) :
  formes_tag soup = None →
  __scrape_pokemon int lower url_ soup = Ok pkmn →
  ∃ image descs tys form_info misc form,
    images_tag soup !! 0%nat = Some image ∧
    descriptions_tag soup !! 0%nat = Some descs ∧
    types_tag soup !! 0%nat = Some tys ∧
    info_tag soup !! 0%nat = Some form_info ∧
    scrape_form_info lower form_info = Ok misc ∧
    formes pkmn = [form] ∧
    form = misc ∪
           <["types" := VList (strip blanks <$> tys)]>
             (<["descriptions" := VList (strip blanks <$> descs)]>
                (<["image" := VStr image]> {["form" := VStr (name pkmn)]})) ∧
    (misc !! "form" = None → form !! "form" = Some (VStr (name pkmn))).
Proof.
  intros Hnone Hrun.
  destruct (scrape_pokemon_header int lower url_ soup pkmn Hrun)
    as (_ & Hname & _ & _ & Hlen).
  assert (__scrape_formes soup = [name pkmn]) as Hlabels.
  { unfold __scrape_formes, __scrape_name. by rewrite Hnone, Hname. }
  destruct (scrape_pokemon_forms int lower url_ soup pkmn 0 (name pkmn) Hrun)
    as (image & descs & tys & form_info & misc & Himage & Hdescs & Htys & Hinfo
        & Hmisc & Hform).
  { rewrite Hlabels. apply NoDup_singleton. }
  { by rewrite Hlabels. }
  rewrite Hlabels in Hlen.
  eexists image, descs, tys, form_info, misc, _.
  repeat (split; [done|]). split; [|split; [reflexivity|]].
  - destruct (formes pkmn) as [|form [|? ?]]; try discriminate.
    simpl in Hform. by injection Hform as ->.
  - intros Hfree. rewrite lookup_union, Hfree.
    rewrite !lookup_insert_ne, lookup_singleton_eq by discriminate. reflexivity.
Qed.

(** The page of Eevee, which has no formes tag. *)
Lemma single_form_named_after_pokemon_witness :
  ∃ pkmn form,
    __scrape_pokemon decimal lower_ascii
      "https://www.pokemon.com/us/pokedex/eevee" eevee_page = Ok pkmn ∧
    formes pkmn = [form] ∧
    form !! "form" = Some (VStr (name pkmn)).
Proof.
  eexists. 
  match goal with
  | |- ∃ form, ?run = Ok ?p ∧ _ =>
      assert (run = Ok p) as Hrun by (vm_compute; reflexivity)
  end.
  destruct (single_form_named_after_pokemon decimal lower_ascii _ eevee_page _
              eq_refl Hrun)
    as (image & descs & tys & form_info & misc & form & _ & _ & _ & Hinfo & Hmisc
        & Hforms & _ & Hlabel).
  exists form. split; [exact Hrun|]. split; [exact Hforms|]. apply Hlabel.
  injection Hinfo as <-. vm_compute in Hmisc. injection Hmisc as <-.
  vm_compute. reflexivity.
Defined.

(** ** The region of a form *)

Lemma scrape_genders_ok v :
  (∀ icon, icon ∈ icons v → is_Some (icon !! 1%nat)) →
  is_ok (scrape_genders v) = true.
Proof.
  intros Hicons. unfold scrape_genders. case_bool_decide; [|done].
  rewrite (for__ok _ _ (λ icon,
             match icon !! 1%nat with
             | Some class2 => if occurs "female" class2 then ["Female"] else ["Male"]
             | None => []
             end)); [done|].
  intros icon Hicon. destruct (Hicons icon Hicon) as [class2 Hclass2].
  unfold index. rewrite Hclass2. simpl. by destruct (occurs "female" class2).
Qed.

(** X5. The extractor of a region raises no exception other than
    IndexError. It raises IndexError when the region has fewer than four
    titles or fewer than four values; with four of each at least, and a
    second style class on every icon of the third value, it returns. *)
Theorem scrape_form_info_bounds (lower : string → string) (form_info : ability_info) :
  (∀ e, scrape_form_info lower form_info = Err e → e = IndexError) ∧
  ((List.length (titles form_info) < 4 ∨ List.length (values form_info) < 4)%nat →
   scrape_form_info lower form_info = Err IndexError) ∧
  ((4 ≤ List.length (titles form_info))%nat →
   (4 ≤ List.length (values form_info))%nat →
   (∀ v2 icon, values form_info !! 2%nat = Some v2 → icon ∈ icons v2 →
               is_Some (icon !! 1%nat)) →
   is_ok (scrape_form_info lower form_info) = true).
Proof.
  split; [exact (scrape_form_info_raises_index lower form_info)|]. split.
  - intros Hshort.
    destruct (scrape_form_info lower form_info) as [d|e] eqn:Hrun.
    + exfalso. unfold scrape_form_info in Hrun.
      destruct form_info as [ts vs]. simpl in *.
      repeat match type of Hrun with
      | _ ≫= _ = Ok _ =>
          let x := fresh "x" in let Hx := fresh "Hx" in
          apply result_bind_ok in Hrun as (x & Hx & Hrun)
      end.
      unfold index in *.
      repeat match goal with
      | H : match ?l !! ?i with _ => _ end = Ok _ |- _ =>
          let Hl := fresh "Hl" in
          destruct (l !! i) eqn:Hl; [|discriminate];
          apply lookup_lt_Some in Hl; clear H
      end.
      lia.
    + by rewrite (scrape_form_info_raises_index lower form_info e Hrun).
  - intros Hts Hvs Hicons. unfold scrape_form_info.
    destruct form_info as [ts vs]. simpl in *.
    destruct ts as [|t0 [|t1 [|t2 [|t3 ts]]]]; simpl in Hts; try lia.
    destruct vs as [|v0 [|v1 [|v2 [|v3 vs]]]]; simpl in Hvs; try lia.
    cbn [index lookup list_lookup mbind result_bind].
    pose proof (scrape_genders_ok v2 (λ icon, Hicons v2 icon eq_refl)) as Hgenders.
    destruct (scrape_genders v2) as [genders|]; [|discriminate].
    cbn [mbind result_bind].
    destruct ((4 <? _)%nat && (4 <? _)%nat) eqn:Hsection; [|done].
    apply andb_true_iff in Hsection as [Hts' _].
    apply Nat.ltb_lt in Hts'. destruct ts; [simpl in Hts'; lia|]. done.
Qed.

Lemma scrape_form_info_bounds_witness :
  scrape_form_info lower_ascii {| titles := ["Height"]; values := [] |} = Err IndexError ∧
  is_ok (scrape_form_info lower_ascii eevee_info) = true.
Proof.
  split.
  - apply (proj1 (proj2 (scrape_form_info_bounds lower_ascii _))). simpl. lia.
  - apply (proj2 (proj2 (scrape_form_info_bounds lower_ascii eevee_info)));
      [simpl; lia|simpl; lia|].
    intros v2 icon Hv2 Hicon. injection Hv2 as <-.
    apply list_elem_of_In in Hicon. simpl in Hicon.
    destruct Hicon as [<-|[<-|[]]]; by eexists.
Defined.

(** X6. With an ability section, that is more than four titles and more
    than four values, the dictionary of a region holds under its fifth
    title the stripped texts of all values from the fifth on; titles beyond
    the fifth name nothing. *)
Theorem ability_section_lists_surplus_values (lower : string → string)
    (form_info : ability_info) (d : gmap string value) :
  scrape_form_info lower form_info = Ok d →
  (4 < List.length (titles form_info))%nat →
  (4 < List.length (values form_info))%nat →
  ∃ t4 abilities,
    titles form_info !! 4%nat = Some t4 ∧
    abilities = (λ a, strip blanks (text a)) <$> drop 4 (values form_info) ∧
    abilities ≠ [] ∧
    d !! lower t4 = Some (VList abilities).
Proof.
  intros Hrun Hts Hvs. unfold scrape_form_info in Hrun.
  repeat match type of Hrun with
  | _ ≫= _ = Ok _ =>
      let x := fresh "x" in let Hx := fresh "Hx" in
      apply result_bind_ok in Hrun as (x & Hx & Hrun)
  end.
  apply Nat.ltb_lt in Hts as Hts'. apply Nat.ltb_lt in Hvs as Hvs'.
  rewrite Hts', Hvs' in Hrun. simpl in Hrun.
  apply result_bind_ok in Hrun as (t4 & Ht4 & Hrun).
  unfold index in Ht4. destruct (titles form_info !! 4%nat) as [t|] eqn:Hl; [|discriminate].
  injection Ht4 as ->. injection Hrun as <-.
  exists t4, ((λ a, strip blanks (text a)) <$> drop 4 (values form_info)).
  split_and!; [done|done| |by rewrite lookup_insert_eq].
  intros Hnil. apply fmap_nil_inv in Hnil.
  apply (f_equal List.length) in Hnil. rewrite length_drop in Hnil.
  simpl in Hnil. lia.
Qed.

Lemma ability_section_lists_surplus_values_witness :
  match scrape_form_info lower_ascii eevee_full_info with
  | Ok d => d !! "abilities" = Some (VList ["Run Away"; "Adaptability"])
  | Err _ => False
  end.
Proof.
  destruct (scrape_form_info lower_ascii eevee_full_info) as [d|e] eqn:Hrun;
    [|vm_compute in Hrun; discriminate].
  destruct (ability_section_lists_surplus_values lower_ascii eevee_full_info d Hrun)
    as (t4 & abilities & Ht4 & -> & _ & Hd);
    [vm_compute; lia|vm_compute; lia|].
  vm_compute in Ht4. injection Ht4 as <-. exact Hd.
Defined.

(** ** Lineages *)

Lemma combine_evos_snoc evos_list dic :
  combine_evos (evos_list ++ [dic]) = dic ∪ combine_evos evos_list.
Proof. unfold combine_evos. by rewrite foldl_app. Qed.

(** The merged dictionary holds under a key what the last dictionary with
    that key holds. *)
Lemma combine_evos_lookup (evos_list : lineage) key :
  (∀ i dic names,
     evos_list !! i = Some dic → dic !! key = Some names →
     (∀ j dic', (i < j)%nat → evos_list !! j = Some dic' → dic' !! key = None) →
     combine_evos evos_list !! key = Some names) ∧
  ((∀ dic, dic ∈ evos_list → dic !! key = None) →
   combine_evos evos_list !! key = None).
Proof.
  induction evos_list as [|dic0 evos_list [IHsome IHnone]] using rev_ind.
  { split; [intros i dic names Hi; by rewrite lookup_nil in Hi|done]. }
  rewrite combine_evos_snoc. split.
  - intros i dic names Hi Hdic Hlater.
    destruct (dic0 !! key) as [names0|] eqn:Hdic0.
    + erewrite lookup_union_Some_l by done.
      destruct (decide (i = List.length evos_list)) as [->|Hne].
      * rewrite lookup_app_r, Nat.sub_diag in Hi by lia.
        injection Hi as <-. congruence.
      * assert (i < List.length evos_list)%nat as Hlt.
        { apply lookup_lt_Some in Hi. rewrite length_app in Hi. simpl in Hi. lia. }
        rewrite (Hlater (List.length evos_list) dic0 Hlt) in Hdic0; [done|].
        by rewrite lookup_app_r, Nat.sub_diag by lia.
    + rewrite lookup_union_r by done.
      destruct (decide (i = List.length evos_list)) as [->|Hne].
      * rewrite lookup_app_r, Nat.sub_diag in Hi by lia.
        injection Hi as <-. congruence.
      * assert (i < List.length evos_list)%nat as Hlt.
        { apply lookup_lt_Some in Hi. rewrite length_app in Hi. simpl in Hi. lia. }
        rewrite lookup_app_l in Hi by done.
        apply (IHsome i dic names Hi Hdic).
        intros j dic' Hj Hdic'. apply (Hlater j dic' Hj).
        rewrite lookup_app_l; [done|]. by apply lookup_lt_Some in Hdic'.
  - intros Hall. rewrite lookup_union_r.
    + apply IHnone. intros dic Hdic. apply Hall. apply elem_of_app. by left.
    + apply Hall. apply elem_of_app. right. by apply list_elem_of_singleton.
Qed.

(** X7. Scraper and loader composed on a lineage: the merged dictionary
    holds under a position the stripped names of the last spot of the page
    with that position, earlier spots of the same position being
    overwritten; a position that no spot has is absent. *)
Theorem repeated_spot_keeps_last (soup : page) (spots : list (string * list string))
    (spot : string) :
  evolutions_tag soup = Some spots →
  (∀ i names,
     spots !! i = Some (spot, names) →
     (∀ j s, (i < j)%nat → spots !! j = Some s → s.1 ≠ spot) →
     combine_evos (__scrape_evolutions soup) !! spot = Some (strip blanks <$> names)) ∧
  (spot ∉ spots.*1 → combine_evos (__scrape_evolutions soup) !! spot = None).
Proof.
  intros Htag. unfold __scrape_evolutions. rewrite Htag.
  destruct (combine_evos_lookup
    ((λ s : string * list string,
        ({[s.1 := strip blanks <$> s.2]} : gmap string (list string))) <$> spots) spot)
    as [Hsome Hnone].
  split.
  - intros i names Hi Hlater.
    apply (Hsome i {[spot := strip blanks <$> names]}).
    + rewrite list_lookup_fmap, Hi. done.
    + by rewrite lookup_singleton_eq.
    + intros j dic' Hj Hdic'. rewrite list_lookup_fmap in Hdic'.
      destruct (spots !! j) as [s|] eqn:Hs; [|discriminate].
      injection Hdic' as <-. apply lookup_singleton_ne. by apply (Hlater j).
  - intros Hnot. apply Hnone. intros dic Hdic.
    apply list_elem_of_fmap in Hdic as (s & -> & Hs).
    apply lookup_singleton_ne. intros <-. apply Hnot.
    apply list_elem_of_fmap. by exists s.
Qed.

Lemma repeated_spot_keeps_last_witness :
  combine_evos (__scrape_evolutions eevee_page) !! "first" = Some ["Eevee"].
Proof.
  apply (proj1 (repeated_spot_keeps_last eevee_page _ "first" eq_refl) 0%nat ["Eevee"] eq_refl).
  intros j s Hj Hs. destruct j; [lia|]. discriminate Hs.
Defined.

(** * Further properties of the loader *)

(** ** The pokemon table *)

Lemma key_violation_pokemon rows pokemon number_ :
  key_violation Tpokemon rows [SText pokemon; SInt number_] = true ↔ named rows pokemon.
Proof.
  unfold key_violation, named. rewrite existsb_exists. split.
  - intros (r & Hr & Hkey). exists r. split; [by apply list_elem_of_In|].
    apply bool_decide_eq_true_1 in Hkey. unfold key_of in Hkey. simpl in Hkey. congruence.
  - intros (r & Hr & Hkey). exists r. split; [by apply list_elem_of_In|].
    apply bool_decide_eq_true_2. unfold key_of. simpl. congruence.
Qed.

Lemma bind_pokemon_values name_ number_ :
  bind_params [PText name_; PInt number_] =
    if int64 number_ then Ok [SText name_; SInt number_] else Err OverflowError.
Proof. simpl. by destruct (int64 number_). Qed.

(** [insert_pokemon_table] by the size of the number and the state of the
    key column. *)
Lemma insert_pokemon_table_cases (pkmn : pokemon_doc) (cur : cursor) :
  let r := [SText (name pkmn); SInt (number pkmn)] in
  (int64 (number pkmn) = false →
   insert_pokemon_table pkmn cur = (Err OverflowError, cur)) ∧
  (int64 (number pkmn) = true →
   ¬ named (t_pokemon (db cur)) (name pkmn) →
   insert_pokemon_table pkmn cur =
     (Ok tt, {| db := append_row (db cur) Tpokemon r;
                log := log cur ++ [INSERT Tpokemon r]; pending := [];
                committed := committed cur |})) ∧
  (int64 (number pkmn) = true →
   named (t_pokemon (db cur)) (name pkmn) →
   insert_pokemon_table pkmn cur =
     (Err IntegrityError,
      {| db := db cur; log := log cur ++ [INSERT Tpokemon r]; pending := [];
         committed := committed cur |})).
Proof.
  intros r. unfold insert_pokemon_table. cbv zeta.
  pose proof (bind_pokemon_values (name pkmn) (number pkmn)) as Hvalues.
  destruct (execute_insert_cases Tpokemon [PText (name pkmn); PInt (number pkmn)] cur)
    as [(e & Hbind & ->)|[(r' & Hbind & Hviol & ->)|(r' & Hbind & _ & Hkey & ->)]];
    rewrite Hbind in Hvalues; destruct (int64 (number pkmn)); try discriminate.
  - injection Hvalues as ->. by split_and!.
  - injection Hvalues as ->. split_and!; try done. intros _ Hnamed.
    destruct Hnamed. apply (key_violation_pokemon _ _ (number pkmn)). exact Hviol.
  - injection Hvalues as ->. split_and!; try done. intros _ Hnamed.
    apply (key_violation_pokemon _ _ (number pkmn)) in Hnamed.
    change (table (db cur) Tpokemon) with (t_pokemon (db cur)) in Hkey. congruence.
Qed.

(** X8. [insert_pokemon_table] returns exactly when the number fits 8 bytes
    and no row of the pokemon table has the name of the document, and then
    appends the row of name and number. A number beyond 8 bytes raises
    OverflowError before any statement is executed. A number that fits with
    a name that is taken raises IntegrityError, the database being as
    before. *)
Theorem insert_pokemon_table_iff_fresh (pkmn : pokemon_doc) (cur : cursor) :
  ((insert_pokemon_table pkmn cur).1 = Ok tt ↔
   int64 (number pkmn) = true ∧ ¬ named (t_pokemon (db cur)) (name pkmn)) ∧
  ((insert_pokemon_table pkmn cur).1 = Ok tt →
   db (insert_pokemon_table pkmn cur).2 =
     append_row (db cur) Tpokemon [SText (name pkmn); SInt (number pkmn)]) ∧
  (int64 (number pkmn) = false →
   insert_pokemon_table pkmn cur = (Err OverflowError, cur)) ∧
  (int64 (number pkmn) = true →
   named (t_pokemon (db cur)) (name pkmn) →
   (insert_pokemon_table pkmn cur).1 = Err IntegrityError ∧
   db (insert_pokemon_table pkmn cur).2 = db cur).
Proof.
  destruct (insert_pokemon_table_cases pkmn cur) as (Hover & Hfresh & Htaken).
  pose proof (key_violation_pokemon (t_pokemon (db cur)) (name pkmn) (number pkmn))
    as Hkey.
  destruct (int64 (number pkmn)).
  - destruct (key_violation Tpokemon (t_pokemon (db cur)) _).
    + rewrite (Htaken eq_refl (proj1 Hkey eq_refl)). simpl. split_and!; try done.
      split; [discriminate|]. intros [_ Hnot]. destruct Hnot. by apply Hkey.
    + assert (¬ named (t_pokemon (db cur)) (name pkmn)) as Hnot.
      { intros Hnamed. apply Hkey in Hnamed. discriminate. }
      rewrite (Hfresh eq_refl Hnot). simpl. split_and!; done.
  - rewrite (Hover eq_refl). simpl. split_and!; try done.
    split; [discriminate|]. by intros [? _].
Qed.

Lemma insert_pokemon_table_iff_fresh_witness :
  (insert_pokemon_table bulbasaur fresh_cursor).1 = Ok tt.
Proof.
  apply (proj1 (insert_pokemon_table_iff_fresh bulbasaur fresh_cursor)).
  split; [reflexivity|]. intros (r & Hr & _). by apply elem_of_nil in Hr.
Defined.

Lemma named_grows c c' pokemon :
  grows c c' → named (t_pokemon (db c)) pokemon → named (t_pokemon (db c')) pokemon.
Proof.
  intros Hgrows (r & Hr & Hname). exists r. split; [|done].
  destruct (Hgrows Tpokemon) as [more Hmore]. simpl in Hmore. rewrite Hmore.
  apply elem_of_app. by left.
Qed.

(** A pokemon whose load returned has its name in the pokemon table. *)
Lemma insert_pokemon_named pkmn cur cur' :
  insert_pokemon pkmn cur = (Ok tt, cur') → named (t_pokemon (db cur')) (name pkmn).
Proof.
  intros Hrun. unfold insert_pokemon in Hrun.
  apply io_bind_ok in Hrun as ([] & c1 & Htable & Hrun).
  assert (named (t_pokemon (db c1)) (name pkmn)) as Hnamed.
  { unfold insert_pokemon_table in Htable.
    destruct (execute_insert_cases Tpokemon [PText (name pkmn); PInt (number pkmn)] cur)
      as [(e & _ & Heq)|[(r & _ & _ & Heq)|(r & Hbind & _ & _ & Heq)]];
      rewrite Heq in Htable; try discriminate.
    injection Htable as <-. rewrite bind_pokemon_values in Hbind.
    destruct (int64 (number pkmn)); [|discriminate]. injection Hbind as <-.
    exists [SText (name pkmn); SInt (number pkmn)]. split; [|done]. simpl.
    apply elem_of_app. right. by apply list_elem_of_singleton. }
  apply (named_grows c1); [|done].
  assert (steps grows (_ ← insert_formes_table pkmn;
                       _ ← insert_form_descriptions_table pkmn;
                       _ ← insert_form_abilities_table pkmn;
                       insert_evolutions_table pkmn)) as Hgrows.
  { unfold_loader. steps_with grows_prim. }
  specialize (Hgrows c1). by rewrite Hrun in Hgrows.
Qed.

Lemma for_io_grows (loaded : list pokemon_doc) cur :
  grows cur (for_io loaded insert_pokemon cur).2.
Proof. apply steps_for_io; try exact _. apply grows_insert_pokemon. Qed.

#[global] Instance keeps_committed_refl : Reflexive keeps_committed.
Proof. by intros c. Qed.
#[global] Instance keeps_committed_trans : Transitive keeps_committed.
Proof. intros c1 c2 c3 H1 H2. unfold keeps_committed in *. congruence. Qed.

Lemma keeps_committed_insert t values : steps keeps_committed (execute_insert t values).
Proof.
  intros cur.
  destruct (execute_insert_cases t values cur)
    as [(e & _ & ->)|[(r & _ & _ & ->)|(r & _ & _ & _ & ->)]]; reflexivity.
Qed.

Lemma keeps_committed_select t columns args :
  steps keeps_committed (execute_select t columns args).
Proof.
  intros cur.
  destruct (execute_select_cases t columns args cur)
    as [(e & _ & ->)|(vs & rows & _ & ->)]; reflexivity.
Qed.

Lemma keeps_committed_fetchall : steps keeps_committed fetchall.
Proof. by intros cur. Qed.

(** Nothing is committed while the documents are loaded. *)
Lemma keeps_committed_insert_pokemon pkmn : steps keeps_committed (insert_pokemon pkmn).
Proof.
  unfold_loader.
  steps_with ltac:(first [ apply keeps_committed_insert
                         | apply keeps_committed_select
                         | apply keeps_committed_fetchall ]).
Qed.

(** X9. When the documents up to some point load without error, a later
    document with the name of one of them, and with a number that fits 8
    bytes, ends the run: [fill_sqlite_db] raises IntegrityError at it and
    the documents behind it are not loaded. The connection then sees the
    rows of the earlier documents, but the commit is not reached: the
    database file is as it was before the run, without any row of the
    run. *)
Theorem reload_raises_integrity_error
    (before between after : list pokemon_doc) (pkmn1 pkmn2 : pokemon_doc)
    (cur cur' : cursor) :
  name pkmn2 = name pkmn1 →
  int64 (number pkmn2) = true →
  fill_sqlite_db [] (before ++ pkmn1 :: between) cur = (Ok tt, cur') →
  ∃ cur'',
    fill_sqlite_db [] (before ++ pkmn1 :: between ++ pkmn2 :: after) cur
      = (Err IntegrityError, cur'') ∧
    db cur'' = db cur' ∧
    committed cur'' = committed cur.
Proof.
  intros Hname Hsize Hrun.
  assert (∀ l, fill_sqlite_db [] l cur = (_ ← for_io l insert_pokemon; commit) cur)
    as Hfill by reflexivity.
  rewrite Hfill in Hrun |- *.
  apply io_bind_ok in Hrun as ([] & cur1 & Hrun & Hcommit).
  injection Hcommit as <-. cbn [db].
  assert (named (t_pokemon (db cur1)) (name pkmn2)) as Hnamed.
  { rewrite Hname. rewrite for_io_app in Hrun.
    destruct (for_io before insert_pokemon cur) as [[[]|e] c1]; [|discriminate].
    simpl in Hrun. apply io_bind_ok in Hrun as ([] & c2 & Hload & Hrun).
    apply (named_grows c2); [|by apply (insert_pokemon_named pkmn1 c1)].
    pose proof (for_io_grows between c2) as Hgrows. by rewrite Hrun in Hgrows. }
  assert (committed cur1 = committed cur) as Hfile.
  { pose proof (steps_for_io keeps_committed (before ++ pkmn1 :: between)
                  insert_pokemon keeps_committed_insert_pokemon cur) as Hkeeps.
    by rewrite Hrun in Hkeeps. }
  replace (before ++ pkmn1 :: between ++ pkmn2 :: after)
    with ((before ++ pkmn1 :: between) ++ pkmn2 :: after)
    by (by rewrite <- (assoc_L (++))).
  unfold mbind at 1, io_bind at 1. rewrite for_io_app, Hrun. cbn [for_io].
  unfold mbind at 1, io_bind at 1. unfold insert_pokemon at 1.
  unfold mbind at 1, io_bind at 1.
  pose proof (insert_pokemon_table_cases pkmn2 cur1) as (_ & _ & Hraise).
  rewrite (Hraise Hsize Hnamed). eexists. split; [reflexivity|]. by split.
Qed.

Lemma reload_raises_integrity_error_witness :
  (fill_sqlite_db [] [bulbasaur; ivysaur; bulbasaur] fresh_cursor).1
    = Err IntegrityError ∧
  committed (fill_sqlite_db [] [bulbasaur; ivysaur; bulbasaur] fresh_cursor).2
    = create_sqlite_db.
Proof.
  destruct (fill_sqlite_db [] ([] ++ bulbasaur :: [ivysaur]) fresh_cursor)
    as [r cur'] eqn:Hrun.
  assert (r = Ok tt) as -> by (vm_compute in Hrun; congruence).
  destruct (reload_raises_integrity_error [] [ivysaur] [] bulbasaur bulbasaur
              fresh_cursor cur' eq_refl eq_refl Hrun) as (cur'' & Heq & _ & Hfile).
  simpl app in Heq. rewrite Heq. by split.
Defined.

(** ** The formes table *)

(** X10. The row [insert_formes_table] stores for a form: the name of the
    pokemon, the label, height, weight and category of the form, its first
    type, its second type or NULL when it has one type only (types beyond
    the second are left out), and the two gender flags. A run of the loop
    body that returns has found all these entries, and the five texts were
    strings. *)
Theorem formes_row_types_and_genders
    (pkmn : pokemon_doc) (form : gmap string value) (cur cur' : cursor) :
  insert_formes_table_body pkmn form cur = (Ok tt, cur') →
  ∃ label height weight category types gender type1,
    form !! "form" = Some (VStr label) ∧
    form !! "height" = Some (VStr height) ∧
    form !! "weight" = Some (VStr weight) ∧
    form !! "category" = Some (VStr category) ∧
    form !! "types" = Some types ∧
    form !! "gender" = Some gender ∧
    elems types !! 0%nat = Some type1 ∧
    db cur' = append_row (db cur) Tformes
      [SText (name pkmn); SText label; SText height; SText weight;
       SText category; SText type1;
       from_option SText SNull (elems types !! 1%nat);
       SInt (if contains "Male" gender then 1 else 0);
       SInt (if contains "Female" gender then 1 else 0)].
Proof.
  unfold insert_formes_table_body. intros Hrun. invert_io Hrun.
  apply result_bind_ok in Ha as (types & Htypes & Htype1).
  apply result_bind_ok in Ha0 as (types' & Htypes' & Htype2).
  apply result_bind_ok in Ha1 as (gender & Hgender & Hmale).
  apply result_bind_ok in Ha2 as (gender' & Hgender' & Hfemale).
  apply result_bind_ok in Ha3 as (form_ & Hform & Ha3).
  apply result_bind_ok in Ha3 as (height & Hheight & Ha3).
  apply result_bind_ok in Ha3 as (weight & Hweight & Ha3).
  apply result_bind_ok in Ha3 as (category & Hcategory & Ha3).
  apply getitem_ok in Htypes, Htypes', Hgender, Hgender', Hform, Hheight,
    Hweight, Hcategory.
  assert (types' = types) as -> by congruence.
  assert (gender' = gender) as -> by congruence.
  injection Ha3 as <-. injection Hmale as <-. injection Hfemale as <-.
  unfold index in Htype1.
  destruct (elems types !! 0%nat) as [type1|] eqn:Hfirst; [|discriminate].
  injection Htype1 as <-.
  assert (bind_param a0 = Ok (from_option SText SNull (elems types !! 1%nat)))
    as Hsecond.
  { destruct (List.length (elems types) <? 2)%nat eqn:Hlen.
    - injection Htype2 as <-. apply Nat.ltb_lt in Hlen.
      rewrite (lookup_ge_None_2 (elems types) 1) by lia. done.
    - apply result_bind_ok in Htype2 as (types' & Htypes'' & Htype2).
      unfold index in Htype2.
      destruct (elems types' !! 1%nat) as [type2|] eqn:Hsnd; [|discriminate].
      injection Htype2 as <-. apply getitem_ok in Htypes''.
      assert (types' = types) as -> by congruence. by rewrite Hsnd. }
  destruct (execute_insert_cases Tformes
    [PText (name pkmn); to_param form_; to_param height; to_param weight;
     to_param category; PText type1; a0;
     PInt (if contains "Male" gender then 1 else 0);
     PInt (if contains "Female" gender then 1 else 0)] cur)
    as [(e & _ & Heq)|[(r & _ & _ & Heq)|(r & Hr & _ & _ & Heq)]];
    rewrite Heq in Hrun; try discriminate.
  injection Hrun as <-.
  destruct form_ as [label|]; [|discriminate Hr].
  destruct height as [height|]; [|discriminate Hr].
  destruct weight as [weight|]; [|discriminate Hr].
  destruct category as [category|]; [|discriminate Hr].
  exists label, height, weight, category, types, gender, type1.
  repeat (split; [done|]).
  destruct (contains "Male" gender), (contains "Female" gender);
    simpl in Hr; rewrite Hsecond in Hr; simpl in Hr; by injection Hr as <-.
Qed.

Lemma formes_row_types_and_genders_witness :
  ∃ cur', insert_formes_table_body ivysaur female_grass_form fresh_cursor
            = (Ok tt, cur') ∧
          t_formes (db cur') =
            [[SText "Ivysaur"; SText "Ivysaur"; SText "3 03"; SText "28.7 lbs";
              SText "Seed"; SText "Grass"; SNull; SInt 0; SInt 1]].
Proof.
  destruct (insert_formes_table_body ivysaur female_grass_form fresh_cursor)
    as [r cur'] eqn:Hrun.
  assert (r = Ok tt) as -> by (vm_compute in Hrun; congruence).
  exists cur'. split; [reflexivity|].
  destruct (formes_row_types_and_genders ivysaur female_grass_form fresh_cursor cur' Hrun)
    as (label & height & weight & category & types & gender & type1
        & Hlabel & Hheight & Hweight & Hcategory & Htypes & Hgender & Htype1 & ->).
  vm_compute in Hlabel, Hheight, Hweight, Hcategory, Htypes, Hgender.
  injection Hlabel as <-. injection Hheight as <-. injection Hweight as <-.
  injection Hcategory as <-. injection Htypes as <-. injection Hgender as <-.
  injection Htype1 as <-. reflexivity.
Defined.

(** ** The abilities table *)

#[global] Instance keeps_abilities_refl : Reflexive keeps_abilities.
Proof. by intros c. Qed.
#[global] Instance keeps_abilities_trans : Transitive keeps_abilities.
Proof. intros c1 c2 c3 H1 H2. unfold keeps_abilities in *. congruence. Qed.

Lemma keeps_abilities_same_db c c' : db c' = db c → keeps_abilities c c'.
Proof. intros H. unfold keeps_abilities. by rewrite H. Qed.

Lemma keeps_abilities_insert t values :
  t ≠ Tabilities → steps keeps_abilities (execute_insert t values).
Proof.
  intros Ht cur. pose proof (touches_only_insert t values cur) as Htouch.
  apply (Htouch Tabilities). congruence.
Qed.

Lemma keeps_abilities_insert_abilities_table ability_ :
  steps keeps_abilities (insert_abilities_table ability_).
Proof. intros cur. by rewrite insert_abilities_table_raises. Qed.

Lemma keeps_abilities_insert_pokemon pkmn : steps keeps_abilities (insert_pokemon pkmn).
Proof.
  unfold_loader.
  steps_with ltac:(first
    [ apply keeps_abilities_insert; discriminate
    | apply steps_select_db, keeps_abilities_same_db
    | apply steps_fetchall_db, keeps_abilities_same_db ]).
Qed.

(** X11. No run of [fill_sqlite_db], from any database and on any store,
    adds a row to the abilities table, whether the run returns or raises:
    the ability pass stops at its first SELECT, and the load of a pokemon
    writes to the other tables. *)
Theorem abilities_table_never_filled
    (ability_coll : list ability_doc) (pkmn_coll : list pokemon_doc) :
  steps keeps_abilities (fill_sqlite_db ability_coll pkmn_coll).
Proof.
  unfold fill_sqlite_db. apply steps_bind; try exact _.
  - apply steps_for_io; try exact _. apply keeps_abilities_insert_abilities_table.
  - intros _. apply steps_bind; try exact _.
    + apply steps_for_io; try exact _. apply keeps_abilities_insert_pokemon.
    + intros _. apply steps_commit_db, keeps_abilities_same_db.
Qed.

(** * The crawl *)

(** ** Upserts into the abilities collection *)

Lemma update_one_names ability_ coll :
  ability <$> update_one ability_ coll =
    if bool_decide (ability ability_ ∈ ability <$> coll) then ability <$> coll
    else (ability <$> coll) ++ [ability ability_].
Proof.
  induction coll as [|doc coll IH].
  - rewrite bool_decide_eq_false_2 by apply not_elem_of_nil. reflexivity.
  - cbn [update_one]. rewrite fmap_cons.
    destruct (decide (ability doc = ability ability_)) as [Hdoc|Hdoc].
    + rewrite (bool_decide_eq_true_2 (ability doc = _)) by done.
      rewrite bool_decide_eq_true_2 by (rewrite Hdoc; left).
      rewrite fmap_cons. by rewrite Hdoc.
    + rewrite (bool_decide_eq_false_2 (ability doc = _)) by done.
      rewrite fmap_cons, IH.
      destruct (decide (ability ability_ ∈ ability <$> coll)) as [Hrest|Hrest].
      * rewrite !bool_decide_eq_true_2; [done|by right|done].
      * rewrite !bool_decide_eq_false_2; [done| |done].
        intros Hin. apply elem_of_cons in Hin as [Hin|Hin]; congruence.
Qed.

Lemma update_one_elem ability_ coll : ability_ ∈ update_one ability_ coll.
Proof.
  induction coll as [|doc coll IH]; simpl; [by left|].
  case_bool_decide; [by left|by right].
Qed.

Lemma update_one_other ability_ coll doc :
  doc ∈ coll → ability doc ≠ ability ability_ → doc ∈ update_one ability_ coll.
Proof.
  intros Hdoc Hne. induction coll as [|doc' coll IH]; [by apply elem_of_nil in Hdoc|].
  simpl. apply elem_of_cons in Hdoc as [<-|Hdoc].
  - rewrite bool_decide_eq_false_2 by done. by left.
  - case_bool_decide; right; [done|by apply IH].
Qed.

Lemma update_one_NoDup ability_ coll :
  NoDup (ability <$> coll) → NoDup (ability <$> update_one ability_ coll).
Proof.
  intros Hnodup. rewrite update_one_names. case_bool_decide as Hin; [done|].
  apply NoDup_app. split; [done|]. split; [|apply NoDup_singleton].
  intros n Hn Hn'. apply list_elem_of_singleton in Hn' as ->. done.
Qed.

Lemma update_one_prefix ability_ coll :
  (ability <$> coll) `prefix_of` (ability <$> update_one ability_ coll).
Proof.
  rewrite update_one_names. case_bool_decide; [done|]. by apply prefix_app_r.
Qed.

Lemma upserts_NoDup (new coll : list ability_doc) :
  NoDup (ability <$> coll) →
  NoDup (ability <$> foldl (λ coll ability_, update_one ability_ coll) coll new).
Proof.
  revert coll. induction new as [|a new IH]; intros coll Hnodup; simpl; [done|].
  apply IH. by apply update_one_NoDup.
Qed.

Lemma upserts_prefix (new coll : list ability_doc) :
  (ability <$> coll) `prefix_of`
    (ability <$> foldl (λ coll ability_, update_one ability_ coll) coll new).
Proof.
  revert coll. induction new as [|a new IH]; intros coll; simpl; [done|].
  etransitivity; [apply (update_one_prefix a)|apply IH].
Qed.

Lemma upserts_other (new coll : list ability_doc) doc :
  doc ∈ coll → ability doc ∉ ability <$> new →
  doc ∈ foldl (λ coll ability_, update_one ability_ coll) coll new.
Proof.
  revert coll. induction new as [|a new IH]; intros coll Hdoc Hnot; simpl; [done|].
  apply IH.
  - apply update_one_other; [done|]. intros Heq. apply Hnot. rewrite Heq. by left.
  - intros Hin. apply Hnot. by right.
Qed.

(** X12. The upserts of one page into the abilities collection: the names
    stay pairwise distinct, the names already stored keep their places, a
    stored document whose name the page does not show is kept, and of the
    documents of the page that share a name the last one is what the
    collection holds. *)
Theorem abilities_upserted (coll new : list ability_doc) :
  let coll' := foldl (λ coll ability_, update_one ability_ coll) coll new in
  (NoDup (ability <$> coll) → NoDup (ability <$> coll')) ∧
  (ability <$> coll) `prefix_of` (ability <$> coll') ∧
  (∀ doc, doc ∈ coll → ability doc ∉ ability <$> new → doc ∈ coll') ∧
  (∀ i ability_,
     new !! i = Some ability_ →
     (∀ j later, (i < j)%nat → new !! j = Some later →
                 ability later ≠ ability ability_) →
     ability_ ∈ coll').
Proof.
  cbv zeta. split; [apply upserts_NoDup|]. split; [apply upserts_prefix|].
  split; [intros doc; apply upserts_other|].
  revert coll. induction new as [|a new IH]; intros coll i ability_ Hi Hlast.
  { by rewrite lookup_nil in Hi. }
  destruct i as [|i]; simpl in *.
  - injection Hi as ->. apply upserts_other; [apply update_one_elem|].
    intros Hin. apply list_elem_of_fmap in Hin as (later & Heq & Hlater).
    apply list_elem_of_lookup in Hlater as [j Hj].
    apply (Hlast (S j) later); [lia|done|done].
  - apply (IH _ i); [done|]. intros j later Hj Hlater.
    apply (Hlast (S j)); [lia|done].
Qed.

Lemma abilities_upserted_witness :
  {| ability := "Overgrow"; description := "Powers up Grass moves in a pinch." |}
    ∈ foldl (λ coll ability_, update_one ability_ coll) [overgrow]
            (__scrape_abilities ivysaur_page).
Proof.
  apply (proj2 (proj2 (proj2 (abilities_upserted [overgrow]
           (__scrape_abilities ivysaur_page)))) 0%nat); [reflexivity|].
  intros j later Hj Hlater. destruct j; [lia|]. discriminate Hlater.
Defined.

(** ** The loop of [main] *)

Section CrawlProperties.

Variable int : string → option Z.
Variable lower : string → string.
Variable requests_get : string → option page.

Abbreviation init := (__init__ int lower requests_get).
Abbreviation run := (crawl int lower requests_get).

(** What a constructor call that returns has done. *)
Lemma init_ok url_ requested pkdx requested' :
  init url_ requested = (Ok pkdx, requested') →
  startswith url_prefix url_ = true ∧
  requested' = requested ++ [url_] ∧
  ∃ soup,
    requests_get url_ = Some soup ∧
    __scrape_pokemon int lower url_ soup = Ok (_pokemon pkdx) ∧
    _abilities pkdx = __scrape_abilities soup ∧
    _next_pokemon_url pkdx = __scrape_next_pokemon_url soup.
Proof.
  unfold __init__. destruct (startswith url_prefix url_); simpl; [|discriminate].
  unfold mbind, io_bind, lift. destruct (requests_get url_) as [soup|]; [|discriminate].
  destruct (__scrape_pokemon int lower url_ soup) as [pokemon|e] eqn:Hscrape;
    [|discriminate].
  intros [= <- <-]. split; [done|]. split; [done|]. exists soup. by split_and!.
Qed.

(** The constructor call on a page that is served and scraped. *)
Lemma init_of_page url_ requested soup doc :
  startswith url_prefix url_ = true →
  requests_get url_ = Some soup →
  __scrape_pokemon int lower url_ soup = Ok doc →
  init url_ requested =
    (Ok {| _url := url_; _pokemon := doc; _abilities := __scrape_abilities soup;
           _next_pokemon_url := __scrape_next_pokemon_url soup |},
     requested ++ [url_]).
Proof.
  intros Hprefix Hget Hscrape. unfold __init__. rewrite Hprefix. simpl.
  unfold mbind, io_bind, lift. by rewrite Hget, Hscrape.
Qed.

(** The constructor requests nothing but the URL it is given, and only if
    the URL has the prefix. *)
Lemma init_requests url_ requested :
  (init url_ requested).2 = requested ∨
  (startswith url_prefix url_ = true ∧ (init url_ requested).2 = requested ++ [url_]).
Proof.
  unfold __init__. destruct (startswith url_prefix url_); simpl; [right|by left].
  split; [done|]. unfold mbind, io_bind, lift.
  destruct (requests_get url_) as [soup|]; [|done].
  by destruct (__scrape_pokemon int lower url_ soup).
Qed.

Lemma insert_one_some doc coll pkmns :
  insert_one doc coll = Ok (Some pkmns) →
  int64 (number doc) = true ∧
  (number doc ∉ number <$> coll) ∧ pkmns = coll ++ [doc].
Proof.
  unfold insert_one. destruct (int64 (number doc)); [|discriminate]. simpl.
  case_bool_decide; [discriminate|]. by intros [= <-].
Qed.

(** What the loop keeps, however it ends: both collections grow at their
    end only, the unique indexes stay satisfied, and the requests made are
    added to the requests found, each to a URL with the prefix. *)
Lemma crawl_keeps fuel url_ st requested :
  let st' := (run fuel url_ st requested).1.2 in
  let requested' := (run fuel url_ st requested).2 in
  pkmn_collection st `prefix_of` pkmn_collection st' ∧
  (NoDup (number <$> pkmn_collection st) → NoDup (number <$> pkmn_collection st')) ∧
  (ability <$> ability_collection st) `prefix_of` (ability <$> ability_collection st') ∧
  (NoDup (ability <$> ability_collection st) →
   NoDup (ability <$> ability_collection st')) ∧
  ∃ added, requested' = requested ++ added ∧
           Forall (λ u, startswith url_prefix u = true) added.
Proof.
  cbv zeta. revert url_ st requested.
  induction fuel as [|fuel IH]; intros url_ st requested; simpl.
  { split_and!; try done. exists []. by rewrite app_nil_r. }
  pose proof (init_requests url_ requested) as Hreq.
  destruct (init url_ requested) as [[pkdx|e] requested1] eqn:Hinit; simpl in Hreq.
  2:{ simpl. split_and!; try done.
      destruct Hreq as [->|[Hprefix ->]].
      - exists []. by rewrite app_nil_r.
      - exists [url_]. split; [done|]. by apply Forall_singleton. }
  apply init_ok in Hinit as (Hprefix & -> & _).
  destruct (insert_one (_pokemon pkdx) (pkmn_collection st)) as [[pkmns|]|e]
    eqn:Hinsert.
  2,3: (simpl; split_and!; try done; exists [url_]; split; [done|];
        by apply Forall_singleton).
  apply insert_one_some in Hinsert as (_ & Hfresh & ->).
  set (st1 := {| pkmn_collection := pkmn_collection st ++ [_pokemon pkdx];
                 ability_collection := foldl (λ coll ability_, update_one ability_ coll)
                                             (ability_collection st) (_abilities pkdx) |}).
  assert (pkmn_collection st `prefix_of` pkmn_collection st1) as Hp1
    by (by apply prefix_app_r).
  assert (NoDup (number <$> pkmn_collection st) →
          NoDup (number <$> pkmn_collection st1)) as Hn1.
  { intros Hnodup. simpl. rewrite fmap_app. apply NoDup_app. split; [done|].
    split; [|apply NoDup_singleton].
    intros n Hn Hn'. apply list_elem_of_singleton in Hn' as ->. done. }
  assert ((ability <$> ability_collection st) `prefix_of`
          (ability <$> ability_collection st1)) as Ha1 by apply upserts_prefix.
  assert (NoDup (ability <$> ability_collection st) →
          NoDup (ability <$> ability_collection st1)) as Hu1 by apply upserts_NoDup.
  case_bool_decide as Hnext.
  - simpl. split_and!; try done. exists [url_]. split; [done|].
    by apply Forall_singleton.
  - destruct (IH (_next_pokemon_url pkdx) st1 (requested ++ [url_]))
      as (Hp & Hn & Ha & Hu & added & Hadded & Hall).
    split_and!.
    + by etransitivity.
    + auto.
    + by etransitivity.
    + auto.
    + exists (url_ :: added). split.
      * rewrite Hadded. by rewrite <- (assoc_L (++)).
      * by apply Forall_cons.
Qed.

(** X13. However a run of [main] ends, and for whatever fuel, the store
    only grew: the documents found are still the first ones of the pokemon
    collection, and the names found still the first ones of the abilities
    collection. When [main] gets past the creation of its two indexes, the
    numbers and the ability names of the store it leaves are pairwise
    distinct. *)
Theorem main_grows_store (fuel : nat) (st : store) :
  let st' := (main int lower requests_get fuel st).1.2 in
  pkmn_collection st `prefix_of` pkmn_collection st' ∧
  (ability <$> ability_collection st) `prefix_of` (ability <$> ability_collection st') ∧
  ((main int lower requests_get fuel st).1.1 ≠ DuplicateKeyError →
   NoDup (number <$> pkmn_collection st') ∧
   NoDup (ability <$> ability_collection st')).
Proof.
  cbv zeta. unfold main, unique_index.
  case_bool_decide as Hnumbers; [|by split_and!].
  case_bool_decide as Hnames; [|by split_and!].
  destruct (crawl_keeps fuel first_pokemon_url st []) as (Hp & Hn & Ha & Hu & _).
  split_and!; auto.
Qed.

(** X14. Every request of a run of [main] goes to a URL that starts with
    the prefix of the pokedex: a link that leads elsewhere ends the run
    before its page is requested. *)
Theorem main_requests_pokedex_only (fuel : nat) (st : store) (u : string) :
  u ∈ (main int lower requests_get fuel st).2 →
  ∃ rest, u = url_prefix +:+ rest.
Proof.
  unfold main. intros Hu. apply startswith_spec.
  destruct (unique_index (number <$> pkmn_collection st));
    [|by apply elem_of_nil in Hu].
  destruct (unique_index (ability <$> ability_collection st));
    [|by apply elem_of_nil in Hu].
  destruct (crawl_keeps fuel first_pokemon_url st [])
    as (_ & _ & _ & _ & added & Hadded & Hall).
  rewrite Hadded in Hu. simpl in Hu. by apply (proj1 (Forall_forall _ _) Hall).
Qed.

(** The loop on a tour: it ends with the break, for any fuel that covers
    the pages. *)
Lemma crawl_tour pages : ∀ docs fuel url_ st requested,
  tour int lower requests_get url_ pages docs →
  Forall (λ doc, int64 (number doc) = true) docs →
  NoDup (number <$> (pkmn_collection st ++ docs)) →
  (List.length pages ≤ fuel)%nat →
  ∃ requested',
    run fuel url_ st requested =
      (Done,
       {| pkmn_collection := pkmn_collection st ++ docs;
          ability_collection := upsert_pages (ability_collection st) pages |},
       requested') ∧
    List.length requested' = (List.length requested + List.length pages)%nat.
Proof.
  induction pages as [|soup pages IH];
    intros docs fuel url_ st requested Htour Hsize Hnodup Hfuel.
  { destruct docs; destruct Htour. }
  destruct docs as [|doc docs]; [destruct Htour|].
  destruct Htour as (Hprefix & Hget & Hscrape & Hrest).
  destruct fuel as [|fuel]; [simpl in Hfuel; lia|].
  simpl run. rewrite (init_of_page url_ requested soup doc Hprefix Hget Hscrape).
  cbn [_pokemon _abilities _next_pokemon_url].
  assert (number doc ∉ number <$> pkmn_collection st) as Hfresh.
  { rewrite fmap_app in Hnodup. apply NoDup_app in Hnodup as (_ & Hdisjoint & _).
    intros Hin. apply (Hdisjoint _ Hin). rewrite fmap_cons. by left. }
  apply Forall_cons in Hsize as [Hdoc Hsize].
  unfold insert_one. rewrite Hdoc. cbn [negb]. rewrite bool_decide_eq_false_2 by done.
  destruct pages as [|soup' pages].
  - destruct Hrest as [-> Hnext]. rewrite bool_decide_eq_true_2 by done.
    eexists. split; [reflexivity|]. rewrite length_app. done.
  - destruct Hrest as [Hnext Htour]. rewrite bool_decide_eq_false_2 by done.
    set (st1 := {| pkmn_collection := pkmn_collection st ++ [doc];
                   ability_collection := _ |}).
    destruct (IH docs fuel (__scrape_next_pokemon_url soup) st1 (requested ++ [url_])
                Htour Hsize)
      as (requested' & Hrun & Hlen).
    + simpl. by rewrite <- (assoc_L (++)).
    + simpl in Hfuel |- *. lia.
    + exists requested'. rewrite Hrun. split.
      * simpl. by rewrite <- (assoc_L (++)).
      * rewrite Hlen, length_app. simpl. lia.
Qed.

(** X15. On a site whose pages form a tour from the first page back to it,
    with numbers that fit 8 bytes, are pairwise distinct and are new to the
    store, [main] ends with the break for any fuel that covers the pages:
    it has made one request for each page, the pokemon collection holds the
    documents of the pages behind those it held, in the order of the tour,
    and the abilities collection has taken the upserts of each page in
    turn. *)
Theorem main_completes_tour
    (pages : list page) (docs : list pokemon_doc) (fuel : nat) (st : store) :
  tour int lower requests_get first_pokemon_url pages docs →
  Forall (λ doc, int64 (number doc) = true) docs →
  NoDup (number <$> (pkmn_collection st ++ docs)) →
  NoDup (ability <$> ability_collection st) →
  (List.length pages ≤ fuel)%nat →
  ∃ requested,
    main int lower requests_get fuel st =
      (Done,
       {| pkmn_collection := pkmn_collection st ++ docs;
          ability_collection := upsert_pages (ability_collection st) pages |},
       requested) ∧
    List.length requested = List.length pages.
Proof.
  intros Htour Hsize Hnumbers Hnames Hfuel. unfold main, unique_index.
  rewrite bool_decide_eq_true_2.
  2:{ rewrite fmap_app in Hnumbers. by apply NoDup_app in Hnumbers as (? & _). }
  rewrite bool_decide_eq_true_2 by done.
  destruct (crawl_tour pages docs fuel first_pokemon_url st [] Htour Hsize Hnumbers Hfuel)
    as (requested & Hrun & Hlen).
  by exists requested.
Qed.

(** X16. [main] cannot be run twice on one store: once a run has stored the
    document of the first page, every later run on a store grown from it,
    on a site that still serves that page, ends at its first insert with
    DuplicateKeyError, after one request and without a change to the
    store. *)
Theorem main_rerun_duplicate_key
    (fuel fuel' : nat) (st st' later : store) (requested : list string) :
  main int lower requests_get fuel st = (Done, st', requested) →
  pkmn_collection st' `prefix_of` pkmn_collection later →
  NoDup (number <$> pkmn_collection later) →
  NoDup (ability <$> ability_collection later) →
  main int lower requests_get (S fuel') later
    = (DuplicateKeyError, later, [first_pokemon_url]).
Proof.
  intros Hrun Hprefix Hnumbers Hnames. unfold main, unique_index in *.
  rewrite !bool_decide_eq_true_2 by done.
  destruct (bool_decide (NoDup (number <$> pkmn_collection st))); [|discriminate].
  destruct (bool_decide (NoDup (ability <$> ability_collection st))); [|discriminate].
  destruct fuel as [|fuel]; [discriminate|]. simpl in Hrun |- *.
  destruct (init first_pokemon_url []) as [[pkdx|e] requested1] eqn:Hinit;
    [|discriminate].
  pose proof (init_ok _ _ _ _ Hinit) as (Hurl & -> & soup & Hget & Hscrape & _ & _).
  assert (init first_pokemon_url [] = (Ok pkdx, [first_pokemon_url]))
    as Hinit' by exact Hinit.
  destruct (insert_one (_pokemon pkdx) (pkmn_collection st)) as [[pkmns|]|e]
    eqn:Hinsert; [|discriminate..].
  apply insert_one_some in Hinsert as (Hsize & _ & ->).
  assert (_pokemon pkdx ∈ pkmn_collection st') as Hstored.
  { case_bool_decide.
    - injection Hrun as <- _. simpl. apply elem_of_app. right. by left.
    - match type of Hrun with
      | run fuel ?u ?s ?r = _ =>
          destruct (crawl_keeps fuel u s r) as ([more Hmore] & _)
      end.
      rewrite Hrun in Hmore. simpl in Hmore. rewrite Hmore.
      apply elem_of_app. left. apply elem_of_app. right. by left. }
  unfold insert_one. rewrite Hsize. cbn [negb]. rewrite bool_decide_eq_true_2; [done|].
  apply list_elem_of_fmap. exists (_pokemon pkdx). split; [done|].
  destruct Hprefix as [more ->]. apply elem_of_app. by left.
Qed.

End CrawlProperties.

Lemma main_requests_pokedex_only_witness :
  ∃ rest, "https://www.pokemon.com/us/pokedex/ivysaur" = url_prefix +:+ rest.
Proof.
  apply (main_requests_pokedex_only decimal lower_ascii two_page_site 2 empty_store).
  assert ((main decimal lower_ascii two_page_site 2 empty_store).2
          = [first_pokemon_url; "https://www.pokemon.com/us/pokedex/ivysaur"]) as ->
    by (vm_compute; reflexivity).
  right. left.
Defined.

Lemma main_completes_tour_witness :
  ∃ st requested,
    main decimal lower_ascii two_page_site 2 empty_store = (Done, st, requested) ∧
    number <$> pkmn_collection st = [1; 2]%Z ∧
    ability_collection st =
      [{| ability := "Overgrow";
          description := "Powers up Grass moves in a pinch." |}].
Proof.
  destruct (__scrape_pokemon decimal lower_ascii first_pokemon_url bulbasaur_page)
    as [doc1|e] eqn:Hdoc1; [|vm_compute in Hdoc1; discriminate].
  destruct (__scrape_pokemon decimal lower_ascii
              "https://www.pokemon.com/us/pokedex/ivysaur" ivysaur_page)
    as [doc2|e] eqn:Hdoc2; [|vm_compute in Hdoc2; discriminate].
  assert (number doc1 = 1%Z) as Hn1.
  { pose proof Hdoc1 as H. vm_compute in H. by injection H as <-. }
  assert (number doc2 = 2%Z) as Hn2.
  { pose proof Hdoc2 as H. vm_compute in H. by injection H as <-. }
  assert (tour decimal lower_ascii two_page_site first_pokemon_url
            [bulbasaur_page; ivysaur_page] [doc1; doc2]) as Htour.
  { simpl. split_and!; try done. }
  assert (NoDup (number <$> (pkmn_collection empty_store ++ [doc1; doc2]))) as Hnumbers.
  { simpl. rewrite Hn1, Hn2. apply NoDup_cons. split; [|apply NoDup_singleton].
    intros Hin. apply list_elem_of_singleton in Hin. discriminate. }
  assert (Forall (λ doc, int64 (number doc) = true) [doc1; doc2]) as Hsize.
  { repeat constructor; [by rewrite Hn1|by rewrite Hn2]. }
  destruct (main_completes_tour decimal lower_ascii two_page_site
              [bulbasaur_page; ivysaur_page] [doc1; doc2] 2 empty_store
              Htour Hsize Hnumbers)
    as (requested & Hrun & _); [apply NoDup_nil_2|simpl; lia|].
  eexists _, requested. split; [exact Hrun|]. split.
  - simpl. by rewrite Hn1, Hn2.
  - vm_compute. reflexivity.
Defined.

Lemma main_rerun_duplicate_key_witness :
  main decimal lower_ascii two_page_site 1
       (main decimal lower_ascii two_page_site 2 empty_store).1.2
    = (DuplicateKeyError,
       (main decimal lower_ascii two_page_site 2 empty_store).1.2,
       [first_pokemon_url]).
Proof.
  destruct (main decimal lower_ascii two_page_site 2 empty_store)
    as [[out st'] requested] eqn:Hrun.
  assert (out = Done) as -> by (vm_compute in Hrun; congruence).
  assert (number <$> pkmn_collection st' = [1; 2]%Z) as Hnumbers.
  { pose proof Hrun as H. vm_compute in H. by injection H as <- _. }
  assert (ability <$> ability_collection st' = ["Overgrow"]) as Hnames.
  { pose proof Hrun as H. vm_compute in H. by injection H as <- _. }
  apply (main_rerun_duplicate_key decimal lower_ascii two_page_site 2 0
           empty_store st' st' requested Hrun); [done| |].
  - rewrite Hnumbers. apply NoDup_cons. split; [|apply NoDup_singleton].
    intros Hin. apply list_elem_of_singleton in Hin. discriminate.
  - rewrite Hnames. apply NoDup_singleton.
Defined.

(** * From the page to the formes table *)

(** The loop body of [insert_formes_table] on a form that has the six
    entries and a first type: the INSERT it executes. *)
Lemma insert_formes_table_body_run pkmn (form : gmap string value) cur
    form_ height weight category types gender type1 :
  form !! "form" = Some form_ →
  form !! "height" = Some height →
  form !! "weight" = Some weight →
  form !! "category" = Some category →
  form !! "types" = Some types →
  form !! "gender" = Some gender →
  elems types !! 0%nat = Some type1 →
  insert_formes_table_body pkmn form cur =
    execute_insert Tformes
      [PText (name pkmn); to_param form_; to_param height; to_param weight;
       to_param category; PText type1;
       from_option PText PNone (elems types !! 1%nat);
       PInt (if contains "Male" gender then 1 else 0);
       PInt (if contains "Female" gender then 1 else 0)] cur.
Proof.
  intros Hform Hheight Hweight Hcategory Htypes Hgender Htype1.
  unfold insert_formes_table_body, getitem, index.
  rewrite Hform, Hheight, Hweight, Hcategory, Htypes, Hgender.
  cbn [mbind result_bind]. rewrite Htype1.
  unfold mbind at 1, io_bind at 1, lift at 1.
  destruct (List.length (elems types) <? 2)%nat eqn:Hlen.
  - apply Nat.ltb_lt in Hlen.
    rewrite (lookup_ge_None_2 (elems types) 1) by lia. reflexivity.
  - apply Nat.ltb_ge in Hlen.
    destruct (lookup_lt_is_Some_2 (elems types) 1) as [type2 Htype2]; [lia|].
    rewrite Htype2. reflexivity.
Qed.

(** The dictionary of a region with the titles of the site. *)
Lemma scrape_form_info_standard lower form_info misc :
  lower <$> take 4 (titles form_info) = ["height"; "weight"; "gender"; "category"] →
  (∀ t4, titles form_info !! 4%nat = Some t4 → lower t4 = "abilities") →
  scrape_form_info lower form_info = Ok misc →
  ∃ v0 v1 v2 v3 genders,
    take 4 (values form_info) = [v0; v1; v2; v3] ∧
    scrape_genders v2 = Ok genders ∧
    misc !! "height" = Some (VStr (text v0)) ∧
    misc !! "weight" = Some (VStr (text v1)) ∧
    misc !! "gender" = Some (VList genders) ∧
    misc !! "category" = Some (VStr (text v3)) ∧
    misc !! "form" = None ∧
    misc !! "types" = None.
Proof.
  destruct form_info as [ts vs]. cbn [titles values]. intros Htitles Hfifth Hrun.
  destruct ts as [|t0 [|t1 [|t2 [|t3 ts]]]]; try discriminate Htitles.
  injection Htitles as H0 H1 H2 H3.
  unfold scrape_form_info in Hrun. cbn [titles values] in Hrun.
  destruct vs as [|v0 [|v1 [|v2 vs]]];
    cbn [index lookup list_lookup mbind result_bind] in Hrun;
    try discriminate Hrun.
  destruct (scrape_genders v2) as [genders|] eqn:Hgenders; [|discriminate].
  destruct vs as [|v3 vs];
    cbn [index lookup list_lookup mbind result_bind] in Hrun;
    try discriminate Hrun.
  rewrite H0, H1, H2, H3 in Hrun.
  exists v0, v1, v2, v3, genders. split; [done|]. split; [done|].
  destruct ((4 <? _)%nat && (4 <? _)%nat) eqn:Hsection.
  - destruct ts as [|t4 ts]; [discriminate|].
    cbn [index lookup list_lookup mbind result_bind] in Hrun.
    rewrite (Hfifth t4 eq_refl) in Hrun. injection Hrun as <-.
    rewrite !(lookup_insert_ne _ "abilities") by done.
    split_and!; by simplify_map_eq.
  - injection Hrun as <-. split_and!; by simplify_map_eq.
Qed.

(** X17. Scraper and loader composed on one form. On a page with pairwise
    distinct form labels whose region at a position has the titles of the
    site, the form scraped at that position makes [insert_formes_table]
    execute one INSERT with the stripped name of the page, the label, the
    texts of the first, second and fourth value of the region as they
    stand, the first type and the second type (or None) stripped, and the
    flags of the genders scraped from the third value. *)
Theorem page_form_reaches_formes_table
    (int : string → option Z) (lower : string → string)
    (url_ : string) (soup : page) (pkmn : pokemon_doc)
    (i : nat) (label : string) (form_info : ability_info)
    (ty1 : string) (tys : list string) :
  __scrape_pokemon int lower url_ soup = Ok pkmn →
  NoDup (__scrape_formes soup) →
  __scrape_formes soup !! i = Some label →
  info_tag soup !! i = Some form_info →
  types_tag soup !! i = Some (ty1 :: tys) →
  lower <$> take 4 (titles form_info) = ["height"; "weight"; "gender"; "category"] →
  (∀ t4, titles form_info !! 4%nat = Some t4 → lower t4 = "abilities") →
  ∃ form v0 v1 v2 v3 genders,
    formes pkmn !! i = Some form ∧
    take 4 (values form_info) = [v0; v1; v2; v3] ∧
    scrape_genders v2 = Ok genders ∧
    ∀ cur,
      insert_formes_table_body pkmn form cur =
        execute_insert Tformes
          [PText (strip blanks (title_name soup)); PText label;
           PText (text v0); PText (text v1); PText (text v3);
           PText (strip blanks ty1);
           from_option (λ ty2, PText (strip blanks ty2)) PNone (head tys);
           PInt (if bool_decide ("Male" ∈ genders) then 1 else 0);
           PInt (if bool_decide ("Female" ∈ genders) then 1 else 0)] cur.
Proof.
  intros Hrun Hnodup Hlabel Hinfo Htypes Htitles Hfifth.
  destruct (scrape_pokemon_header int lower url_ soup pkmn Hrun)
    as (_ & Hname & _).
  destruct (scrape_pokemon_forms int lower url_ soup pkmn i label Hrun Hnodup Hlabel)
    as (image & descs & tys' & form_info' & misc & _ & _ & Htypes' & Hinfo'
        & Hmisc & Hform).
  assert (form_info' = form_info) as -> by congruence.
  assert (tys' = ty1 :: tys) as -> by congruence.
  destruct (scrape_form_info_standard lower form_info misc Htitles Hfifth Hmisc)
    as (v0 & v1 & v2 & v3 & genders & Hvalues & Hgenders & Hheight & Hweight
        & Hgender & Hcategory & Hnoform & Hnotypes).
  eexists _, v0, v1, v2, v3, genders. split; [exact Hform|].
  split; [done|]. split; [done|]. intros cur.
  rewrite (insert_formes_table_body_run pkmn _ cur (VStr label) (VStr (text v0))
             (VStr (text v1)) (VStr (text v3))
             (VList (strip blanks <$> ty1 :: tys)) (VList genders) (strip blanks ty1)).
  - rewrite Hname. cbn [to_param elems contains]. by destruct tys.
  - rewrite lookup_union_r by done. by simplify_map_eq.
  - by apply lookup_union_Some_l.
  - by apply lookup_union_Some_l.
  - by apply lookup_union_Some_l.
  - rewrite lookup_union_r by done. by simplify_map_eq.
  - by apply lookup_union_Some_l.
  - done.
Qed.

Lemma page_form_reaches_formes_table_witness :
  ∃ pkmn form,
    __scrape_pokemon decimal lower_ascii first_pokemon_url bulbasaur_page = Ok pkmn ∧
    formes pkmn !! 0%nat = Some form ∧
    (insert_formes_table_body pkmn form fresh_cursor).1 = Ok tt ∧
    t_formes (db (insert_formes_table_body pkmn form fresh_cursor).2) =
      [[SText "Bulbasaur"; SText "Bulbasaur"; SText "1 00"; SText "14.3 lbs";
        SText "Evolution"; SText "Grass"; SText "Poison"; SInt 1; SInt 1]].
Proof.
  destruct (__scrape_pokemon decimal lower_ascii first_pokemon_url bulbasaur_page)
    as [pkmn|e] eqn:Hrun; [|vm_compute in Hrun; discriminate].
  destruct (page_form_reaches_formes_table decimal lower_ascii first_pokemon_url
              bulbasaur_page pkmn 0 "Bulbasaur" eevee_full_info "Grass" ["Poison"] Hrun)
    as (form & v0 & v1 & v2 & v3 & genders & Hform & Hvalues & Hgenders & Hinsert).
  - apply NoDup_singleton.
  - reflexivity.
  - reflexivity.
  - reflexivity.
  - vm_compute. reflexivity.
  - intros t4 Ht4. injection Ht4 as <-. vm_compute. reflexivity.
  - exists pkmn, form. split; [reflexivity|]. split; [exact Hform|].
    rewrite Hinsert. injection Hvalues as <- <- <- <-.
    vm_compute in Hgenders. injection Hgenders as <-.
    split; vm_compute; reflexivity.
Defined.

(** * The two passes of the loader *)



(** Two ability documents and a pokemon document, on the database just
    created: nothing is loaded. *)
Example pokemon_pass_not_reached :
  fill_sqlite_db
    [overgrow; {| ability := "Chlorophyll"; description := "Boosts Speed in sunshine." |}]
    [bulbasaur] fresh_cursor
    = (Err InterfaceError, fresh_cursor).
Proof. reflexivity. Qed.
